(** * rclone ncdu: the navigation, selection and deletion controller

    A shallow embedding of [cmd/ncdu/ncdu.go]: the [UI] struct, the sort
    engine ([ncduSort], [sortCurrentDir], [toggleSort]), the viewport
    tracker ([move]), the selection set ([toggleSelectForCursor]), the
    confirmation popup ([popupBox], [moveBox], [handleBoxOption],
    [deleteSingle], [deleteSelected]) and the event loop of [Show]; and
    the rendering primitives [Print], [Line], [LineOptions] and [Box],
    each as the cells it writes.  How [Draw] formats the rows of the
    listing is not part of the model.

    Go's [int] is a 64-bit and [int8] an 8-bit two's complement integer;
    both are carried in [Z] with the wrap-around written out.  A run-time
    panic (index out of range, nil dereference) is a result of its own, so
    that "does not crash" is a statement about the model. *)

From Stdlib Require Import ZArith Lia String Ascii Floats Uint63 Permutation.
From Stdlib Require OrderedTypeEx.
From stdpp Require Import base option list gmap strings pretty sorting.

Local Open Scope string_scope.
Local Open Scope list_scope.
Local Open Scope Z_scope.

(** ** Results of Go code that may panic or leave the event loop *)

Inductive Res (A : Type) : Type :=
| Ok (a : A)                 (* normal completion *)
| Panic (why : string)       (* run-time panic *)
| Stop (err : option string) (* [Show] returned: quit, or fatal scan error *).
Arguments Ok {A} a.
Arguments Panic {A} why.
Arguments Stop {A} err.

#[global] Instance Res_ret : MRet Res := @Ok.
#[global] Instance Res_bind : MBind Res := fun A B k m =>
  match m with
  | Ok a => k a
  | Panic why => Panic why
  | Stop err => Stop err
  end.

(** ** Machine integers *)

Definition wrap (bits z : Z) : Z :=
  (z + 2 ^ (bits - 1)) mod 2 ^ bits - 2 ^ (bits - 1).
Definition wrap64 : Z -> Z := wrap 64.
Definition wrap8 : Z -> Z := wrap 8.

(** [len(l)] as a Go [int]. *)
Definition len {A} (l : list A) : Z := Z.of_nat (length l).

(** [l[i]]: panics outside [0, len(l)). *)
Definition index {A} (l : list A) (i : Z) : Res A :=
  if 0 <=? i then
    match l !! Z.to_nat i with
    | Some x => Ok x
    | None => Panic "index out of range"
    end
  else Panic "index out of range".

(** [l[i] = x]: panics outside [0, len(l)). *)
Definition store {A} (l : list A) (i : Z) (x : A) : Res (list A) :=
  if (0 <=? i) && (i <? len l) then Ok (<[Z.to_nat i := x]> l)
  else Panic "index out of range".

(** [l[lo:]]: panics outside [0, len(l)]. *)
Definition sliceFrom {A} (l : list A) (lo : Z) : Res (list A) :=
  if (0 <=? lo) && (lo <=? len l) then Ok (drop (Z.to_nat lo) l)
  else Panic "slice bounds out of range".

(** [float64(z)] for an [int64] [z], rounded to nearest even by the
    primitive conversion. *)
Definition float64 (z : Z) : float :=
  if z =? - 2 ^ 63 then
    PrimFloat.opp (PrimFloat.mul (PrimFloat.of_uint63 (Uint63.of_Z (2 ^ 62))) 2)
  else if z <? 0 then PrimFloat.opp (PrimFloat.of_uint63 (Uint63.of_Z (- z)))
  else PrimFloat.of_uint63 (Uint63.of_Z z).

(** ** Collaborators: directory entries, the scanned tree, the backend *)

(** Modelled from the spec: an [fs.DirEntry] (package [fs] is not part of
    this file), a node's identity key and kind.  What the controller
    reads of it is [Remote()], [String()] and whether it is an [fs.Object]
    (the type assertion in [deleteSingle] and [deleteSelected]). *)
Record DirEntry := {
  Remote : string;
  String_ : string;
  isObject : bool
}.

(** Modelled from the spec: [scan.Attrs], the per-child aggregate
    attributes returned by [AttrI] (package [scan] is not part of this
    file): size, count, countUnknownSize, entriesHaveErrors, isDirectory,
    readable. *)
Record Attrs := {
  Size : Z;
  Count : Z;
  CountUnknownSize : Z;
  IsDir : bool;
  Readable : bool;
  EntriesHaveErrors : bool
}.

(** Modelled from the spec: [Attrs.AverageSize], size / count as a
    [float64]; [Less] only calls it when [Count > 0]. *)
Definition AverageSize (a : Attrs) : float :=
  PrimFloat.div (float64 (Size a)) (float64 (Count a)).

(** Modelled from the spec: a [scan.Dir] node as the controller sees it,
    its path and its children in discovery order, each with its
    attributes. *)
Record Dir := {
  dPath : string;
  dChildren : list (DirEntry * Attrs)
}.

(** Modelled from the spec: [node.children()]. *)
Definition Entries (dir : Dir) : list DirEntry := fst <$> dChildren dir.

(** Modelled from the spec: [node.attributesAt(childIndex)]; a nil node
    or an index outside the children panics. *)
Definition AttrI (dir : option Dir) (i : Z) : Res Attrs :=
  match dir with
  | None => Panic "nil pointer dereference"
  | Some dir => c ← index (dChildren dir) i; Ok (snd c)
  end.

(** Modelled from the spec: [node.removeChildAt(childIndex)], which
    removes that child from the in-memory tree and keeps the others in
    order. *)
Definition Remove (i : Z) (dir : Dir) : Res Dir :=
  if (0 <=? i) && (i <? len (dChildren dir)) then
    Ok {| dPath := dPath dir;
          dChildren := delete (Z.to_nat i) (dChildren dir) |}
  else Panic "index out of range".

(** Modelled from the spec: [fspath.JoinRootPath], the fully-qualified
    display path of a directory. *)
Definition JoinRootPath (fsName p : string) : string :=
  if String.eqb p "" then fsName else fsName +:+ "/" +:+ p.

(** Modelled from the spec: the file-delete and the recursive purge
    primitive of the storage collaborator, as the calls the controller
    issues. *)
Inductive BackendOp :=
| DeleteFile (obj : DirEntry)   (* operations.DeleteFile(ctx, obj) *)
| Purge (dir : string)          (* operations.Purge(ctx, f, dir) *).

(** Where we have got to in the directory listing *)
Record dirPos := {
  entry : Z;
  offset : Z
}.

(** The closures stored in [boxMenuHandler], with what each captures. *)
Inductive Handler :=
| deleteFileHandler (cursorPos : dirPos) (pos : Z) (obj : DirEntry)
| purgeHandler (cursorPos : dirPos) (pos : Z) (dirEntry : DirEntry)
| deleteSelectedHandler.

(** What the controller cannot decide by itself: the outcome of a backend
    call given the calls that already succeeded, the tree links of the
    scan package, the order in which Go ranges over a map, and whether the
    clipboard is available. *)
Record Env := {
  opErr : list BackendOp -> BackendOp -> option string;
  GetDir : Dir -> Z -> option Dir;
  Parent : Dir -> option Dir;
  rangeOrder : gmap string dirPos -> list (string * dirPos);
  clipboardUnsupported : bool
}.

(** A legal iteration order visits every key of the map exactly once. *)
Definition rangeOrderOk (env : Env) : Prop :=
  forall m, rangeOrder env m ≡ₚ map_to_list m.

(** ** UI contains the state of the user interface

    [f] is the remote itself, modelled by the destructive calls that
    succeeded on it so far.  The rendering toggles ([showGraph],
    [showCounts], [showDirAverageSize], [humanReadable]) and [root], which
    nothing below reads, are left out. *)
Module UI.

Record t := mk {
  f : list BackendOp;
  fsName : string;
  d : option Dir;
  path : string;
  showBox : bool;
  boxText : list string;
  boxMenu : list string;
  boxMenuButton : Z;
  boxMenuHandler : option Handler;
  entries : list DirEntry;
  sortPerm : list Z;
  invSortPerm : list Z;
  dirListHeight : Z;
  listing : bool;
  visualSelectMode : bool;
  sortByName : Z;
  sortBySize : Z;
  sortByCount : Z;
  sortByAverageSize : Z;
  dirPosMap : gmap string dirPos;
  selectedEntries : gmap string dirPos
}.

Definition set_f (v : list BackendOp) (u : t) : t :=
  mk v (fsName u) (d u) (path u) (showBox u) (boxText u) (boxMenu u)
    (boxMenuButton u) (boxMenuHandler u) (entries u) (sortPerm u)
    (invSortPerm u) (dirListHeight u) (listing u) (visualSelectMode u)
    (sortByName u) (sortBySize u) (sortByCount u) (sortByAverageSize u)
    (dirPosMap u) (selectedEntries u).
Definition set_d (v : option Dir) (u : t) : t :=
  mk (f u) (fsName u) v (path u) (showBox u) (boxText u) (boxMenu u)
    (boxMenuButton u) (boxMenuHandler u) (entries u) (sortPerm u)
    (invSortPerm u) (dirListHeight u) (listing u) (visualSelectMode u)
    (sortByName u) (sortBySize u) (sortByCount u) (sortByAverageSize u)
    (dirPosMap u) (selectedEntries u).
Definition set_path (v : string) (u : t) : t :=
  mk (f u) (fsName u) (d u) v (showBox u) (boxText u) (boxMenu u)
    (boxMenuButton u) (boxMenuHandler u) (entries u) (sortPerm u)
    (invSortPerm u) (dirListHeight u) (listing u) (visualSelectMode u)
    (sortByName u) (sortBySize u) (sortByCount u) (sortByAverageSize u)
    (dirPosMap u) (selectedEntries u).
Definition set_showBox (v : bool) (u : t) : t :=
  mk (f u) (fsName u) (d u) (path u) v (boxText u) (boxMenu u)
    (boxMenuButton u) (boxMenuHandler u) (entries u) (sortPerm u)
    (invSortPerm u) (dirListHeight u) (listing u) (visualSelectMode u)
    (sortByName u) (sortBySize u) (sortByCount u) (sortByAverageSize u)
    (dirPosMap u) (selectedEntries u).
Definition set_boxText (v : list string) (u : t) : t :=
  mk (f u) (fsName u) (d u) (path u) (showBox u) v (boxMenu u)
    (boxMenuButton u) (boxMenuHandler u) (entries u) (sortPerm u)
    (invSortPerm u) (dirListHeight u) (listing u) (visualSelectMode u)
    (sortByName u) (sortBySize u) (sortByCount u) (sortByAverageSize u)
    (dirPosMap u) (selectedEntries u).
Definition set_boxMenu (v : list string) (u : t) : t :=
  mk (f u) (fsName u) (d u) (path u) (showBox u) (boxText u) v
    (boxMenuButton u) (boxMenuHandler u) (entries u) (sortPerm u)
    (invSortPerm u) (dirListHeight u) (listing u) (visualSelectMode u)
    (sortByName u) (sortBySize u) (sortByCount u) (sortByAverageSize u)
    (dirPosMap u) (selectedEntries u).
Definition set_boxMenuButton (v : Z) (u : t) : t :=
  mk (f u) (fsName u) (d u) (path u) (showBox u) (boxText u) (boxMenu u) v
    (boxMenuHandler u) (entries u) (sortPerm u) (invSortPerm u)
    (dirListHeight u) (listing u) (visualSelectMode u) (sortByName u)
    (sortBySize u) (sortByCount u) (sortByAverageSize u) (dirPosMap u)
    (selectedEntries u).
Definition set_boxMenuHandler (v : option Handler) (u : t) : t :=
  mk (f u) (fsName u) (d u) (path u) (showBox u) (boxText u) (boxMenu u)
    (boxMenuButton u) v (entries u) (sortPerm u) (invSortPerm u)
    (dirListHeight u) (listing u) (visualSelectMode u) (sortByName u)
    (sortBySize u) (sortByCount u) (sortByAverageSize u) (dirPosMap u)
    (selectedEntries u).
Definition set_entries (v : list DirEntry) (u : t) : t :=
  mk (f u) (fsName u) (d u) (path u) (showBox u) (boxText u) (boxMenu u)
    (boxMenuButton u) (boxMenuHandler u) v (sortPerm u) (invSortPerm u)
    (dirListHeight u) (listing u) (visualSelectMode u) (sortByName u)
    (sortBySize u) (sortByCount u) (sortByAverageSize u) (dirPosMap u)
    (selectedEntries u).
Definition set_sortPerm (v : list Z) (u : t) : t :=
  mk (f u) (fsName u) (d u) (path u) (showBox u) (boxText u) (boxMenu u)
    (boxMenuButton u) (boxMenuHandler u) (entries u) v (invSortPerm u)
    (dirListHeight u) (listing u) (visualSelectMode u) (sortByName u)
    (sortBySize u) (sortByCount u) (sortByAverageSize u) (dirPosMap u)
    (selectedEntries u).
Definition set_invSortPerm (v : list Z) (u : t) : t :=
  mk (f u) (fsName u) (d u) (path u) (showBox u) (boxText u) (boxMenu u)
    (boxMenuButton u) (boxMenuHandler u) (entries u) (sortPerm u) v
    (dirListHeight u) (listing u) (visualSelectMode u) (sortByName u)
    (sortBySize u) (sortByCount u) (sortByAverageSize u) (dirPosMap u)
    (selectedEntries u).
Definition set_dirListHeight (v : Z) (u : t) : t :=
  mk (f u) (fsName u) (d u) (path u) (showBox u) (boxText u) (boxMenu u)
    (boxMenuButton u) (boxMenuHandler u) (entries u) (sortPerm u)
    (invSortPerm u) v (listing u) (visualSelectMode u) (sortByName u)
    (sortBySize u) (sortByCount u) (sortByAverageSize u) (dirPosMap u)
    (selectedEntries u).
Definition set_listing (v : bool) (u : t) : t :=
  mk (f u) (fsName u) (d u) (path u) (showBox u) (boxText u) (boxMenu u)
    (boxMenuButton u) (boxMenuHandler u) (entries u) (sortPerm u)
    (invSortPerm u) (dirListHeight u) v (visualSelectMode u) (sortByName u)
    (sortBySize u) (sortByCount u) (sortByAverageSize u) (dirPosMap u)
    (selectedEntries u).
Definition set_visualSelectMode (v : bool) (u : t) : t :=
  mk (f u) (fsName u) (d u) (path u) (showBox u) (boxText u) (boxMenu u)
    (boxMenuButton u) (boxMenuHandler u) (entries u) (sortPerm u)
    (invSortPerm u) (dirListHeight u) (listing u) v (sortByName u)
    (sortBySize u) (sortByCount u) (sortByAverageSize u) (dirPosMap u)
    (selectedEntries u).
Definition set_sortByName (v : Z) (u : t) : t :=
  mk (f u) (fsName u) (d u) (path u) (showBox u) (boxText u) (boxMenu u)
    (boxMenuButton u) (boxMenuHandler u) (entries u) (sortPerm u)
    (invSortPerm u) (dirListHeight u) (listing u) (visualSelectMode u) v
    (sortBySize u) (sortByCount u) (sortByAverageSize u) (dirPosMap u)
    (selectedEntries u).
Definition set_sortBySize (v : Z) (u : t) : t :=
  mk (f u) (fsName u) (d u) (path u) (showBox u) (boxText u) (boxMenu u)
    (boxMenuButton u) (boxMenuHandler u) (entries u) (sortPerm u)
    (invSortPerm u) (dirListHeight u) (listing u) (visualSelectMode u)
    (sortByName u) v (sortByCount u) (sortByAverageSize u) (dirPosMap u)
    (selectedEntries u).
Definition set_sortByCount (v : Z) (u : t) : t :=
  mk (f u) (fsName u) (d u) (path u) (showBox u) (boxText u) (boxMenu u)
    (boxMenuButton u) (boxMenuHandler u) (entries u) (sortPerm u)
    (invSortPerm u) (dirListHeight u) (listing u) (visualSelectMode u)
    (sortByName u) (sortBySize u) v (sortByAverageSize u) (dirPosMap u)
    (selectedEntries u).
Definition set_sortByAverageSize (v : Z) (u : t) : t :=
  mk (f u) (fsName u) (d u) (path u) (showBox u) (boxText u) (boxMenu u)
    (boxMenuButton u) (boxMenuHandler u) (entries u) (sortPerm u)
    (invSortPerm u) (dirListHeight u) (listing u) (visualSelectMode u)
    (sortByName u) (sortBySize u) (sortByCount u) v (dirPosMap u)
    (selectedEntries u).
Definition set_dirPosMap (v : gmap string dirPos) (u : t) : t :=
  mk (f u) (fsName u) (d u) (path u) (showBox u) (boxText u) (boxMenu u)
    (boxMenuButton u) (boxMenuHandler u) (entries u) (sortPerm u)
    (invSortPerm u) (dirListHeight u) (listing u) (visualSelectMode u)
    (sortByName u) (sortBySize u) (sortByCount u) (sortByAverageSize u) v
    (selectedEntries u).
Definition set_selectedEntries (v : gmap string dirPos) (u : t) : t :=
  mk (f u) (fsName u) (d u) (path u) (showBox u) (boxText u) (boxMenu u)
    (boxMenuButton u) (boxMenuHandler u) (entries u) (sortPerm u)
    (invSortPerm u) (dirListHeight u) (listing u) (visualSelectMode u)
    (sortByName u) (sortBySize u) (sortByCount u) (sortByAverageSize u)
    (dirPosMap u) v.

End UI.

Abbreviation UI := UI.t.

(** [u.dirPosMap[u.path]]: a missing key reads as the zero value. *)
Definition lookupPos (m : gmap string dirPos) (k : string) : dirPos :=
  default {| entry := 0; offset := 0 |} (m !! k).

(** ** SortEngine *)

(** [sort.Interface] of the Go library. *)
Class Interface (T : Type) := {
  Len : T -> Z;
  Less : T -> Z -> Z -> Res bool;
  Swap : T -> Z -> Z -> Res T
}.

(** [sort.Sort] and [sort.Slice] belong to the Go library; whatever
    algorithm they run, they touch the data only through [Len], [Less] and
    [Swap].  They are modelled by insertion sort over the interface, the
    algorithm the library itself runs on short slices:
    [for i := a+1; i < b; i++ {]
    [  for j := i; j > a && Less(j, j-1); j-- { Swap(j, j-1) } }]. *)
Section InsertionSort.
Context {T : Type} `{Interface T}.

Fixpoint insertionInner (j : nat) (data : T) : Res T :=
  match j with
  | O => Ok data
  | S j' =>
      b ← Less data (Z.of_nat j) (Z.of_nat j');
      if b : bool then
        data' ← Swap data (Z.of_nat j) (Z.of_nat j');
        insertionInner j' data'
      else Ok data
  end.

Fixpoint insertionOuter (todo : list nat) (data : T) : Res T :=
  match todo with
  | [] => Ok data
  | i :: todo' => data' ← insertionInner i data; insertionOuter todo' data'
  end.

Definition sort_Sort (data : T) : Res T :=
  insertionOuter (seq 1 (Z.to_nat (Len data) - 1)) data.

End InsertionSort.

(** Exchange of two slots of a slice. *)
Definition swapSlots {A} (l : list A) (i j : Z) : Res (list A) :=
  x ← index l i;
  y ← index l j;
  l' ← store l i y;
  store l' j x.

(** Sort by the configured sort method *)
Module ncduSort.

Record t := mk {
  sortPerm : list Z;
  entries : list DirEntry;
  d : option Dir;
  u : UI
}.

(** [var iAvgSize float64]
    [if iattrs.Count > 0 { iAvgSize = iattrs.AverageSize() }] *)
Definition avgSize (a : Attrs) : float :=
  if 0 <? Count a then AverageSize a else 0%float.

(** The body of [Less] once the attributes and names of both sides are
    fetched: the average sizes and the [switch]. *)
Definition lessAttrs (u : UI) (iattrs jattrs : Attrs) (iname jname : string)
  : bool :=
  let iAvgSize := avgSize iattrs in
  let jAvgSize := avgSize jattrs in
  if UI.sortByName u <? 0 then String.ltb jname iname
  else if 0 <? UI.sortByName u then String.ltb iname jname
  else if UI.sortBySize u <? 0 then
    if negb (Size iattrs =? Size jattrs) then Size iattrs <? Size jattrs
    else String.ltb iname jname
  else if 0 <? UI.sortBySize u then
    if negb (Size iattrs =? Size jattrs) then Size jattrs <? Size iattrs
    else String.ltb iname jname
  else if UI.sortByCount u <? 0 then
    if negb (Count iattrs =? Count jattrs) then Count iattrs <? Count jattrs
    else String.ltb iname jname
  else if 0 <? UI.sortByCount u then
    if negb (Count iattrs =? Count jattrs) then Count jattrs <? Count iattrs
    else String.ltb iname jname
  else if UI.sortByAverageSize u <? 0 then
    if negb (PrimFloat.eqb iAvgSize jAvgSize)
    then PrimFloat.ltb iAvgSize jAvgSize
    else (* if avgSize is equal, sort by size *) Size iattrs <? Size jattrs
  else if 0 <? UI.sortByAverageSize u then
    if negb (PrimFloat.eqb iAvgSize jAvgSize)
    then PrimFloat.ltb jAvgSize iAvgSize
    else (* if avgSize is equal, sort by size *) Size jattrs <? Size iattrs
  else (* if everything equal, sort by name *) String.ltb iname jname.

(** Less is part of sort.Interface. *)
Definition Less (ds : t) (i j : Z) : Res bool :=
  pi ← index (sortPerm ds) i;
  iattrs ← AttrI (d ds) pi;
  pj ← index (sortPerm ds) j;
  jattrs ← AttrI (d ds) pj;
  ie ← index (entries ds) pi;
  je ← index (entries ds) pj;
  Ok (lessAttrs (u ds) iattrs jattrs (Remote ie) (Remote je)).

(** Swap is part of sort.Interface. *)
Definition Swap (ds : t) (i j : Z) : Res t :=
  perm ← swapSlots (sortPerm ds) i j;
  Ok (mk perm (entries ds) (d ds) (u ds)).

(** Len is part of sort.Interface. *)
Definition Len (ds : t) : Z := len (sortPerm ds).

End ncduSort.

#[global] Instance ncduSort_Interface : Interface ncduSort.t := {
  Len := ncduSort.Len;
  Less := ncduSort.Less;
  Swap := ncduSort.Swap
}.

(** The slice given to [sort.Slice] in [deleteSelected], with its closure
    [positionsToDelete[i] > positionsToDelete[j]]. *)
#[global] Instance positions_Interface : Interface (list Z) := {
  Len := len;
  Less := fun positions i j =>
    a ← index positions i; b ← index positions j; Ok (b <? a);
  Swap := swapSlots
}.

(** [for i := range u.entries { u.sortPerm = append(u.sortPerm, i) }] on
    the emptied slice: the identity permutation. *)
Definition iota (n : nat) : list Z := Z.of_nat <$> seq 0 n.

(** [for i, j := range u.sortPerm { u.invSortPerm[j] = i }] *)
Fixpoint fillInv (i : Z) (perm inv : list Z) : Res (list Z) :=
  match perm with
  | [] => Ok inv
  | j :: rest => inv' ← store inv j i; fillInv (i + 1) rest inv'
  end.

(** sort the permutation map of the current directory *)
Definition sortCurrentDir (u : UI) : Res UI :=
  let u := UI.set_sortPerm (iota (length (UI.entries u))) u in
  let data := ncduSort.mk (UI.sortPerm u) (UI.entries u) (UI.d u) u in
  data ← sort_Sort data;
  let u := UI.set_sortPerm (ncduSort.sortPerm data) u in
  let u :=
    if len (UI.invSortPerm u) <? len (UI.sortPerm u)
    then UI.set_invSortPerm (replicate (length (UI.sortPerm u)) 0) u
    else u in
  inv ← fillInv 0 (UI.sortPerm u) (UI.invSortPerm u);
  Ok (UI.set_invSortPerm inv u).

(** The [*int8] handed to [toggleSort]. *)
Inductive sortField := ByName | BySize | ByCount | ByAverageSize.

#[global] Instance sortField_eq_dec : EqDecision sortField.
Proof. solve_decision. Defined.

Definition getSort (s : sortField) (u : UI) : Z :=
  match s with
  | ByName => UI.sortByName u
  | BySize => UI.sortBySize u
  | ByCount => UI.sortByCount u
  | ByAverageSize => UI.sortByAverageSize u
  end.

Definition setSort (s : sortField) (v : Z) (u : UI) : UI :=
  match s with
  | ByName => UI.set_sortByName v u
  | BySize => UI.set_sortBySize v u
  | ByCount => UI.set_sortByCount v u
  | ByAverageSize => UI.set_sortByAverageSize v u
  end.

(** toggle the sorting for the flag passed in *)
Definition toggleSort (sortType : sortField) (u : UI) : Res UI :=
  let old := getSort sortType u in
  let u := UI.set_sortBySize 0 u in
  let u := UI.set_sortByCount 0 u in
  let u := UI.set_sortByName 0 u in
  let u := UI.set_sortByAverageSize 0 u in
  let u := if old =? 0 then setSort sortType 1 u
           else setSort sortType (wrap8 (- old)) u in
  sortCurrentDir u.

(** setCurrentDir sets the current directory *)
Definition setCurrentDir (dir : Dir) (u : UI) : Res UI :=
  let u := UI.set_d (Some dir) u in
  let u := UI.set_entries (Entries dir) u in
  let u := UI.set_path (JoinRootPath (UI.fsName u) (dPath dir)) u in
  let u := UI.set_selectedEntries ∅ u in
  let u := UI.set_visualSelectMode false u in
  sortCurrentDir u.

(** ** SelectionSet *)

Definition toggleSelectForCursor (u : UI) : Res UI :=
  let cursorPos := lookupPos (UI.dirPosMap u) (UI.path u) in
  pos ← index (UI.sortPerm u) (entry cursorPos);
  dirEntry ← index (UI.entries u) pos;
  match UI.selectedEntries u !! String_ dirEntry with
  | Some _ =>
      Ok (UI.set_selectedEntries
            (delete (String_ dirEntry) (UI.selectedEntries u)) u)
  | None =>
      Ok (UI.set_selectedEntries
            (<[String_ dirEntry := cursorPos]> (UI.selectedEntries u)) u)
  end.

(** ** ViewportTracker *)

(** Move the cursor this many spaces adjusting the viewport as necessary *)
Definition move (delta : Z) (u : UI) : Res UI :=
  match UI.d u with
  | None => Ok u
  | Some _ =>
      let absD := if delta <? 0 then wrap64 (- delta) else delta in
      let entries := len (UI.entries u) in
      (* Fetch current dirPos *)
      let pos := lookupPos (UI.dirPosMap u) (UI.path u) in
      let e := wrap64 (entry pos + delta) in
      (* check entry in range *)
      let e := if e <? 0 then 0
               else if e >=? entries then entries - 1 else e in
      (* check cursor still on screen *)
      let p := wrap64 (e - offset pos) in
      let o := if p <? 0 then wrap64 (offset pos - absD)
               else if p >=? UI.dirListHeight u then wrap64 (offset pos + absD)
               else offset pos in
      (* check dirPos.offset in bounds *)
      let o := if (entries =? 0) || (o <? 0) then 0
               else if o >=? entries then entries - 1 else o in
      (* toggle the current file for selection in selection mode *)
      u ← (if UI.visualSelectMode u then toggleSelectForCursor u else Ok u);
      (* write dirPos back for later *)
      Ok (UI.set_dirPosMap
            (<[UI.path u := {| entry := e; offset := o |}]> (UI.dirPosMap u)) u)
  end.

(** ** ConfirmationWorkflow *)

(** popupBox shows a box with the text in *)
Definition popupBox (text : list string) (u : UI) : UI :=
  UI.set_showBox true (UI.set_boxText text u).

(** togglePopupBox shows a box with the text in

    [reflect.DeepEqual(u.boxText, text)] is the equality of the two
    lists, except that it tells a nil slice from an empty one, which a
    list cannot: the two agree whenever [text] has a line, as every text
    [Show] passes has. *)
Definition togglePopupBox (text : list string) (u : UI) : UI :=
  if UI.showBox u && bool_decide (UI.boxText u = text)
  then UI.set_showBox false u
  else popupBox text u.

Definition moveBox (to : Z) (u : UI) : UI :=
  if len (UI.boxMenu u) =? 0 then u
  else
    let b := if 0 <? to then wrap64 (UI.boxMenuButton u + 1)
             else wrap64 (UI.boxMenuButton u - 1) in
    let b := if b >=? len (UI.boxMenu u) then len (UI.boxMenu u) - 1
             else if b <? 0 then 0 else b in
    UI.set_boxMenuButton b u.

Definition removeEntry (pos : Z) (u : UI) : Res UI :=
  match UI.d u with
  | None => Panic "nil pointer dereference"
  | Some dir => dir' ← Remove pos dir; setCurrentDir dir' u
  end.

(** A call on the backend: on success it is recorded in [f]. *)
Definition backendCall (env : Env) (op : BackendOp) (u : UI)
  : UI * option string :=
  match opErr env (UI.f u) op with
  | Some err => (u, Some err)
  | None => (UI.set_f (UI.f u ++ [op]) u, None)
  end.

(** delete the entry at the current position *)
Definition deleteSingle (u : UI) : Res UI :=
  let cursorPos := lookupPos (UI.dirPosMap u) (UI.path u) in
  pos ← index (UI.sortPerm u) (entry cursorPos);
  dirEntry ← index (UI.entries u) pos;
  let u := UI.set_boxMenu ["cancel"; "confirm"] u in
  if isObject dirEntry then
    let u := UI.set_boxMenuHandler
               (Some (deleteFileHandler cursorPos pos dirEntry)) u in
    Ok (popupBox ["Delete this file?";
                  JoinRootPath (UI.fsName u) (String_ dirEntry)] u)
  else
    let u := UI.set_boxMenuHandler
               (Some (purgeHandler cursorPos pos dirEntry)) u in
    Ok (popupBox ["Purge this directory?";
                  "ALL files in it will be deleted";
                  JoinRootPath (UI.fsName u) (String_ dirEntry)] u).

(** The closures of [deleteSingle]: both branches differ in the backend
    call and the message only. *)
Definition singleHandler (env : Env) (op : BackendOp) (done : string)
    (cursorPos : dirPos) (pos : Z) (o : Z) (u : UI)
  : Res (UI * (string * option string)) :=
  if negb (o =? 1) then Ok (u, ("Aborted!", None))
  else
    match backendCall env op u with
    | (u, Some err) => Ok (u, ("", Some err))
    | (u, None) =>
        u ← removeEntry pos u;
        u ← (if entry cursorPos >=? len (UI.entries u)
             then move (-1) u (* move back onto a valid entry *)
             else Ok u);
        Ok (u, (done, None))
    end.

(** The [range u.selectedEntries] loop of the [deleteSelected] closure;
    [ord] is the order in which the map is visited. *)
Fixpoint deleteSelectedLoop (env : Env) (ord : list (string * dirPos))
    (i : Z) (positionsToDelete : list Z) (u : UI)
  : Res (UI * list Z * option string) :=
  match ord with
  | [] => Ok (u, positionsToDelete, None)
  | (key, cursorPos) :: rest =>
      pos ← index (UI.sortPerm u) (entry cursorPos);
      dirEntry ← index (UI.entries u) pos;
      let op := if isObject dirEntry then DeleteFile dirEntry
                else Purge (String_ dirEntry) in
      match backendCall env op u with
      | (u, Some err) => Ok (u, positionsToDelete, Some err)
      | (u, None) =>
          let u := UI.set_selectedEntries
                     (delete key (UI.selectedEntries u)) u in
          positionsToDelete ← store positionsToDelete i pos;
          deleteSelectedLoop env rest (i + 1) positionsToDelete u
      end
  end.

(** [for _, dirPos := range positionsToDelete { u.removeEntry(dirPos) }] *)
Fixpoint removeEntries (positionsToDelete : list Z) (u : UI) : Res UI :=
  match positionsToDelete with
  | [] => Ok u
  | pos :: rest => u ← removeEntry pos u; removeEntries rest u
  end.

(** The closure of [deleteSelected]. *)
Definition selectedHandler (env : Env) (o : Z) (u : UI)
  : Res (UI * (string * option string)) :=
  if negb (o =? 1) then Ok (u, ("Aborted!", None))
  else
    let positionsToDelete := replicate (size (UI.selectedEntries u)) 0 in
    r ← deleteSelectedLoop env (rangeOrder env (UI.selectedEntries u))
          0 positionsToDelete u;
    match r with
    | (u, _, Some err) => Ok (u, ("", Some err))
    | (u, positionsToDelete, None) =>
        (* deleting all entries at once, as doing it during the deletions
           could cause issues. *)
        positionsToDelete ← sort_Sort positionsToDelete;
        u ← removeEntries positionsToDelete u;
        (* move cursor at end if needed *)
        let cursorPos := lookupPos (UI.dirPosMap u) (UI.path u) in
        u ← (if entry cursorPos >=? len (UI.entries u)
             then move (-1) u else Ok u);
        Ok (u, ("Successfully deleted all items!", None))
    end.

Definition deleteSelected (u : UI) : UI :=
  let u := UI.set_boxMenu ["cancel"; "confirm"] u in
  let u := UI.set_boxMenuHandler (Some deleteSelectedHandler) u in
  popupBox ["Delete selected items?";
            "ALL " +:+ pretty (size (UI.selectedEntries u)) +:+
            " items will be deleted"] u.

Definition delete_ (u : UI) : Res UI :=
  match UI.d u with
  | None => Ok u
  | Some _ =>
      if len (UI.entries u) =? 0 then Ok u
      else if (0 <? size (UI.selectedEntries u))%nat then Ok (deleteSelected u)
      else deleteSingle u
  end.

(** [u.boxMenuHandler(u.f, u.path, u.boxMenuButton)] *)
Definition callHandler (env : Env) (h : Handler) (o : Z) (u : UI)
  : Res (UI * (string * option string)) :=
  match h with
  | deleteFileHandler cursorPos pos obj =>
      singleHandler env (DeleteFile obj) "Successfully deleted file!"
        cursorPos pos o u
  | purgeHandler cursorPos pos dirEntry =>
      singleHandler env (Purge (String_ dirEntry)) "Successfully purged folder!"
        cursorPos pos o u
  | deleteSelectedHandler => selectedHandler env o u
  end.

(** handles a box option that was selected *)
Definition handleBoxOption (env : Env) (u : UI) : Res UI :=
  match UI.boxMenuHandler u with
  | None => Panic "nil pointer dereference"
  | Some h =>
      r ← callHandler env h (UI.boxMenuButton u) u;
      let '(u, (msg, err)) := r in
      (* reset *)
      let u := UI.set_boxMenuButton 0 u in
      let u := UI.set_boxMenu [] u in
      let u := UI.set_boxMenuHandler None u in
      match err with
      | Some e => Ok (popupBox ["error:"; e] u)
      | None => Ok (popupBox ["Finished:"; msg] u)
      end
  end.

Definition displayPath (u : UI) : UI :=
  togglePopupBox ["Current Path"; UI.path u] u.

(** helpText returns help text for ncdu *)
Definition helpText (env : Env) : list string :=
  ["rclone ncdu";
   " ↑,↓ or k,j to Move";
   " →,l to enter";
   " ←,h to return";
   " c toggle counts";
   " g toggle graph";
   " a toggle average size in directory";
   " u toggle human-readable format";
   " n,s,C,A sort by name,size,count,average size";
   " d delete file/directory";
   " v select file/directory";
   " V enter visual select mode";
   " D delete selected files/directories"]
  ++ (if clipboardUnsupported env then []
      else [" y copy current path to clipboard"])
  ++ [" Y display current path";
      " ^L refresh screen (fix screen corruption)";
      " ? to toggle help on and off";
      " q/ESC/^c to quit"].

(** ** NavigationController *)

(** enters the current entry *)
Definition enter (env : Env) (u : UI) : Res UI :=
  match UI.d u with
  | None => Ok u
  | Some dir =>
      if len (UI.entries u) =? 0 then Ok u
      else
        let pos := lookupPos (UI.dirPosMap u) (UI.path u) in
        i ← index (UI.sortPerm u) (entry pos);
        match GetDir env dir i with
        | None => Ok u
        | Some sub => setCurrentDir sub u
        end
  end.

(** up goes up to the parent directory *)
Definition up (env : Env) (u : UI) : Res UI :=
  match UI.d u with
  | None => Ok u
  | Some dir =>
      match Parent env dir with
      | Some parent => setCurrentDir parent u
      | None => Ok u
      end
  end.

(** NewUI creates a new user interface for ncdu on f *)
Definition NewUI (fsName : string) : UI :=
  {| UI.f := [];
     UI.fsName := fsName;
     UI.d := None;
     UI.path := "Waiting for root...";
     UI.showBox := false;
     UI.boxText := [];
     UI.boxMenu := [];
     UI.boxMenuButton := 0;
     UI.boxMenuHandler := None;
     UI.entries := [];
     UI.sortPerm := [];
     UI.invSortPerm := [];
     UI.dirListHeight := 20; (* updated in Draw *)
     UI.listing := false;
     UI.visualSelectMode := false;
     UI.sortByName := 0; (* +1 for normal, 0 for off, -1 for reverse *)
     UI.sortBySize := 1;
     UI.sortByCount := 0;
     UI.sortByAverageSize := 0;
     UI.dirPosMap := ∅;
     UI.selectedEntries := ∅ |}.

(** ** Drawing: what [Draw] does to the state, and the slots it reads

    Cell-level rendering is left out; kept are the update of
    [dirListHeight] from the terminal height [h] and every indexing
    operation, since each of them can panic. *)

(** find the biggest entry in the current listing *)
Fixpoint biggestEntryLoop (u : UI) (todo : list nat) (biggest : Z) : Res Z :=
  match todo with
  | [] => Ok biggest
  | i :: todo' =>
      pos ← index (UI.sortPerm u) (Z.of_nat i);
      attrs ← AttrI (UI.d u) pos;
      biggestEntryLoop u todo'
        (if Size attrs >? biggest then Size attrs else biggest)
  end.

Definition biggestEntry (u : UI) : Res Z :=
  match UI.d u with
  | None => Ok 0
  | Some _ => biggestEntryLoop u (seq 0 (length (UI.entries u))) 0
  end.

(** hasEmptyDir returns true if there is empty folder in current listing *)
Fixpoint hasEmptyDirLoop (u : UI) (todo : list nat) : Res bool :=
  match todo with
  | [] => Ok false
  | i :: todo' =>
      pos ← index (UI.sortPerm u) (Z.of_nat i);
      attrs ← AttrI (UI.d u) pos;
      if IsDir attrs && (Count attrs =? 0) then Ok true
      else hasEmptyDirLoop u todo'
  end.

Definition hasEmptyDir (u : UI) : Res bool :=
  match UI.d u with
  | None => Ok false
  | Some _ => hasEmptyDirLoop u (seq 0 (length (UI.entries u)))
  end.

(** [for i, j := range u.sortPerm[dirPos.offset:]] with [n = i + offset]
    and the screen row [y]. *)
Fixpoint drawRows (u : UI) (h y n : Z) (rows : list Z) : Res unit :=
  match rows with
  | [] => Ok tt
  | j :: rows' =>
      _ ← index (UI.entries u) j;
      if y >=? h - 1 then Ok tt
      else
        pos ← index (UI.sortPerm u) n;
        _ ← AttrI (UI.d u) pos;
        drawRows u h (y + 1) (n + 1) rows'
  end.

(** Draw the current screen *)
Definition Draw (h : Z) (u : UI) : Res UI :=
  let u := UI.set_dirListHeight (h - 3) u in
  match UI.d u with
  | None => Ok u
  | Some _ =>
      _ ← biggestEntry u;
      _ ← hasEmptyDir u;
      let pos := lookupPos (UI.dirPosMap u) (UI.path u) in
      rows ← sliceFrom (UI.sortPerm u) (offset pos);
      _ ← drawRows u h 2 (offset pos) rows;
      Ok u
  end.

(** ** The event loop of [Show] *)

(** One constructor per [case] of the key switch. *)
Inductive Key :=
| KeyEsc        (* termbox.KeyEsc, termbox.KeyCtrlC, 'q' *)
| KeyArrowDown  (* termbox.KeyArrowDown, 'j' *)
| KeyArrowUp    (* termbox.KeyArrowUp, 'k' *)
| KeyPgdn       (* termbox.KeyPgdn, '-', '_' *)
| KeyPgup       (* termbox.KeyPgup, '=', '+' *)
| KeyArrowLeft  (* termbox.KeyArrowLeft, 'h' *)
| KeyEnter
| KeyArrowRight (* termbox.KeyArrowRight, 'l' *)
| Key_c | Key_g | Key_a | Key_u  (* rendering toggles *)
| Key_n | Key_s | Key_C | Key_A
| Key_v | Key_V
| Key_y | Key_Y
| Key_d | Key_D
| Key_help      (* '?' *)
| KeyCtrlL
| KeyOther.

Definition key (env : Env) (k : Key) (u : UI) : Res UI :=
  match k with
  | KeyEsc =>
      if UI.showBox u then Ok (UI.set_showBox false u) else Stop None
  | KeyArrowDown => move 1 u
  | KeyArrowUp => move (-1) u
  | KeyPgdn => move (UI.dirListHeight u) u
  | KeyPgup => move (wrap64 (- UI.dirListHeight u)) u
  | KeyArrowLeft =>
      if UI.showBox u then Ok (moveBox (-1) u) else up env u
  | KeyEnter =>
      if 0 <? len (UI.boxMenu u) then handleBoxOption env u else enter env u
  | KeyArrowRight =>
      if UI.showBox u then Ok (moveBox 1 u) else enter env u
  | Key_c | Key_g | Key_a | Key_u => Ok u
  | Key_n => toggleSort ByName u
  | Key_s => toggleSort BySize u
  | Key_v => toggleSelectForCursor u
  | Key_V => Ok (UI.set_visualSelectMode (negb (UI.visualSelectMode u)) u)
  | Key_C => toggleSort ByCount u
  | Key_A => toggleSort ByAverageSize u
  | Key_y => Ok u (* copyPath writes the clipboard only *)
  | Key_Y => Ok (displayPath u)
  | Key_d => delete_ u
  | Key_D => Ok (deleteSelected u)
  | Key_help => Ok (togglePopupBox (helpText env) u)
  | KeyCtrlL => Ok u
  | KeyOther => Ok u
  end.

(** The four sources the [select] of the main loop waits on. *)
Inductive Event :=
| rootChan (root : Dir)
| errChan (err : option string)
| updated
| events (k : Key).

(** One iteration of the main loop: [Draw] on a terminal of height [h],
    then the event that is ready. *)
Definition iteration (env : Env) (h : Z) (ev : Event) (u : UI) : Res UI :=
  u ← Draw h u;
  match ev with
  | rootChan root => setCurrentDir root u
  | errChan (Some err) => Stop (Some ("ncdu directory listing: " +:+ err))
  | errChan None => Ok (UI.set_listing false u)
  | updated => sortCurrentDir u
  | events k => key env k u
  end.

(** The main loop fed with a finite prefix of what the terminal and the
    scan deliver; [Ok u] is the state in which it waits for more. *)
Fixpoint mainLoop (env : Env) (evs : list (Z * Event)) (u : UI) : Res UI :=
  match evs with
  | [] => Ok u
  | (h, ev) :: rest => u ← iteration env h ev u; mainLoop env rest u
  end.

(** Show shows the user interface *)
Definition Show (env : Env) (fsName : string) (evs : list (Z * Event))
  : Res UI :=
  mainLoop env evs (UI.set_listing true (NewUI fsName)).

(** The states the main loop can be in. *)
Inductive reachable (env : Env) (fsName : string) : UI -> Prop :=
| reachable_start :
    reachable env fsName (UI.set_listing true (NewUI fsName))
| reachable_iteration u h ev u' :
    reachable env fsName u ->
    iteration env h ev u = Ok u' ->
    reachable env fsName u'.

(** ** A small remote used in the examples: three files [a], [b], [c] of
    sizes 10, 100 and 5 in the root directory, every backend call
    succeeding, no sub-directories, maps ranged over in key order. *)

Definition file (name : string) : DirEntry :=
  {| Remote := name; String_ := name; isObject := true |}.

Definition fileAttrs (size : Z) : Attrs :=
  {| Size := size; Count := 1; CountUnknownSize := 0; IsDir := false;
     Readable := true; EntriesHaveErrors := false |}.

Definition emptyDirAttrs : Attrs :=
  {| Size := 0; Count := 0; CountUnknownSize := 0; IsDir := true;
     Readable := true; EntriesHaveErrors := false |}.

Definition subdir (name : string) : DirEntry :=
  {| Remote := name; String_ := name; isObject := false |}.

Definition abc : Dir :=
  {| dPath := "";
     dChildren := [(file "a", fileAttrs 10); (file "b", fileAttrs 100);
                   (file "c", fileAttrs 5)] |}.

Definition emptyRoot : Dir := {| dPath := ""; dChildren := [] |}.

Definition env0 : Env :=
  {| opErr := fun _ _ => None;
     GetDir := fun _ _ => None;
     Parent := fun _ => None;
     rangeOrder := map_to_list;
     clipboardUnsupported := false |}.

(** A terminal of 24 lines throughout. *)
Definition on24 (evs : list Event) : list (Z * Event) :=
  (fun ev => (24, ev)) <$> evs.

(** What an example inspects of a final state. *)
Definition cursor (u : UI) : dirPos := lookupPos (UI.dirPosMap u) (UI.path u).
Definition names (u : UI) : list string := Remote <$> UI.entries u.
Definition display (u : UI) : list string :=
  omap (fun i => Remote <$> UI.entries u !! Z.to_nat i) (UI.sortPerm u).
Definition selected (u : UI) : list string :=
  fst <$> map_to_list (UI.selectedEntries u).
Definition observe {A} (obs : UI -> A) (r : Res UI) : Res A :=
  u ← r; Ok (obs u).

(** Two more remotes: a single file, and six files of equal size. *)
Definition oneFile : Dir :=
  {| dPath := ""; dChildren := [(file "a", fileAttrs 10)] |}.

Definition sixFiles : Dir :=
  {| dPath := "";
     dChildren := [(file "a", fileAttrs 1); (file "b", fileAttrs 1);
                   (file "c", fileAttrs 1); (file "d", fileAttrs 1);
                   (file "e", fileAttrs 1); (file "f", fileAttrs 1)] |}.

(** ** Properties of states *)

(** The controller's view of the children is the node's. *)
Definition consistent (u : UI) : Prop :=
  match UI.d u with
  | None => UI.entries u = []
  | Some dir => UI.entries u = Entries dir
  end.

(** Two states with the same sort configuration. *)
Definition sameFlags (u u' : UI) : Prop :=
  UI.sortByName u = UI.sortByName u' /\ UI.sortBySize u = UI.sortBySize u' /\
  UI.sortByCount u = UI.sortByCount u' /\
  UI.sortByAverageSize u = UI.sortByAverageSize u'.

(** The directory shown, its listing and the sort flags are untouched. *)
Definition stable (u u' : UI) : Prop :=
  UI.d u' = UI.d u /\ UI.entries u' = UI.entries u /\
  UI.path u' = UI.path u /\ UI.fsName u' = UI.fsName u /\ sameFlags u u'.

(** The directory shown may change, to one whose listing the controller
    holds; the sort flags are untouched. *)
Definition retargets (u u' : UI) : Prop :=
  (consistent u -> consistent u') /\ UI.fsName u' = UI.fsName u /\
  sameFlags u u'.

(** Exactly one of the four sort keys is active, as +1 or -1. *)
Definition oneActive (u : UI) : Prop :=
  exists s, (getSort s u = 1 \/ getSort s u = -1) /\
            forall s', s' <> s -> getSort s' u = 0.

(** The [case] the [switch] of [Less] takes. *)
Definition selectedKey (u : UI) : option sortField :=
  if negb (UI.sortByName u =? 0) then Some ByName
  else if negb (UI.sortBySize u =? 0) then Some BySize
  else if negb (UI.sortByCount u =? 0) then Some ByCount
  else if negb (UI.sortByAverageSize u =? 0) then Some ByAverageSize
  else None.

(** The viewport invariant of a directory with [n] children shown on [h]
    rows. *)
Definition viewportOk (n h : Z) (p : dirPos) : Prop :=
  0 <= entry p < n /\ 0 <= offset p <= entry p /\ entry p - offset p < h.

(** The data [sortCurrentDir] hands to [sort.Sort], and the slice it
    fills with the inverse permutation. *)
Definition sortData (u : UI) : ncduSort.t :=
  let perm := iota (length (UI.entries u)) in
  ncduSort.mk perm (UI.entries u) (UI.d u) (UI.set_sortPerm perm u).

Definition invStart (u : UI) (perm : list Z) : list Z :=
  if len (UI.invSortPerm u) <? len perm
  then replicate (length perm) 0 else UI.invSortPerm u.

(** [ds] holds a permutation of [0, n) over [n] entries of a node with
    [n] children. *)
Record dsValid (n : nat) (ds : ncduSort.t) : Prop := {
  dsv_perm : ncduSort.sortPerm ds ≡ₚ iota n;
  dsv_entries : length (ncduSort.entries ds) = n;
  dsv_dir : n <> 0%nat ->
    exists dir, ncduSort.d ds = Some dir /\ length (dChildren dir) = n
}.

(** Two sort inputs that [Less] and [Swap] cannot tell apart. *)
Definition dsSame (ds ds' : ncduSort.t) : Prop :=
  ncduSort.sortPerm ds = ncduSort.sortPerm ds' /\
  ncduSort.entries ds = ncduSort.entries ds' /\
  ncduSort.d ds = ncduSort.d ds' /\
  sameFlags (ncduSort.u ds) (ncduSort.u ds').

(** The name of the entry under the stored cursor. *)
Definition cursorEntry (u : UI) : option string :=
  i ← UI.sortPerm u !! Z.to_nat (entry (cursor u));
  e ← UI.entries u !! Z.to_nat i;
  Some (Remote e).

(** The root directory [abc] as [setCurrentDir] leaves it under the
    default sort (size, largest first), and the same in visual select
    mode. *)
Definition uAbc : UI :=
  UI.set_invSortPerm [1; 0; 2] (UI.set_sortPerm [1; 0; 2]
    (UI.set_entries (Entries abc) (UI.set_d (Some abc) (NewUI "remote:")))).

Definition uAbcVisual : UI := UI.set_visualSelectMode true uAbc.

(** A root directory of two empty sub-directories [x] and [y]. *)
Definition twoEmptyDirs : Dir :=
  {| dPath := "";
     dChildren := [(subdir "x", emptyDirAttrs); (subdir "y", emptyDirAttrs)] |}.


(** ** Batch and single delete: what is removed *)

(** The node after [Remove]. *)
Definition without (pos : Z) (dir : Dir) : Dir :=
  {| dPath := dPath dir; dChildren := delete (Z.to_nat pos) (dChildren dir) |}.

(** Descending order on child indices. *)
Definition descending : list Z -> Prop := StronglySorted (fun a b => b <= a).

(** What is left of a list whose head has index [i] when the elements at
    the indices [ps] are taken out. *)
Fixpoint keep {A} (ps : list Z) (i : Z) (l : list A) : list A :=
  match l with
  | [] => []
  | x :: l' =>
      if bool_decide (i ∈ ps) then keep ps (i + 1) l'
      else x :: keep ps (i + 1) l'
  end.

Definition keepDir (ps : list Z) (dir : Dir) : Dir :=
  {| dPath := dPath dir; dChildren := keep ps 0 (dChildren dir) |}.

(** The child a selection snapshot resolves to through the current
    permutation: [u.entries[u.sortPerm[cursorPos.entry]]]. *)
Definition rankEntry (u : UI) (snap : dirPos) : Res (Z * DirEntry) :=
  pos ← index (UI.sortPerm u) (entry snap);
  e ← index (UI.entries u) pos;
  Ok (pos, e).

(** The backend call that deletes an entry. *)
Definition opOf (e : DirEntry) : BackendOp :=
  if isObject e then DeleteFile e else Purge (String_ e).

(** Every selected key is the key of the entry its snapshot resolves to. *)
Definition freshSelection (u : UI) : Prop :=
  forall key snap, UI.selectedEntries u !! key = Some snap ->
    exists pos e, rankEntry u snap = Ok (pos, e) /\ String_ e = key.

(** A sequence of [move] calls. *)
Fixpoint moves (deltas : list Z) (u : UI) : Res UI :=
  match deltas with
  | [] => Ok u
  | delta :: rest => u ← move delta u; moves rest u
  end.

(** ** Properties of the state kept by the main loop *)

(** The permutation held is a permutation of the rows of the listing held,
    and [invSortPerm] is long enough and inverts it. *)
Definition sortOk (u : UI) : Prop :=
  UI.sortPerm u ≡ₚ iota (length (UI.entries u)) /\
  (length (UI.entries u) <= length (UI.invSortPerm u))%nat /\
  forall (k : nat) j, UI.sortPerm u !! k = Some j ->
    UI.invSortPerm u !! Z.to_nat j = Some (Z.of_nat k).

(** The backend and the popup with its menu are untouched. *)
Definition quiet (u u' : UI) : Prop :=
  UI.f u' = UI.f u /\ UI.showBox u' = UI.showBox u /\
  UI.boxText u' = UI.boxText u /\ UI.boxMenu u' = UI.boxMenu u /\
  UI.boxMenuButton u' = UI.boxMenuButton u /\
  UI.boxMenuHandler u' = UI.boxMenuHandler u.

(** The permutation and its inverse are untouched. *)
Definition sameSort (u u' : UI) : Prop :=
  UI.sortPerm u' = UI.sortPerm u /\ UI.invSortPerm u' = UI.invSortPerm u.

(** The menu state of the popup: no menu, no handler and option 0, or the
    two-option menu with its handler and option 0 or 1. *)
Definition boxOk (u : UI) : Prop :=
  (UI.boxMenu u = [] /\ UI.boxMenuHandler u = None /\ UI.boxMenuButton u = 0) \/
  (UI.boxMenu u = ["cancel"; "confirm"] /\
   (exists hd, UI.boxMenuHandler u = Some hd) /\
   (UI.boxMenuButton u = 0 \/ UI.boxMenuButton u = 1)).

(** The reset in [handleBoxOption]:
    [u.boxMenuButton = 0; u.boxMenu = nil; u.boxMenuHandler = nil]. *)
Definition resetMenu (u : UI) : UI :=
  UI.set_boxMenuHandler None (UI.set_boxMenu [] (UI.set_boxMenuButton 0 u)).

(** ** The comparator on the children of a node *)

(** A numeric key compared first, the names compared on a tie. *)
Definition lexLess (x y : Z) (iname jname : string) : bool :=
  if negb (x =? y) then x <? y else String.ltb iname jname.

(** An index of a child of [dir]. *)
Definition validChild (dir : Dir) (p : Z) : Prop :=
  0 <= p < len (dChildren dir).

(** What [Less] answers on two children of [dir], given by their
    indices. *)
Definition childLess (u : UI) (dir : Dir) (p q : Z) : bool :=
  match dChildren dir !! Z.to_nat p, dChildren dir !! Z.to_nat q with
  | Some c, Some c' =>
      ncduSort.lessAttrs u c.2 c'.2 (Remote c.1) (Remote c'.1)
  | _, _ => false
  end.

(** No row is less than a row shown above it. *)
Definition sortedRows (u : UI) (dir : Dir) : list Z -> Prop :=
  StronglySorted (fun p q => childLess u dir q p = false).

(** ** More remotes for the examples *)

(** [abc] shown under its display path. *)
Definition uAbcRoot : UI := UI.set_path "remote:" uAbc.

(** A backend that refuses every call. *)
Definition envDenied : Env :=
  {| opErr := fun _ _ => Some "denied";
     GetDir := fun _ _ => None;
     Parent := fun _ => None;
     rangeOrder := map_to_list;
     clipboardUnsupported := false |}.

(** A root with the sub-directory [photos] and the file [readme]. *)
Definition photos : Dir :=
  {| dPath := "photos";
     dChildren := [(file "photos/1.jpg", fileAttrs 7);
                   (file "photos/2.jpg", fileAttrs 9)] |}.

Definition top : Dir :=
  {| dPath := "";
     dChildren := [(subdir "photos",
                    {| Size := 16; Count := 2; CountUnknownSize := 0;
                       IsDir := true; Readable := true;
                       EntriesHaveErrors := false |});
                   (file "readme", fileAttrs 3)] |}.

Definition envTree : Env :=
  {| opErr := fun _ _ => None;
     GetDir := fun dir i =>
       if String.eqb (dPath dir) "" && (i =? 0) then Some photos else None;
     Parent := fun dir =>
       if String.eqb (dPath dir) "photos" then Some top else None;
     rangeOrder := map_to_list;
     clipboardUnsupported := false |}.

(** [top] as [setCurrentDir] leaves it in a fresh controller. *)
Definition uTop : UI :=
  UI.set_invSortPerm [0; 1] (UI.set_sortPerm [0; 1]
    (UI.set_path "remote:"
      (UI.set_entries (Entries top) (UI.set_d (Some top) (NewUI "remote:"))))).

(** [abc] with the entry [b] of the first row selected. *)
Definition uAbcSelected : UI :=
  UI.set_selectedEntries {[ "b" := {| entry := 0; offset := 0 |} ]} uAbcRoot.

(** ** Visual select mode: the rows *)

(** The key of the entry shown on row [i]:
    [u.entries[u.sortPerm[i]].String()]. *)
Definition rowKey (u : UI) (i : Z) : option string :=
  match rankEntry u {| entry := i; offset := 0 |} with
  | Ok (_, e) => Some (String_ e)
  | _ => None
  end.

(** [move] changed the selection and the remembered cursors only. *)
Definition sameRows (u u' : UI) : Prop :=
  UI.d u' = UI.d u /\ UI.entries u' = UI.entries u /\
  UI.sortPerm u' = UI.sortPerm u /\ UI.path u' = UI.path u /\
  UI.dirListHeight u' = UI.dirListHeight u /\
  UI.visualSelectMode u' = UI.visualSelectMode u.

(** ** The ways out of the main loop *)

(** The call completes or panics; it does not end [Show]. *)
Definition noStop {A} (r : Res A) : Prop :=
  match r with Stop _ => False | _ => True end.

(** ** Rendering primitives: the cells written

    The functions below draw through [termbox.SetCell] only; each is
    modelled by the cells it writes, in the order it writes them. *)

(** A character, as [range] over a string yields it. *)
Definition rune : Type := Z.

(** [termbox.Attribute]: the colours this file names. *)
Inductive Attribute := ColorBlack | ColorRed | ColorYellow | ColorWhite.

(** [termbox.SetCell(x, y, ch, fg, bg)]: the cell written. *)
Record Cell := SetCell {
  cellX : Z;
  cellY : Z;
  cellCh : rune;
  cellFg : Attribute;
  cellBg : Attribute
}.

(** The value of a byte of a string. *)
Definition byteValue (a : ascii) : Z := Z.of_N (N_of_ascii a).

Definition between (lo hi b : Z) : bool := (lo <=? b) && (b <=? hi).

(** U+FFFD, what [range] yields for a byte that starts no valid
    encoding. *)
Definition RuneError : rune := 65533.

(** The second byte a leading byte of a three-byte and of a four-byte
    encoding accepts. *)
Definition second3 (b0 b1 : Z) : bool :=
  if b0 =? 224 then between 160 191 b1
  else if b0 =? 237 then between 128 159 b1
  else between 128 191 b1.

Definition second4 (b0 b1 : Z) : bool :=
  if b0 =? 240 then between 144 191 b1
  else if b0 =? 244 then between 128 143 b1
  else between 128 191 b1.

(** [for _, c := range s]: the runes of the UTF-8 string [s]; a byte that
    starts no valid encoding yields [RuneError] and is skipped alone. *)
Fixpoint runes (s : string) : list rune :=
  match s with
  | EmptyString => []
  | String a0 s1 =>
      let b0 := byteValue a0 in
      let bad := RuneError :: runes s1 in
      if b0 <? 128 then b0 :: runes s1
      else
        match s1 with
        | EmptyString => bad
        | String a1 s2 =>
            let b1 := byteValue a1 in
            if between 194 223 b0 then
              if between 128 191 b1
              then Z.lor (Z.shiftl (Z.land b0 31) 6) (Z.land b1 63) :: runes s2
              else bad
            else
              match s2 with
              | EmptyString => bad
              | String a2 s3 =>
                  let b2 := byteValue a2 in
                  if between 224 239 b0 then
                    if second3 b0 b1 && between 128 191 b2
                    then Z.lor (Z.shiftl (Z.land b0 15) 12)
                           (Z.lor (Z.shiftl (Z.land b1 63) 6) (Z.land b2 63))
                         :: runes s3
                    else bad
                  else
                    match s3 with
                    | EmptyString => bad
                    | String a3 s4 =>
                        let b3 := byteValue a3 in
                        if between 240 244 b0 && second4 b0 b1
                           && between 128 191 b2 && between 128 191 b3
                        then Z.lor (Z.shiftl (Z.land b0 7) 18)
                               (Z.lor (Z.shiftl (Z.land b1 63) 12)
                                  (Z.lor (Z.shiftl (Z.land b2 63) 6)
                                     (Z.land b3 63)))
                             :: runes s4
                        else bad
                    end
              end
        end
  end.

(** [len(s)]: the number of bytes. *)
Definition slen (s : string) : Z := Z.of_nat (String.length s).

(** [for _, c := range msg { termbox.SetCell(x, y, c, fg, bg); x++ }]:
    the cells, and [x] after the loop. *)
Fixpoint printRunes (x y : Z) (fg bg : Attribute) (cs : list rune)
  : list Cell * Z :=
  match cs with
  | [] => ([], x)
  | c :: cs' =>
      let '(cells, x') := printRunes (wrap64 (x + 1)) y fg bg cs' in
      (SetCell x y c fg bg :: cells, x')
  end.

(** Print a string *)
Definition Print (x y : Z) (fg bg : Attribute) (msg : string) : list Cell :=
  (printRunes x y fg bg (runes msg)).1.

(** [for ; x < xmax; x++ { termbox.SetCell(x, y, ch, fg, bg) }] *)
Definition fill (x xmax y : Z) (fg bg : Attribute) (ch : rune) : list Cell :=
  (fun k => SetCell (x + Z.of_nat k) y ch fg bg) <$> seq 0 (Z.to_nat (xmax - x)).

(** The first loop of [Line]: the cells, and [x] when the loop ran to
    its end, [None] when it returned. *)
Fixpoint lineRunes (RuneWidth : rune -> Z) (x y xmax : Z) (fg bg : Attribute)
    (cs : list rune) : list Cell * option Z :=
  match cs with
  | [] => ([], Some x)
  | c :: cs' =>
      let x' := wrap64 (x + RuneWidth c) in
      if x' >=? xmax then ([SetCell x y c fg bg], None)
      else
        let '(cells, r) := lineRunes RuneWidth x' y xmax fg bg cs' in
        (SetCell x y c fg bg :: cells, r)
  end.

(** Line prints a string to given xmax, with given space *)
Definition Line (RuneWidth : rune -> Z) (x y xmax : Z) (fg bg : Attribute)
    (spacer : rune) (msg : string) : list Cell :=
  match lineRunes RuneWidth x y xmax fg bg (runes msg) with
  | (cells, None) => cells
  | (cells, Some x) => cells ++ fill x xmax y fg bg spacer
  end.

Definition lineOptionLength (o : list string) : Z :=
  let count := foldl (fun count i => wrap64 (count + slen i)) 0 o in
  wrap64 (count + wrap64 (4 * len o)). (* spacer and arrows <entry> *)

(** The loop of [LineOptions] over the options, [i] being the index of
    the first of them; the text of an option is printed by the loop
    [Print] has. *)
Fixpoint lineOptionsLoop (x y : Z) (fg bg : Attribute) (selected i : Z)
    (options : list string) : list Cell :=
  match options with
  | [] => []
  | o :: rest =>
      let '(fg', bg') :=
        if i =? selected then (ColorWhite, ColorBlack) else (fg, bg) in
      let '(text, x') := printRunes (wrap64 (x + 2)) y fg' bg' (runes o) in
      [SetCell x y 32 fg bg; SetCell (wrap64 (x + 1)) y 60 fg' bg']
      ++ text (* print option text *)
      ++ [SetCell x' y 62 fg' bg'; SetCell (wrap64 (x' + 1)) y 32 fg bg]
      ++ lineOptionsLoop (wrap64 (x' + 2)) y fg bg selected (i + 1) rest
  end.

(** LineOptions Print line of selectable options *)
Definition LineOptions (x y xmax : Z) (fg bg : Attribute)
    (options : list string) (selected : Z) : list Cell :=
  (* Print left+right whitespace to center the options *)
  let xoffset :=
    Z.quot (wrap64 (wrap64 (xmax - x) - lineOptionLength options)) 2 in
  fill x (wrap64 (x + xoffset)) y fg bg 32
  ++ fill (wrap64 (xmax - xoffset)) xmax y fg bg 32
  ++ lineOptionsLoop (wrap64 (x + xoffset)) y fg bg selected 0 options.

(** [for _, s := range u.boxText { if len(s) > boxWidth && len(s) < w-4
    { boxWidth = len(s) } }] *)
Definition boxWidthOf (w : Z) (boxText : list string) : Z :=
  foldl (fun boxWidth s =>
           if (boxWidth <? slen s) && (slen s <? wrap64 (w - 4))
           then slen s else boxWidth) 10 boxText.

(** [for i, s := range u.boxText { Line(x, y+i, xmax, fg, bg, ' ', s);
    fg = termbox.ColorBlack }]: the cells, and [fg] after the loop. *)
Fixpoint boxLines (RuneWidth : rune -> Z) (x y xmax : Z) (fg bg : Attribute)
    (i : Z) (text : list string) : list Cell * Attribute :=
  match text with
  | [] => ([], fg)
  | s :: rest =>
      let '(cells, fg') :=
        boxLines RuneWidth x y xmax ColorBlack bg (i + 1) rest in
      (Line RuneWidth x (wrap64 (y + i)) xmax fg bg 32 s ++ cells, fg')
  end.

(** The frame of the box: where [Box] puts the text, the right end of
    the lines and the row below the last line it draws. *)
Record Frame := { frameX : Z; frameY : Z; frameXmax : Z; frameYmax : Z }.

Definition boxFrame (w h : Z) (u : UI) : Frame :=
  (* Find dimensions of text *)
  let boxWidth := boxWidthOf w (UI.boxText u) in
  let boxHeight := len (UI.boxText u) in
  (* position *)
  let x := Z.quot (wrap64 (w - boxWidth)) 2 in
  let y := Z.quot (wrap64 (h - boxHeight)) 2 in
  let xmax := wrap64 (x + boxWidth) in
  let xmax :=
    if negb (len (UI.boxMenu u) =? 0) then
      let count := lineOptionLength (UI.boxMenu u) in
      if wrap64 (x + boxWidth) >? wrap64 (x + count)
      then wrap64 (x + boxWidth) else wrap64 (x + count)
    else xmax in
  let ymax := wrap64 (y + len (UI.boxText u)) in
  let ymax := if negb (len (UI.boxMenu u) =? 0) then wrap64 (ymax + 1) else ymax in
  {| frameX := x; frameY := y; frameXmax := xmax; frameYmax := ymax |}.

(** Box the u.boxText onto the screen, of [w] columns and [h] lines *)
Definition Box (RuneWidth : rune -> Z) (w h : Z) (u : UI) : list Cell :=
  let '(Build_Frame x y xmax ymax) := boxFrame w h u in
  (* draw text *)
  let '(text, fg) :=
    boxLines RuneWidth x y xmax ColorRed ColorWhite 0 (UI.boxText u) in
  let bg := ColorWhite in
  let menu :=
    if negb (len (UI.boxMenu u) =? 0)
    then LineOptions x (wrap64 (ymax - 1)) xmax fg bg
           (UI.boxMenu u) (UI.boxMenuButton u)
    else [] in
  text ++ menu
  (* draw top border *)
  ++ flat_map (fun k => [SetCell (wrap64 (x - 1)) (y + Z.of_nat k) 9474 fg bg;
                         SetCell xmax (y + Z.of_nat k) 9474 fg bg])
       (seq 0 (Z.to_nat (ymax - y)))
  ++ flat_map (fun k => [SetCell (x + Z.of_nat k) (wrap64 (y - 1)) 9472 fg bg;
                         SetCell (x + Z.of_nat k) ymax 9472 fg bg])
       (seq 0 (Z.to_nat (xmax - x)))
  ++ [SetCell (wrap64 (x - 1)) (wrap64 (y - 1)) 9484 fg bg;
      SetCell xmax (wrap64 (y - 1)) 9488 fg bg;
      SetCell (wrap64 (x - 1)) ymax 9492 fg bg;
      SetCell xmax ymax 9496 fg bg].

(** ** Rendering primitives: what is drawn where *)

(** A cell of the row [y] in these colours. *)
Definition onRow (y : Z) (fg bg : Attribute) (c : Cell) : Prop :=
  cellY c = y /\ cellFg c = fg /\ cellBg c = bg.

(** The columns the options take: each its runes between [ <] and
    [> ]. *)
Definition optionsWidth (options : list string) : Z :=
  foldr (fun o acc => len (runes o) + 4 + acc) 0 options.

(** The bytes of the options. *)
Definition optionsBytes (options : list string) : Z :=
  foldr (fun o acc => slen o + acc) 0 options.

(** The columns strictly between the two spaces of the option of index
    [k], when the options start at column [x]. *)
Fixpoint optionSpan (x : Z) (options : list string) (k : Z) : option (Z * Z) :=
  match options with
  | [] => None
  | o :: rest =>
      if k =? 0 then Some (x, x + len (runes o) + 3)
      else optionSpan (x + len (runes o) + 4) rest (k - 1)
  end.

Definition inSpan (span : option (Z * Z)) (col : Z) : bool :=
  match span with
  | Some (lo, hi) => (lo <? col) && (col <? hi)
  | None => false
  end.

(** A cell of the row [y], in the colours of the selection inside the
    span and in the given colours outside. *)
Definition optionCell (y : Z) (fg bg : Attribute) (span : option (Z * Z))
    (c : Cell) : Prop :=
  cellY c = y /\
  (cellFg c, cellBg c) =
    if inSpan span (cellX c) then (ColorWhite, ColorBlack) else (fg, bg).

(** A cell inside the rectangle of these corners, borders included. *)
Definition inRect (x0 y0 x1 y1 : Z) (c : Cell) : Prop :=
  x0 <= cellX c <= x1 /\ y0 <= cellY c <= y1.

(** * Proofs *)

(** ** Results and slices *)

#[global] Instance Ok_inj {A} : Inj (=) (=) (@Ok A).
Proof. intros a b [= ->]. done. Qed.

Lemma bind_Ok {A B} (m : Res A) (k : A -> Res B) b :
  m ≫= k = Ok b -> exists a, m = Ok a /\ k a = Ok b.
Proof. destruct m; simpl; intros Hm; try discriminate. eauto. Qed.

(** Inversion of a computation known to complete. *)
Ltac res_inv :=
  repeat match goal with
  | H : Ok _ = Ok _ |- _ => apply (inj Ok) in H
  | H : Panic _ = Ok _ |- _ => discriminate H
  | H : Stop _ = Ok _ |- _ => discriminate H
  | H : mbind _ _ = Ok _ |- _ =>
      let H' := fresh H in apply bind_Ok in H as (? & H' & H)
  | H : (if ?b then _ else _) = Ok _ |- _ => destruct b eqn:?
  | H : match ?x with _ => _ end = Ok _ |- _ => destruct x eqn:?
  end.

Lemma wrap64_small z : - 2 ^ 63 <= z < 2 ^ 63 -> wrap64 z = z.
Proof.
  intros Hz. unfold wrap64, wrap. change (64 - 1) with 63.
  rewrite Z.mod_small; lia.
Qed.

Lemma len_nonneg {A} (l : list A) : 0 <= len l.
Proof. unfold len. lia. Qed.

Lemma index_Ok {A} (l : list A) i x :
  index l i = Ok x <-> 0 <= i /\ l !! Z.to_nat i = Some x.
Proof.
  unfold index. destruct (Z.leb_spec 0 i).
  - destruct (l !! Z.to_nat i) eqn:E; split; intros; try discriminate; intuition congruence.
  - split; intros; try discriminate; lia.
Qed.

Lemma index_of_nat {A} (l : list A) (i : nat) x :
  l !! i = Some x -> index l (Z.of_nat i) = Ok x.
Proof. intros Hl. apply index_Ok. rewrite Nat2Z.id. split; [lia | done]. Qed.

Lemma store_Ok {A} (l : list A) i x :
  0 <= i < len l -> store l i x = Ok (<[Z.to_nat i := x]> l).
Proof.
  intros Hi. unfold store.
  destruct (Z.leb_spec 0 i); destruct (Z.ltb_spec i (len l)); simpl; try lia; done.
Qed.

Lemma insert_swap_head {A} (l : list A) j a y :
  l !! j = Some y -> y :: <[j := a]> l ≡ₚ a :: l.
Proof.
  revert j. induction l as [|b l IH]; intros [|j] Hj; simplify_eq/=.
  - apply perm_swap.
  - rewrite perm_swap. rewrite (IH _ Hj). apply perm_swap.
Qed.

Lemma insert_swap_perm {A} (l : list A) i j x y :
  l !! i = Some x -> l !! j = Some y ->
  <[j := x]> (<[i := y]> l) ≡ₚ l.
Proof.
  revert i j. induction l as [|a l IH]; intros [|i] [|j] Hi Hj; simplify_eq/=.
  - done.
  - by apply insert_swap_head.
  - by apply insert_swap_head.
  - f_equiv. by apply IH.
Qed.

Lemma swapSlots_Ok {A} (l : list A) (i j : nat) :
  (i < length l)%nat -> (j < length l)%nat ->
  exists l', swapSlots l (Z.of_nat i) (Z.of_nat j) = Ok l' /\ l' ≡ₚ l.
Proof.
  intros Hi Hj.
  destruct (lookup_lt_is_Some_2 l i Hi) as [x Hx].
  destruct (lookup_lt_is_Some_2 l j Hj) as [y Hy].
  unfold swapSlots.
  rewrite (index_of_nat _ _ _ Hx), (index_of_nat _ _ _ Hy). simpl.
  rewrite store_Ok by (unfold len; lia). simpl.
  rewrite store_Ok by (unfold len; rewrite length_insert; lia).
  eexists; split; [done|]. rewrite !Nat2Z.id. by apply insert_swap_perm.
Qed.

(** ** SortEngine: [sortCurrentDir] computes a permutation and its inverse *)

Lemma iota_elem n x : x ∈ iota n <-> 0 <= x < Z.of_nat n.
Proof.
  unfold iota. rewrite list_elem_of_fmap. split.
  - intros (k & -> & Hk). apply elem_of_seq in Hk. lia.
  - intros Hx. exists (Z.to_nat x). split; [lia|]. apply elem_of_seq. lia.
Qed.

Lemma iota_length n : length (iota n) = n.
Proof. unfold iota. by rewrite length_fmap, length_seq. Qed.

Lemma iota_NoDup n : NoDup (iota n).
Proof.
  unfold iota. apply NoDup_fmap_2; [|apply NoDup_seq].
  intros a b. lia.
Qed.

Lemma perm_lookup_range n (perm : list Z) (i : nat) :
  perm ≡ₚ iota n -> (i < n)%nat ->
  exists k, perm !! i = Some (Z.of_nat k) /\ (k < n)%nat.
Proof.
  intros Hp Hi.
  assert (Hlen : length perm = n) by (by rewrite Hp, iota_length).
  destruct (lookup_lt_is_Some_2 perm i) as [x Hx]; [lia|].
  assert (Hin : x ∈ iota n) by (rewrite <- Hp; by eapply list_elem_of_lookup_2).
  apply iota_elem in Hin. exists (Z.to_nat x).
  rewrite Z2Nat.id by lia. split; [done | lia].
Qed.

Lemma Less_Ok n ds (i j : nat) :
  dsValid n ds -> (i < n)%nat -> (j < n)%nat ->
  exists b, Less ds (Z.of_nat i) (Z.of_nat j) = Ok b.
Proof.
  intros [Hp He Hdir] Hi Hj.
  destruct Hdir as (dir & Hd & Hc); [lia|].
  destruct (perm_lookup_range n _ i Hp Hi) as (pi & Hpi & Hpin).
  destruct (perm_lookup_range n _ j Hp Hj) as (pj & Hpj & Hpjn).
  destruct (lookup_lt_is_Some_2 (dChildren dir) pi) as [ci Hci]; [lia|].
  destruct (lookup_lt_is_Some_2 (dChildren dir) pj) as [cj Hcj]; [lia|].
  destruct (lookup_lt_is_Some_2 (ncduSort.entries ds) pi) as [ei Hei]; [lia|].
  destruct (lookup_lt_is_Some_2 (ncduSort.entries ds) pj) as [ej Hej]; [lia|].
  simpl. unfold ncduSort.Less, AttrI. rewrite Hd.
  rewrite (index_of_nat _ _ _ Hpi); simpl.
  rewrite (index_of_nat _ _ _ Hci); simpl.
  rewrite (index_of_nat _ _ _ Hpj); simpl.
  rewrite (index_of_nat _ _ _ Hcj); simpl.
  rewrite (index_of_nat _ _ _ Hei); simpl.
  rewrite (index_of_nat _ _ _ Hej); simpl.
  eauto.
Qed.

Lemma Swap_Ok n ds (i j : nat) :
  dsValid n ds -> (i < n)%nat -> (j < n)%nat ->
  exists ds', Swap ds (Z.of_nat i) (Z.of_nat j) = Ok ds' /\ dsValid n ds' /\
    ncduSort.u ds' = ncduSort.u ds.
Proof.
  intros [Hp He Hd] Hi Hj.
  assert (Hlen : length (ncduSort.sortPerm ds) = n) by (by rewrite Hp, iota_length).
  destruct (swapSlots_Ok (ncduSort.sortPerm ds) i j) as (l' & Hs & Hl'); [lia..|].
  simpl. unfold ncduSort.Swap. rewrite Hs. simpl.
  eexists; split; [done|]. split; [|done].
  constructor; simpl; [by rewrite Hl' | done | done].
Qed.

Lemma insertionInner_Ok n ds (j : nat) :
  dsValid n ds -> (j < n)%nat ->
  exists ds', insertionInner j ds = Ok ds' /\ dsValid n ds' /\
    ncduSort.u ds' = ncduSort.u ds.
Proof.
  revert ds. induction j as [|j IH]; intros ds Hv Hj.
  - exists ds. done.
  - cbn [insertionInner].
    destruct (Less_Ok n ds (S j) j Hv) as [b Hb]; [lia..|].
    rewrite Hb. cbn [mbind Res_bind]. destruct b; [|by exists ds].
    destruct (Swap_Ok n ds (S j) j Hv) as (ds1 & Hs & Hv1 & Hu1); [lia..|].
    rewrite Hs. cbn [mbind Res_bind].
    destruct (IH ds1 Hv1) as (ds2 & H2 & Hv2 & Hu2); [lia|].
    exists ds2. split; [done|]. split; [done | congruence].
Qed.

Lemma insertionOuter_Ok n ds (todo : list nat) :
  dsValid n ds -> Forall (fun i => (i < n)%nat) todo ->
  exists ds', insertionOuter todo ds = Ok ds' /\ dsValid n ds' /\
    ncduSort.u ds' = ncduSort.u ds.
Proof.
  revert ds. induction todo as [|i todo IH]; intros ds Hv Hall.
  - exists ds. done.
  - inversion Hall as [|? ? Hi Hrest]; subst. cbn [insertionOuter].
    destruct (insertionInner_Ok n ds i Hv Hi) as (ds1 & H1 & Hv1 & Hu1).
    rewrite H1. cbn [mbind Res_bind].
    destruct (IH ds1 Hv1 Hrest) as (ds2 & H2 & Hv2 & Hu2).
    exists ds2. split; [done|]. split; [done | congruence].
Qed.

Lemma sort_Sort_Ok n ds :
  dsValid n ds ->
  exists ds', sort_Sort ds = Ok ds' /\ dsValid n ds' /\
    ncduSort.u ds' = ncduSort.u ds.
Proof.
  intros Hv. unfold sort_Sort. apply insertionOuter_Ok; [done|].
  assert (Hlen : length (ncduSort.sortPerm ds) = n)
    by (by rewrite (dsv_perm _ _ Hv), iota_length).
  apply Forall_forall. intros i Hi. apply elem_of_seq in Hi.
  simpl in Hi. unfold ncduSort.Len, len in Hi. lia.
Qed.

(** The outcome of the sort depends on the permutation, the entries, the
    node and the sort flags only. *)
Lemma lessAttrs_sameFlags u u' ia ja iname jname :
  sameFlags u u' ->
  ncduSort.lessAttrs u ia ja iname jname = ncduSort.lessAttrs u' ia ja iname jname.
Proof.
  intros (H1 & H2 & H3 & H4). unfold ncduSort.lessAttrs.
  by rewrite H1, H2, H3, H4.
Qed.

Lemma Less_dsSame ds ds' i j : dsSame ds ds' -> Less ds i j = Less ds' i j.
Proof.
  intros (Hp & He & Hd & Hf). simpl. unfold ncduSort.Less.
  rewrite Hp, He, Hd.
  destruct (index _ i) as [pi| |]; simpl; try done.
  destruct (AttrI _ pi) as [ia| |]; simpl; try done.
  destruct (index _ j) as [pj| |]; simpl; try done.
  destruct (AttrI _ pj) as [ja| |]; simpl; try done.
  destruct (index _ pi) as [ie| |]; simpl; try done.
  destruct (index _ pj) as [je| |]; simpl; try done.
  by rewrite (lessAttrs_sameFlags _ _ _ _ _ _ Hf).
Qed.

Lemma Swap_dsSame ds ds' i j r :
  dsSame ds ds' -> Swap ds i j = Ok r ->
  exists r', Swap ds' i j = Ok r' /\ dsSame r r'.
Proof.
  intros (Hp & He & Hd & Hf). simpl. unfold ncduSort.Swap.
  rewrite <- Hp. destruct (swapSlots _ i j) as [l| |]; simpl; try done.
  intros [= <-]. eexists; split; [done|]. unfold dsSame. simpl. auto.
Qed.

Lemma insertionInner_dsSame j : forall ds ds' r,
  dsSame ds ds' -> insertionInner j ds = Ok r ->
  exists r', insertionInner j ds' = Ok r' /\ dsSame r r'.
Proof.
  induction j as [|j IH]; intros ds ds' r Hs.
  - simpl. intros [= <-]. by exists ds'.
  - cbn [insertionInner]. rewrite <- (Less_dsSame _ _ _ _ Hs).
    destruct (Less ds _ _) as [[]| |]; cbn [mbind Res_bind]; try done.
    + intros Hr. apply bind_Ok in Hr as (ds1 & Hsw & Hr).
      destruct (Swap_dsSame _ _ _ _ _ Hs Hsw) as (ds1' & Hsw' & Hs1).
      rewrite Hsw'. cbn [mbind Res_bind]. by eapply IH.
    + intros [= <-]. by exists ds'.
Qed.

Lemma insertionOuter_dsSame todo : forall ds ds' r,
  dsSame ds ds' -> insertionOuter todo ds = Ok r ->
  exists r', insertionOuter todo ds' = Ok r' /\ dsSame r r'.
Proof.
  induction todo as [|i todo IH]; intros ds ds' r Hs.
  - simpl. intros [= <-]. by exists ds'.
  - cbn [insertionOuter]. intros Hr. apply bind_Ok in Hr as (ds1 & H1 & Hr).
    destruct (insertionInner_dsSame _ _ _ _ Hs H1) as (ds1' & H1' & Hs1).
    rewrite H1'. cbn [mbind Res_bind]. by eapply IH.
Qed.

Lemma sort_Sort_dsSame (ds ds' r : ncduSort.t) :
  dsSame ds ds' -> sort_Sort ds = Ok r ->
  exists r', sort_Sort ds' = Ok r' /\ dsSame r r'.
Proof.
  intros Hs. unfold sort_Sort. simpl. unfold ncduSort.Len.
  destruct Hs as (Hp & Hrest). rewrite <- Hp.
  apply insertionOuter_dsSame. by split.
Qed.

Lemma fillInv_Ok perm : forall inv i0,
  (forall j, j ∈ perm -> 0 <= j < len inv) ->
  exists inv', fillInv i0 perm inv = Ok inv' /\ length inv' = length inv /\
    (forall k : nat, Z.of_nat k ∉ perm -> inv' !! k = inv !! k) /\
    (NoDup perm -> forall (k : nat) j, perm !! k = Some j ->
       inv' !! Z.to_nat j = Some (i0 + Z.of_nat k)).
Proof.
  induction perm as [|j rest IH]; intros inv i0 Hr.
  - exists inv. repeat split; done.
  - cbn [fillInv].
    assert (Hj : 0 <= j < len inv) by (apply Hr; left).
    rewrite store_Ok by done. cbn [mbind Res_bind].
    destruct (IH (<[Z.to_nat j := i0]> inv) (i0 + 1)) as (inv' & Hf & Hl & Hframe & Hinv).
    { intros x Hx. unfold len. rewrite length_insert. apply Hr. by right. }
    exists inv'. split; [done|]. split; [by rewrite Hl, length_insert|]. split.
    + intros k Hk. rewrite Hframe.
      * apply list_lookup_insert_ne. intros Heq. apply Hk.
        replace (Z.of_nat k) with j by lia. left.
      * intros Hin. apply Hk. by right.
    + intros Hnd [|k] x Hk; simplify_eq/=.
      * apply NoDup_cons in Hnd as [Hnotin _].
        rewrite Hframe by (by rewrite Z2Nat.id by lia).
        rewrite list_lookup_insert_eq by (unfold len in Hj; lia).
        f_equal. lia.
      * apply NoDup_cons in Hnd as [_ Hnd].
        rewrite (Hinv Hnd k x Hk). f_equal. lia.
Qed.

Lemma fillInv_id perm : forall inv i0,
  (forall (k : nat) j, perm !! k = Some j ->
     0 <= j /\ inv !! Z.to_nat j = Some (i0 + Z.of_nat k)) ->
  fillInv i0 perm inv = Ok inv.
Proof.
  induction perm as [|j rest IH]; intros inv i0 Hinv; [done|].
  cbn [fillInv].
  destruct (Hinv 0%nat j eq_refl) as [Hj0 Hj].
  assert (Hlt : (Z.to_nat j < length inv)%nat) by (by eapply lookup_lt_Some).
  rewrite store_Ok by (unfold len; lia). cbn [mbind Res_bind].
  rewrite list_insert_id by (rewrite Hj; f_equal; lia).
  apply IH. intros k x Hk. destruct (Hinv (S k) x Hk) as [? Hx].
  split; [done|]. rewrite Hx. f_equal. lia.
Qed.

Lemma sortCurrentDir_unfold u :
  sortCurrentDir u =
  (data ← sort_Sort (sortData u);
   inv ← fillInv 0 (ncduSort.sortPerm data) (invStart u (ncduSort.sortPerm data));
   Ok (UI.set_invSortPerm inv (UI.set_sortPerm (ncduSort.sortPerm data) u))).
Proof.
  unfold sortCurrentDir, sortData, invStart, iota.
  destruct (sort_Sort _) as [data| |]; cbn [mbind Res_bind]; try done.
  cbn [UI.invSortPerm UI.set_sortPerm UI.sortPerm].
  destruct (_ <? _); reflexivity.
Qed.

Lemma sortData_valid u :
  consistent u -> dsValid (length (UI.entries u)) (sortData u).
Proof.
  intros Hc. constructor; simpl; [done | done |].
  intros Hn. unfold consistent in Hc. destruct (UI.d u) as [dir|].
  - exists dir. split; [done|]. rewrite Hc. unfold Entries.
    by rewrite length_fmap.
  - rewrite Hc in Hn. done.
Qed.

Lemma invStart_len u perm : len perm <= len (invStart u perm).
Proof.
  unfold invStart. destruct (Z.ltb_spec (len (UI.invSortPerm u)) (len perm)).
  - unfold len. rewrite length_replicate. lia.
  - lia.
Qed.

Lemma sortCurrentDir_Ok u :
  consistent u ->
  exists perm inv,
    sortCurrentDir u = Ok (UI.set_invSortPerm inv (UI.set_sortPerm perm u)) /\
    perm ≡ₚ iota (length (UI.entries u)) /\
    (length perm <= length inv)%nat /\
    (forall (k : nat) j, perm !! k = Some j ->
       inv !! Z.to_nat j = Some (Z.of_nat k)) /\
    (forall u2, UI.entries u2 = UI.entries u -> UI.d u2 = UI.d u ->
       sameFlags u u2 ->
       exists data2, sort_Sort (sortData u2) = Ok data2 /\
         ncduSort.sortPerm data2 = perm).
Proof.
  intros Hc. rewrite sortCurrentDir_unfold.
  destruct (sort_Sort_Ok _ _ (sortData_valid u Hc)) as (data & Hs & [Hp _ _] & _).
  rewrite Hs. cbn [mbind Res_bind].
  set (perm := ncduSort.sortPerm data) in *.
  assert (Hlen : length perm = length (UI.entries u)) by (by rewrite Hp, iota_length).
  destruct (fillInv_Ok perm (invStart u perm) 0) as (inv & Hf & Hli & _ & Hinv).
  { intros j Hj. rewrite Hp in Hj. apply iota_elem in Hj.
    pose proof (invStart_len u perm). unfold len in *. lia. }
  rewrite Hf. cbn [mbind Res_bind].
  exists perm, inv. split; [done|]. split; [done|]. split.
  { pose proof (invStart_len u perm). unfold len in *. lia. }
  split.
  - intros k j Hk. apply Hinv; [|done]. rewrite Hp. apply iota_NoDup.
  - intros u2 He Hd Hfl.
    destruct (sort_Sort_dsSame (sortData u) (sortData u2) data) as (data2 & H2 & Hsame);
      [|done|].
    + unfold dsSame, sortData. simpl. by rewrite He, Hd.
    + exists data2. split; [done|]. symmetry. apply Hsame.
Qed.

(** C7.  For a directory with n children and any sort configuration,
    [sortCurrentDir] completes; afterwards [sortPerm] has length n, holds
    no value twice and holds exactly the indices of [0, n) (a bijection on
    [0, n)); [invSortPerm[sortPerm[i]] = i] for every i in [0, n);
    recomputing from any state with the same children and sort flags
    gives the identical permutation, and recomputing on the result
    changes nothing. *)
Theorem sortCurrentDir_bijection u :
  consistent u ->
  exists u',
    sortCurrentDir u = Ok u' /\
    length (UI.sortPerm u') = length (UI.entries u) /\
    NoDup (UI.sortPerm u') /\
    (forall j, j ∈ UI.sortPerm u' <-> 0 <= j < len (UI.entries u)) /\
    (forall i, 0 <= i < len (UI.entries u) ->
       exists j, index (UI.sortPerm u') i = Ok j /\
                 index (UI.invSortPerm u') j = Ok i) /\
    (forall u2, consistent u2 ->
       UI.entries u2 = UI.entries u -> UI.d u2 = UI.d u -> sameFlags u u2 ->
       exists u2', sortCurrentDir u2 = Ok u2' /\
                   UI.sortPerm u2' = UI.sortPerm u') /\
    sortCurrentDir u' = Ok u'.
Proof.
  intros Hc.
  destruct (sortCurrentDir_Ok u Hc) as (perm & inv & Hs & Hp & Hl & Hinv & Hdet).
  eexists. split; [exact Hs|]. cbn [UI.sortPerm UI.invSortPerm UI.set_invSortPerm UI.set_sortPerm].
  assert (Hlen : length perm = length (UI.entries u)) by (by rewrite Hp, iota_length).
  assert (Hrange : forall (k : nat) j, perm !! k = Some j -> 0 <= j < len (UI.entries u)).
  { intros k j Hk. apply iota_elem. rewrite <- Hp. by eapply list_elem_of_lookup_2. }
  split; [done|]. split; [rewrite Hp; apply iota_NoDup|]. split.
  { intros j. rewrite Hp. apply iota_elem. }
  split.
  { intros i Hi. unfold len in Hi.
    destruct (lookup_lt_is_Some_2 perm (Z.to_nat i)) as [j Hj]; [lia|].
    exists j. split.
    - apply index_Ok. split; [lia | done].
    - apply index_Ok. split; [apply (Hrange _ _ Hj)|].
      rewrite (Hinv _ _ Hj). f_equal. lia. }
  split.
  { intros u2 Hc2 He Hd Hfl.
    destruct (Hdet u2 He Hd Hfl) as (data2 & H2 & Hp2).
    destruct (sortCurrentDir_Ok u2 Hc2) as (perm2 & inv2 & Hs2 & _).
    rewrite Hs2. eexists. split; [done|]. simpl.
    rewrite sortCurrentDir_unfold, H2 in Hs2. cbn [mbind Res_bind] in Hs2.
    destruct (fillInv _ _ _); cbn [mbind Res_bind] in Hs2; try done.
    apply (f_equal (fun r => match r with Ok x => UI.sortPerm x | _ => [] end))
      in Hs2.
    simpl in Hs2. congruence. }
  set (u' := UI.set_invSortPerm inv (UI.set_sortPerm perm u)).
  destruct (Hdet u') as (data2 & H2 & Hp2); [done | done | by repeat split |].
  rewrite sortCurrentDir_unfold, H2. cbn [mbind Res_bind]. rewrite Hp2.
  assert (Hstart : invStart u' perm = inv).
  { unfold invStart. simpl. destruct (Z.ltb_spec (len inv) (len perm)); [|done].
    unfold len in *. lia. }
  rewrite Hstart, fillInv_id; [done|].
  intros k j Hk. split; [apply (Hrange _ _ Hk)|]. rewrite (Hinv _ _ Hk). f_equal.
Qed.

(** ** What each operation leaves untouched *)

Lemma sameFlags_refl u : sameFlags u u.
Proof. by repeat split. Qed.

Lemma sameFlags_trans u1 u2 u3 :
  sameFlags u1 u2 -> sameFlags u2 u3 -> sameFlags u1 u3.
Proof. unfold sameFlags. intuition congruence. Qed.

Lemma stable_refl u : stable u u.
Proof. unfold stable. auto using sameFlags_refl. Qed.

Lemma stable_trans u1 u2 u3 : stable u1 u2 -> stable u2 u3 -> stable u1 u3.
Proof.
  unfold stable. intros (?&?&?&?&?) (?&?&?&?&?).
  repeat split; try congruence; eapply sameFlags_trans; eauto.
Qed.

Ltac stable_now := unfold stable, sameFlags; simpl; tauto.

Lemma sortCurrentDir_shape u u' :
  sortCurrentDir u = Ok u' ->
  exists perm inv, u' = UI.set_invSortPerm inv (UI.set_sortPerm perm u).
Proof. rewrite sortCurrentDir_unfold. intros H. res_inv. subst. eauto. Qed.

Lemma sortCurrentDir_stable u u' : sortCurrentDir u = Ok u' -> stable u u'.
Proof. intros H. apply sortCurrentDir_shape in H as (? & ? & ->). stable_now. Qed.

Lemma toggleSelectForCursor_stable u u' :
  toggleSelectForCursor u = Ok u' -> stable u u'.
Proof. unfold toggleSelectForCursor. intros H. res_inv; subst; stable_now. Qed.

Lemma move_stable delta u u' : move delta u = Ok u' -> stable u u'.
Proof.
  unfold move. intros H. destruct (UI.d u) eqn:Hd; res_inv; subst; try apply stable_refl.
  - apply toggleSelectForCursor_stable in H0.
    eapply stable_trans; [exact H0 | stable_now].
  - stable_now.
Qed.

Lemma moveBox_stable to u : stable u (moveBox to u).
Proof. unfold moveBox. destruct (_ =? _); [apply stable_refl | stable_now]. Qed.

Lemma popupBox_stable text u : stable u (popupBox text u).
Proof. stable_now. Qed.

Lemma togglePopupBox_stable text u : stable u (togglePopupBox text u).
Proof. unfold togglePopupBox. destruct (_ && _); stable_now. Qed.

Lemma deleteSingle_stable u u' : deleteSingle u = Ok u' -> stable u u'.
Proof. unfold deleteSingle. intros H. res_inv; subst; stable_now. Qed.

Lemma deleteSelected_stable u : stable u (deleteSelected u).
Proof. stable_now. Qed.

Lemma delete_stable u u' : delete_ u = Ok u' -> stable u u'.
Proof.
  unfold delete_. intros H. res_inv; subst; try apply stable_refl.
  - apply deleteSelected_stable.
  - by apply deleteSingle_stable.
Qed.

Lemma Draw_stable h u u' : Draw h u = Ok u' -> stable u u'.
Proof. unfold Draw. intros H. simpl in H. res_inv; subst; stable_now. Qed.

Lemma stable_retargets u u' : stable u u' -> retargets u u'.
Proof.
  intros (Hd & He & _ & Hn & Hf). split; [|done].
  unfold consistent. by rewrite Hd, He.
Qed.

Lemma retargets_refl u : retargets u u.
Proof. apply stable_retargets, stable_refl. Qed.

Lemma retargets_trans u1 u2 u3 :
  retargets u1 u2 -> retargets u2 u3 -> retargets u1 u3.
Proof.
  intros (?&?&?) (?&?&?). split; [tauto|]. split; [congruence|].
  eapply sameFlags_trans; eauto.
Qed.

Lemma setCurrentDir_shape dir u u' :
  setCurrentDir dir u = Ok u' ->
  exists perm inv,
    u' = UI.set_invSortPerm inv (UI.set_sortPerm perm
           (UI.set_visualSelectMode false (UI.set_selectedEntries ∅
             (UI.set_path (JoinRootPath (UI.fsName u) (dPath dir))
               (UI.set_entries (Entries dir) (UI.set_d (Some dir) u)))))).
Proof. unfold setCurrentDir. intros H. by apply sortCurrentDir_shape in H. Qed.

Lemma setCurrentDir_retargets dir u u' :
  setCurrentDir dir u = Ok u' -> retargets u u'.
Proof.
  intros H. apply setCurrentDir_shape in H as (? & ? & ->).
  split; [|stable_now]. intros _. reflexivity.
Qed.

Lemma removeEntry_retargets pos u u' :
  removeEntry pos u = Ok u' -> retargets u u'.
Proof.
  unfold removeEntry. intros H. res_inv. by eapply setCurrentDir_retargets.
Qed.

(** The operations that consult the environment. *)
Section WithEnv.
Context (env : Env).

Lemma enter_retargets u u' : enter env u = Ok u' -> retargets u u'.
Proof.
  unfold enter. intros H. res_inv; subst; try apply retargets_refl.
  by eapply setCurrentDir_retargets.
Qed.

Lemma up_retargets u u' : up env u = Ok u' -> retargets u u'.
Proof.
  unfold up. intros H. res_inv; subst; try apply retargets_refl.
  by eapply setCurrentDir_retargets.
Qed.

Lemma backendCall_stable op u u' e :
  backendCall env op u = (u', e) -> stable u u'.
Proof.
  unfold backendCall. destruct (opErr _ _ _); intros [= <- <-];
    [apply stable_refl | stable_now].
Qed.

Lemma singleHandler_retargets op done cursorPos pos o u u' r :
  singleHandler env op done cursorPos pos o u = Ok (u', r) -> retargets u u'.
Proof.
  unfold singleHandler. intros H.
  destruct (negb _); [res_inv; simplify_eq; apply retargets_refl|].
  destruct (backendCall _ _ _) as [u1 [e|]] eqn:Hb;
    apply backendCall_stable, stable_retargets in Hb.
  - res_inv. by simplify_eq.
  - res_inv; simplify_eq.
    + apply removeEntry_retargets in H0. apply move_stable, stable_retargets in H1.
      eauto using retargets_trans.
    + apply removeEntry_retargets in H0. eauto using retargets_trans.
Qed.

Lemma deleteSelectedLoop_stable ord : forall i ps u u' ps' e,
  deleteSelectedLoop env ord i ps u = Ok (u', ps', e) -> stable u u'.
Proof.
  induction ord as [|[key cursorPos] rest IH]; intros i ps u u' ps' e H.
  - simpl in H. simplify_eq. apply stable_refl.
  - cbn [deleteSelectedLoop] in H.
    apply bind_Ok in H as (pos & _ & H). apply bind_Ok in H as (dirEntry & _ & H).
    destruct (backendCall _ _ _) as [u1 [err|]] eqn:Hb;
      apply backendCall_stable in Hb.
    + by simplify_eq.
    + apply bind_Ok in H as (ps1 & _ & H). apply IH in H.
      eapply stable_trans; [exact Hb|]. eapply stable_trans; [|exact H].
      stable_now.
Qed.

Lemma removeEntries_retargets ps : forall u u',
  removeEntries ps u = Ok u' -> retargets u u'.
Proof.
  induction ps as [|p ps IH]; intros u u' H.
  - simpl in H. simplify_eq. apply retargets_refl.
  - cbn [removeEntries] in H. apply bind_Ok in H as (u1 & H1 & H).
    apply removeEntry_retargets in H1. apply IH in H.
    eauto using retargets_trans.
Qed.

Lemma selectedHandler_retargets o u u' r :
  selectedHandler env o u = Ok (u', r) -> retargets u u'.
Proof.
  unfold selectedHandler. intros H.
  destruct (negb _); [simplify_eq; apply retargets_refl|].
  apply bind_Ok in H as ([[u1 ps] e] & Hl & H).
  apply deleteSelectedLoop_stable, stable_retargets in Hl.
  destruct e; [by simplify_eq|].
  apply bind_Ok in H as (ps' & _ & H). apply bind_Ok in H as (u2 & Hr & H).
  apply removeEntries_retargets in Hr.
  apply bind_Ok in H as (u3 & Hm & H). simplify_eq.
  assert (retargets u2 u') as Hm'.
  { destruct (_ >=? _); [by apply stable_retargets, (move_stable (-1))|].
    simplify_eq. apply retargets_refl. }
  eauto using retargets_trans.
Qed.

Lemma callHandler_retargets h o u u' r :
  callHandler env h o u = Ok (u', r) -> retargets u u'.
Proof.
  destruct h; simpl; eauto using singleHandler_retargets, selectedHandler_retargets.
Qed.

Lemma handleBoxOption_retargets u u' :
  handleBoxOption env u = Ok u' -> retargets u u'.
Proof.
  unfold handleBoxOption. intros H.
  destruct (UI.boxMenuHandler u) as [h|]; [|done].
  apply bind_Ok in H as ([u1 [msg err]] & Hc & H).
  apply callHandler_retargets in Hc.
  eapply retargets_trans; [exact Hc|].
  destruct err; simplify_eq; apply stable_retargets; stable_now.
Qed.

End WithEnv.

Lemma toggleSort_Ok s u :
  consistent u ->
  exists u', toggleSort s u = Ok u' /\ consistent u' /\
    UI.fsName u' = UI.fsName u /\
    getSort s u' = (if getSort s u =? 0 then 1 else wrap8 (- getSort s u)) /\
    (forall s', s' <> s -> getSort s' u' = 0).
Proof.
  intros Hc. unfold toggleSort.
  match goal with |- exists _, sortCurrentDir ?x = _ /\ _ => set (u1 := x) end.
  assert (Hc1 : consistent u1).
  { subst u1. unfold consistent in *. destruct (_ =? _), s; exact Hc. }
  destruct (sortCurrentDir_Ok u1 Hc1) as (perm & inv & Hs & _).
  rewrite Hs. eexists. split; [done|].
  split; [exact Hc1|]. split.
  { subst u1. destruct (_ =? _), s; reflexivity. }
  split.
  - subst u1. destruct (_ =? _), s; reflexivity.
  - intros s' Hne. subst u1. destruct (_ =? _), s, s'; try done.
Qed.

(** ** Sort keys *)

Lemma sameFlags_getSort u u' s : sameFlags u u' -> getSort s u' = getSort s u.
Proof. intros (?&?&?&?). destruct s; simpl; congruence. Qed.

Lemma oneActive_sameFlags u u' : sameFlags u u' -> oneActive u -> oneActive u'.
Proof.
  intros Hf (s & Hs & Ho). exists s.
  rewrite (sameFlags_getSort _ _ s Hf). split; [done|].
  intros s' Hne. rewrite (sameFlags_getSort _ _ s' Hf). auto.
Qed.

(** What a key press does to the directory shown and to the sort flags. *)
Create HintDb frame discriminated.
#[local] Hint Resolve retargets_refl stable_retargets move_stable
  moveBox_stable up_retargets enter_retargets handleBoxOption_retargets
  toggleSelectForCursor_stable delete_stable deleteSelected_stable
  togglePopupBox_stable : frame.

Lemma key_effect env k u u' :
  key env k u = Ok u' ->
  retargets u u' \/ exists s, toggleSort s u = Ok u'.
Proof.
  destruct k; simpl; intros H; res_inv; subst; eauto with frame.
  all: left; apply stable_retargets; stable_now.
Qed.

Lemma toggleSort_oneActive s u u' :
  consistent u -> oneActive u -> toggleSort s u = Ok u' ->
  consistent u' /\ oneActive u' /\
  getSort s u' = (if getSort s u =? 0 then 1 else - getSort s u) /\
  (forall s', s' <> s -> getSort s' u' = 0).
Proof.
  intros Hc (a & Ha & Hz) Ht.
  destruct (toggleSort_Ok s u Hc) as (u1 & Ht1 & Hc1 & _ & Hs & Ho).
  rewrite Ht in Ht1. simplify_eq.
  assert (Hval : getSort s u1 = (if getSort s u =? 0 then 1 else - getSort s u)).
  { rewrite Hs. destruct (decide (s = a)) as [->|Hne].
    - destruct Ha as [-> | ->]; reflexivity.
    - by rewrite (Hz s Hne). }
  split; [done|]. split; [|done].
  exists s. split; [|done]. rewrite Hval.
  destruct (decide (s = a)) as [->|Hne].
  - destruct Ha as [-> | ->]; simpl; auto.
  - rewrite (Hz s Hne). simpl. auto.
Qed.

Lemma iteration_invariant env h ev u u' :
  iteration env h ev u = Ok u' ->
  consistent u /\ oneActive u -> consistent u' /\ oneActive u'.
Proof.
  unfold iteration. intros H [Hc Ho].
  apply bind_Ok in H as (u1 & Hd & H).
  apply Draw_stable, stable_retargets in Hd. destruct Hd as (Hc1 & _ & Hf1).
  specialize (Hc1 Hc). apply (oneActive_sameFlags _ _ Hf1) in Ho.
  assert (Hret : retargets u1 u' -> consistent u' /\ oneActive u').
  { intros (Hc' & _ & Hf'). split; [auto | by eapply oneActive_sameFlags]. }
  destruct ev as [root| [err|] | | k].
  - by apply Hret, setCurrentDir_retargets with root.
  - done.
  - simplify_eq. apply Hret, stable_retargets. stable_now.
  - by apply Hret, stable_retargets, sortCurrentDir_stable.
  - apply key_effect in H as [Hr | [s Hs]]; [by apply Hret|].
    destruct (toggleSort_oneActive s u1 u' Hc1 Ho Hs) as (? & ? & _). done.
Qed.

Lemma reachable_invariant env fsName u :
  reachable env fsName u -> consistent u /\ oneActive u.
Proof.
  induction 1 as [|u h ev u' _ IH Hstep].
  - split; [reflexivity|]. exists BySize. split; [by left|].
    intros []; done.
  - by eapply iteration_invariant.
Qed.

(** In every state of the main loop the listing held is the node's, so
    that [sortCurrentDir] applies (see [sortCurrentDir_Ok]). *)
Lemma reachable_consistent env fsName u :
  reachable env fsName u -> consistent u.
Proof. intros Hr. by destruct (reachable_invariant _ _ _ Hr). Qed.

(** *** The comparator *)
Lemma ltb_total (a b : string) :
  a <> b -> String.ltb a b = negb (String.ltb b a).
Proof.
  intros Hne. unfold String.ltb. rewrite (String.compare_antisym b a).
  destruct (String.compare a b) eqn:E; try done.
  by apply String.compare_eq_iff in E.
Qed.

(** Under the average size [Less] returns from inside the [switch] in
    every case, and never reaches [return iname < jname]: two entries
    that tie on the average size and on the size are not ordered,
    whatever their names. *)
Lemma lessAttrs_average_size_tie u ia ja iname jname :
  selectedKey u = Some ByAverageSize ->
  PrimFloat.eqb (ncduSort.avgSize ia) (ncduSort.avgSize ja) = true ->
  Size ia = Size ja ->
  ncduSort.lessAttrs u ia ja iname jname = false.
Proof.
  unfold selectedKey, ncduSort.lessAttrs. intros Hk Ha Hs.
  destruct (Z.eqb_spec (UI.sortByName u) 0) as [Hn|]; simpl in Hk; [|done].
  destruct (Z.eqb_spec (UI.sortBySize u) 0) as [Hz|]; simpl in Hk; [|done].
  destruct (Z.eqb_spec (UI.sortByCount u) 0) as [Hc|]; simpl in Hk; [|done].
  destruct (Z.eqb_spec (UI.sortByAverageSize u) 0) as [|Hne]; simpl in Hk; [done|].
  rewrite Hn, Hz, Hc, Ha, Hs, !Z.ltb_irrefl. simpl.
  destruct (UI.sortByAverageSize u <? 0) eqn:Hlt; [done|].
  destruct (0 <? UI.sortByAverageSize u) eqn:Hgt; [done|].
  apply Z.ltb_ge in Hlt, Hgt. lia.
Qed.

(** ** ViewportTracker *)

Lemma cursor_insert u p :
  cursor (UI.set_dirPosMap (<[UI.path u := p]> (UI.dirPosMap u)) u) = p.
Proof. unfold cursor, lookupPos. simpl. by rewrite lookup_insert_eq. Qed.

Ltac cmp_cases :=
  repeat first
    [ match goal with
      | |- context [wrap64 ?z] =>
          lazymatch z with context [wrap64] => fail | _ => idtac end;
          rewrite (wrap64_small z) by lia
      end
    | match goal with
      | |- context [?a <? ?b] =>
          lazymatch a with context [if _ then _ else _] => fail | _ => idtac end;
          lazymatch b with context [if _ then _ else _] => fail | _ => idtac end;
          lazymatch a with context [wrap64] => fail | _ => idtac end;
          lazymatch b with context [wrap64] => fail | _ => idtac end;
          destruct (Z.ltb_spec a b)
      | |- context [?a >=? ?b] =>
          lazymatch a with context [if _ then _ else _] => fail | _ => idtac end;
          lazymatch b with context [if _ then _ else _] => fail | _ => idtac end;
          lazymatch a with context [wrap64] => fail | _ => idtac end;
          lazymatch b with context [wrap64] => fail | _ => idtac end;
          rewrite (Z.geb_leb a b); destruct (Z.leb_spec b a)
      | |- context [?a =? ?b] =>
          lazymatch a with context [if _ then _ else _] => fail | _ => idtac end;
          destruct (Z.eqb_spec a b)
      end; cbn [orb andb negb] ].

Lemma move_viewport delta u :
  let n := len (UI.entries u) in
  let h := UI.dirListHeight u in
  UI.d u <> None -> UI.visualSelectMode u = false ->
  0 < n < 2 ^ 62 -> 0 < h -> - 2 ^ 62 <= delta <= 2 ^ 62 ->
  viewportOk n h (cursor u) ->
  exists u', move delta u = Ok u' /\ viewportOk n h (cursor u') /\
    entry (cursor u') = Z.max 0 (Z.min (n - 1) (entry (cursor u) + delta)).
Proof.
  intros n h Hd Hv Hn Hh Hdelta (He & Ho & Hp).
  unfold move. destruct (UI.d u); [|done]. rewrite Hv. cbn [mbind Res_bind].
  eexists. split; [reflexivity|]. rewrite cursor_insert.
  unfold viewportOk. cbn [entry offset]. fold (cursor u). fold n. fold h.
  cmp_cases; lia.
Qed.

(** C6, as amended.  In visual select mode, on a directory whose stored
    cursor resolves to an entry, every [move] toggles that entry, the one
    under the cursor as stored before the move, into or out of the
    selection, with the viewport stored before the move as its snapshot;
    this holds for every delta, page jumps included. *)
Theorem move_visual_toggles_stored_cursor delta u pos e :
  UI.d u <> None -> UI.visualSelectMode u = true ->
  index (UI.sortPerm u) (entry (cursor u)) = Ok pos ->
  index (UI.entries u) pos = Ok e ->
  exists u', move delta u = Ok u' /\
    UI.selectedEntries u' =
      match UI.selectedEntries u !! String_ e with
      | Some _ => delete (String_ e) (UI.selectedEntries u)
      | None => <[String_ e := cursor u]> (UI.selectedEntries u)
      end.
Proof.
  intros Hd Hv Hpos He. unfold move. destruct (UI.d u); [|done].
  rewrite Hv. unfold toggleSelectForCursor. fold (cursor u).
  rewrite Hpos. cbn [mbind Res_bind]. rewrite He. cbn [mbind Res_bind].
  destruct (UI.selectedEntries u !! String_ e); cbn [mbind Res_bind];
    eexists; (split; [reflexivity|]); reflexivity.
Qed.

Lemma move_plain delta u :
  UI.d u <> None -> UI.visualSelectMode u = false ->
  exists p, move delta u =
    Ok (UI.set_dirPosMap (<[UI.path u := p]> (UI.dirPosMap u)) u).
Proof.
  intros Hd Hv. unfold move. destruct (UI.d u); [|done]. rewrite Hv.
  cbn [mbind Res_bind]. eauto.
Qed.

(** X22.  In a directory with children, shown on at least one row, every
    sequence of moves outside visual select mode keeps the stored
    viewport valid: the cursor on a row, the offset not past the cursor,
    the cursor on the screen. *)
Lemma moves_viewport deltas : forall u,
  let n := len (UI.entries u) in
  let h := UI.dirListHeight u in
  UI.d u <> None -> UI.visualSelectMode u = false ->
  0 < n < 2 ^ 62 -> 0 < h ->
  Forall (fun delta => - 2 ^ 62 <= delta <= 2 ^ 62) deltas ->
  viewportOk n h (cursor u) ->
  exists u', moves deltas u = Ok u' /\ viewportOk n h (cursor u').
Proof.
  induction deltas as [|delta rest IH]; intros u n h Hd Hv Hn Hh Hall Hok.
  - by exists u.
  - apply Forall_cons in Hall as [Hdelta Hall]. cbn [moves].
    destruct (move_viewport delta u Hd Hv Hn Hh Hdelta Hok) as (u1 & Hm & Hok1 & _).
    rewrite Hm. cbn [mbind Res_bind].
    destruct (move_plain delta u Hd Hv) as (p & Hp).
    rewrite Hp in Hm. apply (inj Ok) in Hm. subst u1.
    by apply IH.
Qed.

(** Without a permutation to read, toggling the selection panics. *)
Lemma toggleSelectForCursor_empty u :
  UI.sortPerm u = [] -> exists why, toggleSelectForCursor u = Panic why.
Proof.
  intros Hp. unfold toggleSelectForCursor, index. rewrite Hp.
  destruct (0 <=? _); eexists; reflexivity.
Qed.

(** With the stored cursor on a row of the listing, toggling the
    selection completes. *)
Lemma toggleSelectForCursor_Ok u :
  UI.sortPerm u ≡ₚ iota (length (UI.entries u)) ->
  0 <= entry (cursor u) < len (UI.entries u) ->
  exists u', toggleSelectForCursor u = Ok u'.
Proof.
  intros Hp Hc.
  destruct (perm_lookup_range _ _ (Z.to_nat (entry (cursor u))) Hp)
    as (k & Hk & Hkn); [unfold len in Hc; lia|].
  destruct (lookup_lt_is_Some_2 (UI.entries u) k Hkn) as [e He].
  unfold toggleSelectForCursor. fold (cursor u).
  assert (Hi : index (UI.sortPerm u) (entry (cursor u)) = Ok (Z.of_nat k))
    by (apply index_Ok; split; [lia | done]).
  rewrite Hi. cbn [mbind Res_bind].
  rewrite (index_of_nat _ _ _ He). cbn [mbind Res_bind].
  destruct (UI.selectedEntries u !! String_ e); eexists; reflexivity.
Qed.

(** ** Single delete, confirmed at once *)

Lemma Entries_length dir : length (Entries dir) = length (dChildren dir).
Proof. unfold Entries. by rewrite length_fmap. Qed.

Lemma Entries_without pos dir :
  Entries (without pos dir) = delete (Z.to_nat pos) (Entries dir).
Proof. unfold Entries, without. simpl. by rewrite list_fmap_delete. Qed.

Lemma removeEntry_Ok pos u dir :
  UI.d u = Some dir -> 0 <= pos < len (dChildren dir) ->
  exists perm inv,
    removeEntry pos u =
      Ok (UI.set_invSortPerm inv (UI.set_sortPerm perm
           (UI.set_visualSelectMode false (UI.set_selectedEntries ∅
             (UI.set_path (JoinRootPath (UI.fsName u) (dPath dir))
               (UI.set_entries (Entries (without pos dir))
                 (UI.set_d (Some (without pos dir)) u))))))) /\
    perm ≡ₚ iota (length (Entries (without pos dir))).
Proof.
  intros Hd Hpos. unfold removeEntry, Remove. rewrite Hd.
  destruct (Z.leb_spec 0 pos); [|lia].
  destruct (Z.ltb_spec pos (len (dChildren dir))); [|lia].
  cbn [andb mbind Res_bind]. fold (without pos dir). unfold setCurrentDir.
  match goal with |- exists _ _, sortCurrentDir ?x = _ /\ _ => set (u1 := x) end.
  destruct (sortCurrentDir_Ok u1) as (perm & inv & Hs & Hp & _); [reflexivity|].
  exists perm, inv. split; [exact Hs | exact Hp].
Qed.

Lemma moveBox_right u :
  UI.boxMenu u = ["cancel"; "confirm"] -> 0 <= UI.boxMenuButton u < 2 ^ 62 ->
  moveBox 1 u = UI.set_boxMenuButton 1 u.
Proof.
  intros Hm Hb. unfold moveBox. rewrite Hm. simpl.
  rewrite wrap64_small by lia.
  change (len ["cancel"; "confirm"]) with 2.
  rewrite Z.geb_leb.
  destruct (Z.leb_spec 2 (UI.boxMenuButton u + 1)); [reflexivity|].
  destruct (Z.ltb_spec (UI.boxMenuButton u + 1) 0); [lia|].
  f_equal. lia.
Qed.

(** One step back from any stored cursor, in range or past the end, lands
    on a valid viewport. *)
Lemma move_back u :
  let n := len (UI.entries u) in
  let h := UI.dirListHeight u in
  UI.d u <> None -> UI.visualSelectMode u = false ->
  0 <= n < 2 ^ 62 -> 0 < h ->
  0 <= offset (cursor u) <= entry (cursor u) ->
  entry (cursor u) - offset (cursor u) < h -> entry (cursor u) < 2 ^ 62 ->
  exists u', move (-1) u = Ok u' /\ stable u u' /\
    UI.f u' = UI.f u /\ UI.selectedEntries u' = UI.selectedEntries u /\
    if n =? 0 then
      cursor u' = {| entry := (if entry (cursor u) =? 0 then 0 else -1);
                     offset := 0 |}
    else viewportOk n h (cursor u').
Proof.
  intros n h Hd Hv Hn Hh Ho Hp He.
  unfold move. destruct (UI.d u) eqn:Ed; [|done]. rewrite Hv. cbn [mbind Res_bind].
  eexists. split; [reflexivity|]. split; [unfold stable, sameFlags; simpl; tauto|].
  split; [reflexivity|]. split; [reflexivity|].
  rewrite cursor_insert. fold (cursor u). fold n. fold h.
  change (-1 <? 0) with true. cbv iota.
  destruct (Z.eqb_spec n 0) as [Hz|Hz].
  - rewrite Hz. f_equal; cmp_cases; lia.
  - unfold viewportOk. cbn [entry offset]. cmp_cases; lia.
Qed.

Lemma singleHandler_confirmed env op done u dir pos :
  let n := len (UI.entries u) in
  let h := UI.dirListHeight u in
  UI.d u = Some dir -> UI.entries u = Entries dir ->
  UI.path u = JoinRootPath (UI.fsName u) (dPath dir) ->
  0 <= pos < n -> n < 2 ^ 62 -> 0 < h -> viewportOk n h (cursor u) ->
  opErr env (UI.f u) op = None ->
  exists u',
    singleHandler env op done (cursor u) pos 1 u = Ok (u', (done, None)) /\
    UI.f u' = (UI.f u ++ [op])%list /\
    UI.d u' = Some (without pos dir) /\
    UI.entries u' = delete (Z.to_nat pos) (UI.entries u) /\
    (if n =? 1 then cursor u' = {| entry := 0; offset := 0 |}
     else viewportOk (n - 1) h (cursor u')).
Proof.
  intros n h Hd He Hpath Hpos Hn Hh (Hce & Hco & Hcp) Hop.
  unfold singleHandler, backendCall. rewrite Hop. cbn [negb Z.eqb Pos.eqb].
  assert (Hlen : len (dChildren dir) = n).
  { subst n. unfold len. by rewrite He, Entries_length. }
  destruct (removeEntry_Ok pos (UI.set_f (UI.f u ++ [op]) u) dir)
    as (perm & inv & Hr & Hp); [done | lia |].
  rewrite Hr. cbn [mbind Res_bind]. clear Hr.
  match goal with |- context [Z.geb _ (len (UI.entries ?x))] => set (u1 := x) end.
  assert (Hc1 : cursor u1 = cursor u).
  { unfold cursor.
    change (UI.path u1) with (JoinRootPath (UI.fsName u) (dPath dir)).
    change (UI.dirPosMap u1) with (UI.dirPosMap u). by rewrite <- Hpath. }
  assert (Hn1 : len (UI.entries u1) = n - 1).
  { change (UI.entries u1) with (Entries (without pos dir)).
    rewrite Entries_without. unfold len.
    rewrite length_delete, Entries_length.
    - unfold len in Hlen. lia.
    - apply lookup_lt_is_Some_2. rewrite Entries_length. unfold len in Hlen. lia. }
  assert (He1 : UI.entries u1 = delete (Z.to_nat pos) (UI.entries u)).
  { change (UI.entries u1) with (Entries (without pos dir)).
    by rewrite Entries_without, He. }
  rewrite Hn1, Z.geb_leb.
  destruct (Z.leb_spec (n - 1) (entry (cursor u))) as [Hlast|Hnot].
  - destruct (move_back u1) as (u2 & Hm & Hst & Hf & _ & Hcur);
      rewrite ?Hc1, ?Hn1; try done; try lia.
    rewrite Hm. cbn [mbind Res_bind]. exists u2.
    destruct Hst as (Hd2 & He2 & _).
    split; [done|]. split; [by rewrite Hf|]. split; [by rewrite Hd2|].
    split; [by rewrite He2|].
    rewrite Hn1, Hc1 in Hcur.
    destruct (Z.eqb_spec n 1) as [->|Hne].
    + simpl in Hcur. replace (entry (cursor u)) with 0 in Hcur by lia. done.
    + destruct (Z.eqb_spec (n - 1) 0); [lia | done].
  - cbn [mbind Res_bind]. exists u1.
    split; [done|]. split; [done|]. split; [done|]. split; [done|].
    destruct (Z.eqb_spec n 1); [lia|].
    rewrite Hc1. unfold viewportOk. lia.
Qed.

(** X23.  The direct flow of a single delete: 'd', then right, then
    enter, with nothing in between and a backend that accepts the call.
    The entry under the cursor is deleted on the backend (a file) or
    purged (a directory), exactly this child is removed from the tree and
    the listing, the menu is cleared, and the cursor is valid for the
    rows that are left. *)
Lemma deleteSingle_confirmed env u dir :
  let n := len (UI.entries u) in
  let h := UI.dirListHeight u in
  UI.d u = Some dir -> UI.entries u = Entries dir ->
  UI.path u = JoinRootPath (UI.fsName u) (dPath dir) ->
  UI.sortPerm u ≡ₚ iota (length (UI.entries u)) ->
  n < 2 ^ 62 -> 0 < h -> viewportOk n h (cursor u) ->
  0 <= UI.boxMenuButton u < 2 ^ 62 ->
  (forall op, opErr env (UI.f u) op = None) ->
  exists pos e u1 u2,
    index (UI.sortPerm u) (entry (cursor u)) = Ok pos /\
    index (UI.entries u) pos = Ok e /\
    deleteSingle u = Ok u1 /\
    handleBoxOption env (moveBox 1 u1) = Ok u2 /\
    UI.f u2 =
      (UI.f u ++ [if isObject e then DeleteFile e
                  else Purge (String_ e)])%list /\
    UI.d u2 = Some (without pos dir) /\
    UI.entries u2 = delete (Z.to_nat pos) (UI.entries u) /\
    UI.boxMenu u2 = [] /\ UI.boxMenuHandler u2 = None /\
    (if n =? 1 then cursor u2 = {| entry := 0; offset := 0 |}
     else viewportOk (n - 1) h (cursor u2)).
Proof.
  intros n h Hd He Hpath Hperm Hn Hh Hv Hb Hop.
  pose proof Hv as (Hce & _).
  destruct (perm_lookup_range _ _ (Z.to_nat (entry (cursor u))) Hperm)
    as (k & Hk & Hkn); [unfold n, len in Hce; lia|].
  destruct (lookup_lt_is_Some_2 (UI.entries u) k Hkn) as [e Hek].
  assert (Hi1 : index (UI.sortPerm u) (entry (cursor u)) = Ok (Z.of_nat k)).
  { apply index_Ok. split; [lia | done]. }
  assert (Hi2 : index (UI.entries u) (Z.of_nat k) = Ok e)
    by (by apply index_of_nat).
  exists (Z.of_nat k), e.
  set (op := if isObject e then DeleteFile e else Purge (String_ e)).
  set (hd := if isObject e
             then deleteFileHandler (cursor u) (Z.of_nat k) e
             else purgeHandler (cursor u) (Z.of_nat k) e).
  set (text := if isObject e
               then ["Delete this file?";
                     JoinRootPath (UI.fsName u) (String_ e)]
               else ["Purge this directory?";
                     "ALL files in it will be deleted";
                     JoinRootPath (UI.fsName u) (String_ e)]).
  set (u1 := popupBox text (UI.set_boxMenuHandler (Some hd)
               (UI.set_boxMenu ["cancel"; "confirm"] u))).
  assert (H1 : deleteSingle u = Ok u1).
  { unfold deleteSingle. fold (cursor u). rewrite Hi1. cbn [mbind Res_bind].
    rewrite Hi2. cbn [mbind Res_bind]. subst u1 hd text.
    destruct (isObject e); reflexivity. }
  assert (Hmb : moveBox 1 u1 = UI.set_boxMenuButton 1 u1)
    by (apply moveBox_right; subst u1; simpl; done).
  set (u1' := UI.set_boxMenuButton 1 u1) in *.
  assert (Hkn' : 0 <= Z.of_nat k < n) by (unfold n, len; lia).
  destruct (singleHandler_confirmed env op
              (if isObject e then "Successfully deleted file!"
               else "Successfully purged folder!") u1' dir (Z.of_nat k)
              Hd He Hpath Hkn' Hn Hh Hv (Hop op))
    as (u2 & Hh2 & Hf2 & Hd2 & He2 & Hc2).
  exists u1. eexists. split; [done|]. split; [done|]. split; [done|].
  rewrite Hmb. split.
  { unfold handleBoxOption. cbn [UI.boxMenuHandler u1' u1 UI.set_boxMenuButton popupBox
      UI.set_showBox UI.set_boxText UI.set_boxMenuHandler].
    assert (Hcall : callHandler env hd (UI.boxMenuButton u1') u1' =
                    Ok (u2, (if isObject e then "Successfully deleted file!"
                             else "Successfully purged folder!", None))).
    { rewrite <- Hh2. subst hd op. destruct (isObject e); reflexivity. }
    rewrite Hcall. cbn [mbind Res_bind]. reflexivity. }
  cbn. rewrite Hf2, Hd2, He2. repeat split; try done.
Qed.

(** ** Batch delete: [sort.Slice] on the positions *)

Lemma swapSlots_adjacent {A} (pre rest : list A) y x :
  swapSlots (pre ++ y :: x :: rest)
    (Z.of_nat (S (length pre))) (Z.of_nat (length pre))
  = Ok (pre ++ x :: y :: rest).
Proof.
  unfold swapSlots.
  rewrite (index_of_nat _ (S (length pre)) x).
  2:{ rewrite lookup_app_r by lia. by replace (S (length pre) - length pre)%nat with 1%nat by lia. }
  cbn [mbind Res_bind].
  rewrite (index_of_nat _ (length pre) y) by (by rewrite list_lookup_middle).
  cbn [mbind Res_bind].
  rewrite store_Ok by (unfold len; rewrite length_app; simpl; lia).
  cbn [mbind Res_bind].
  rewrite store_Ok by (unfold len; rewrite length_insert, length_app; simpl; lia).
  f_equal. rewrite !Nat2Z.id.
  replace (S (length pre)) with (length pre + 1)%nat by lia.
  rewrite insert_app_r. simpl.
  replace (length pre) with (length pre + 0)%nat at 1 by lia.
  by rewrite insert_app_r.
Qed.

Lemma positions_inner j : forall pre x rest,
  length pre = j ->
  exists pre1 pre2,
    pre = (pre1 ++ pre2) /\
    insertionInner j (pre ++ x :: rest) = Ok (pre1 ++ x :: pre2 ++ rest) /\
    Forall (fun y => y < x) pre2 /\
    (forall y, last pre1 = Some y -> x <= y).
Proof.
  induction j as [|j IH]; intros pre x rest Hlen.
  - destruct pre; [|done]. exists [], []. repeat split; try done.
  - destruct (decide (pre = [])) as [->|Hne]; [done|].
    destruct (exists_last Hne) as (pre' & [y ->]).
    rewrite length_app in Hlen. simpl in Hlen.
    assert (Hj : length pre' = j) by lia. subst j. clear Hlen.
    cbn [insertionInner]. rewrite <- app_assoc. cbn [app].
    assert (HL : Less (pre' ++ y :: x :: rest)
                   (Z.of_nat (S (length pre'))) (Z.of_nat (length pre'))
                 = Ok (y <? x)).
    { cbn [Less positions_Interface].
      rewrite (index_of_nat _ (S (length pre')) x).
      2:{ rewrite lookup_app_r by lia.
          by replace (S (length pre') - length pre')%nat with 1%nat by lia. }
      cbn [mbind Res_bind].
      rewrite (index_of_nat _ (length pre') y) by (by rewrite list_lookup_middle).
      done. }
    rewrite HL. cbn [mbind Res_bind].
    destruct (Z.ltb_spec y x) as [Hlt|Hge].
    + cbn [Swap positions_Interface]. rewrite swapSlots_adjacent.
      cbn [mbind Res_bind].
      destruct (IH pre' x (y :: rest) eq_refl) as (p1 & p2 & -> & Hi & Hall & Hlast).
      exists p1, (p2 ++ [y]). split; [by rewrite app_assoc|]. split.
      * rewrite length_app in Hi. rewrite length_app. rewrite Hi.
        by rewrite <- !app_assoc.
      * split; [|done]. apply Forall_app. split; [done|]. by constructor.
    + exists (pre' ++ [y]), []. split; [by rewrite app_nil_r|]. split.
      * by rewrite <- app_assoc.
      * split; [constructor|]. intros z. rewrite last_snoc. intros [= <-]. lia.
Qed.

Lemma descending_insert pre1 pre2 x :
  descending (pre1 ++ pre2) -> Forall (fun y => y < x) pre2 ->
  (forall y, last pre1 = Some y -> x <= y) ->
  descending (pre1 ++ x :: pre2).
Proof.
  unfold descending. intros Hs Hall Hlast.
  apply StronglySorted_app in Hs as (Hcross & H1 & H2).
  apply StronglySorted_app. split; [|split].
  - intros a b Ha Hb. apply elem_of_cons in Hb as [->|Hb]; [|by apply Hcross].
    destruct (decide (pre1 = [])) as [->|Hne]; [by apply elem_of_nil in Ha|].
    destruct (exists_last Hne) as (p & [y ->]).
    specialize (Hlast y (last_snoc _ _)).
    apply elem_of_app in Ha as [Ha|Ha].
    + apply StronglySorted_app in H1 as (Hc & _ & _).
      specialize (Hc a y Ha ltac:(left)). lia.
    + apply list_elem_of_singleton in Ha as ->. done.
  - done.
  - apply StronglySorted_cons. split; [|done].
    eapply Forall_impl; [exact Hall|]. simpl. lia.
Qed.

Lemma positions_outer m : forall i (l : list Z),
  (i + m)%nat = length l -> (0 < i)%nat -> descending (take i l) ->
  exists l', insertionOuter (seq i m) l = Ok l' /\ l' ≡ₚ l /\ descending l'.
Proof.
  induction m as [|m IH]; intros i l Hlen Hi Hs.
  - exists l. split; [done|]. split; [done|].
    rewrite take_ge in Hs by lia. done.
  - cbn [seq insertionOuter].
    destruct (lookup_lt_is_Some_2 l i) as [x Hx]; [lia|].
    rewrite <- (take_drop_middle l i x Hx).
    destruct (positions_inner i (take i l) x (drop (S i) l))
      as (p1 & p2 & Hp & Hin & Hall & Hlast); [rewrite length_take; lia|].
    rewrite Hin. cbn [mbind Res_bind].
    assert (Hp12 : length (p1 ++ p2) = i) by (rewrite <- Hp, length_take; lia).
    destruct (IH (S i) (p1 ++ x :: p2 ++ drop (S i) l)) as (l' & Ho & Hperm & Hd).
    + rewrite length_app in *. simpl. rewrite length_app, length_drop. lia.
    + lia.
    + replace (p1 ++ x :: p2 ++ drop (S i) l)
        with ((p1 ++ x :: p2) ++ drop (S i) l)
        by (by rewrite <- app_assoc).
      rewrite take_app_length'.
      * apply descending_insert; [by rewrite <- Hp | done | done].
      * rewrite length_app in *. simpl. lia.
    + exists l'. split; [done|]. split; [|done].
      rewrite Hperm, Hp, <- !app_assoc. f_equiv. simpl.
      by rewrite Permutation_middle.
Qed.

Lemma positions_sort (l : list Z) :
  exists l', sort_Sort l = Ok l' /\ l' ≡ₚ l /\ descending l'.
Proof.
  unfold sort_Sort. cbn [Len positions_Interface]. unfold len.
  rewrite Nat2Z.id. destruct l as [|x l].
  - exists []. repeat split; try done. constructor.
  - cbn [length]. replace (S (length l) - 1)%nat with (length l) by lia.
    apply positions_outer; [simpl; lia | lia |].
    simpl. rewrite take_0. repeat constructor.
Qed.

Lemma descending_NoDup l :
  descending l -> NoDup l -> StronglySorted (fun a b => b < a) l.
Proof.
  unfold descending. induction l as [|x l IH]; intros Hs Hnd; [constructor|].
  apply StronglySorted_cons in Hs as [Hall Hs].
  apply NoDup_cons in Hnd as [Hx Hnd].
  apply StronglySorted_cons. split; [|by apply IH].
  apply Forall_forall. intros y Hy.
  rewrite Forall_forall in Hall. specialize (Hall y Hy).
  assert (y <> x) by (intros ->; done). lia.
Qed.

(** ** Batch delete: removal in descending order *)

Lemma keep_all {A} ps (l : list A) : forall i,
  (forall p, p ∈ ps -> p < i) -> keep ps i l = l.
Proof.
  induction l as [|x l IH]; intros i Hps; [done|]. cbn [keep].
  rewrite bool_decide_eq_false_2.
  - f_equal. apply IH. intros p Hp. specialize (Hps p Hp). lia.
  - intros Hi. specialize (Hps i Hi). lia.
Qed.

Lemma keep_delete {A} ps p (l : list A) : forall i,
  i <= p -> (forall q, q ∈ ps -> q < p) ->
  keep ps i (delete (Z.to_nat (p - i)) l) = keep (p :: ps) i l.
Proof.
  induction l as [|x l IH]; intros i Hi Hps; [done|].
  destruct (decide (p = i)) as [->|Hne].
  - rewrite Z.sub_diag. cbn [Z.to_nat delete list_delete keep].
    rewrite bool_decide_eq_true_2 by left.
    rewrite keep_all by done.
    rewrite keep_all; [done|].
    intros q Hq. apply elem_of_cons in Hq as [->|Hq]; [lia|].
    specialize (Hps q Hq). lia.
  - replace (Z.to_nat (p - i)) with (S (Z.to_nat (p - (i + 1)))) by lia.
    cbn [delete list_delete keep].
    change (list_delete (Z.to_nat (p - (i + 1))) l)
      with (delete (Z.to_nat (p - (i + 1))) l).
    rewrite IH by (try done; lia).
    destruct (decide (i ∈ ps)) as [Hin|Hnin].
    + rewrite !bool_decide_eq_true_2; [done | by right | done].
    + rewrite !bool_decide_eq_false_2; [done | | done].
      intros Hc. apply elem_of_cons in Hc as [->|Hc]; done.
Qed.

Lemma keep_ext {A} ps ps' (l : list A) : forall i,
  (forall x, x ∈ ps <-> x ∈ ps') -> keep ps i l = keep ps' i l.
Proof.
  induction l as [|x l IH]; intros i Hps; [done|]. cbn [keep].
  rewrite (IH (i + 1) Hps).
  destruct (decide (i ∈ ps)) as [Hin|Hnin].
  - rewrite !bool_decide_eq_true_2; [done | by apply Hps | done].
  - rewrite !bool_decide_eq_false_2; [done | by rewrite <- Hps | done].
Qed.

Lemma keep_fmap {A B} (g : A -> B) ps (l : list A) : forall i,
  keep ps i (g <$> l) = g <$> keep ps i l.
Proof.
  induction l as [|x l IH]; intros i; [done|]. cbn [fmap list_fmap keep].
  change (list_fmap A B g l) with (g <$> l). rewrite IH.
  by destruct (bool_decide _).
Qed.

Lemma keep_filter {A} (P : A -> Prop) `{forall x, Decision (P x)} ps
    (l : list A) : forall i,
  (forall (k : nat) x, l !! k = Some x -> (i + Z.of_nat k ∈ ps <-> ~ P x)) ->
  keep ps i l = filter P l.
Proof.
  induction l as [|x l IH]; intros i Hl; [done|]. cbn [keep].
  rewrite filter_cons. rewrite (IH (i + 1)).
  - pose proof (Hl 0%nat x eq_refl) as H0. rewrite Z.add_0_r in H0.
    destruct (decide (P x)) as [HP|HP].
    + rewrite bool_decide_eq_false_2; [done|]. intros Hi. by apply H0.
    + rewrite bool_decide_eq_true_2; [done|]. by apply H0.
  - intros k y Hk. rewrite <- (Hl (S k) y Hk).
    by replace (i + 1 + Z.of_nat k) with (i + Z.of_nat (S k)) by lia.
Qed.

Lemma keepDir_nil dir : keepDir [] dir = dir.
Proof.
  unfold keepDir. rewrite keep_all by (intros p Hp; by apply elem_of_nil in Hp).
  by destruct dir.
Qed.

Lemma keepDir_without p ps dir :
  0 <= p -> (forall q, q ∈ ps -> q < p) ->
  keepDir ps (without p dir) = keepDir (p :: ps) dir.
Proof.
  intros Hp Hps. unfold keepDir, without. cbn [dPath dChildren]. f_equal.
  rewrite <- (keep_delete ps p (dChildren dir) 0) by done.
  by rewrite Z.sub_0_r.
Qed.

(** Removing in strictly descending order removes exactly the children
    at these indices. *)
Lemma removeEntries_descending ps : forall u dir,
  UI.d u = Some dir -> UI.entries u = Entries dir ->
  UI.path u = JoinRootPath (UI.fsName u) (dPath dir) ->
  StronglySorted (fun a b => b < a) ps ->
  Forall (fun p => 0 <= p < len (dChildren dir)) ps ->
  exists u', removeEntries ps u = Ok u' /\
    UI.d u' = Some (keepDir ps dir) /\
    UI.entries u' = Entries (keepDir ps dir) /\
    UI.path u' = UI.path u /\ UI.fsName u' = UI.fsName u /\
    UI.dirPosMap u' = UI.dirPosMap u /\
    UI.f u' = UI.f u /\ UI.dirListHeight u' = UI.dirListHeight u /\
    (ps <> [] -> UI.selectedEntries u' = ∅ /\ UI.visualSelectMode u' = false).
Proof.
  induction ps as [|p ps IH]; intros u dir Hd He Hpath Hs Hr.
  - exists u. rewrite keepDir_nil. repeat split; done.
  - apply StronglySorted_cons in Hs as [Hlt Hs].
    apply Forall_cons in Hr as [Hp Hr].
    cbn [removeEntries].
    destruct (removeEntry_Ok p u dir Hd Hp) as (perm & inv & -> & _).
    cbn [mbind Res_bind].
    match goal with |- exists _, removeEntries _ ?x = _ /\ _ => set (u1 := x) end.
    destruct (IH u1 (without p dir)) as (u' & Hrm & Hd' & He' & Hp' & Hn' & Hm' & Hf' & Hh' & Hsel);
      [reflexivity | reflexivity | reflexivity | done | |].
    { rewrite Forall_forall in Hlt, Hr. apply Forall_forall. intros q Hq.
      specialize (Hlt q Hq). specialize (Hr q Hq). unfold without, len.
      cbn [dChildren]. rewrite length_delete.
      - unfold len in *. lia.
      - apply lookup_lt_is_Some_2. unfold len in Hp. lia. }
    exists u'. split; [done|].
    rewrite keepDir_without in Hd', He'
      by (try lia; rewrite Forall_forall in Hlt; done).
    split; [done|]. split; [done|].
    split; [rewrite Hp'; subst u1; cbn; by rewrite Hpath|].
    split; [by rewrite Hn'|]. split; [by rewrite Hm'|].
    split; [by rewrite Hf'|]. split; [by rewrite Hh'|].
    intros _. destruct ps as [|q ps'].
    + simpl in Hrm. simplify_eq. done.
    + by apply Hsel.
Qed.

(** ** Batch delete: the loop over the selection *)

Lemma store_next (done : list Z) m pos :
  store (done ++ replicate (S m) 0) (len done) pos
  = Ok ((done ++ [pos]) ++ replicate m 0).
Proof.
  rewrite store_Ok.
  - f_equal. unfold len. rewrite Nat2Z.id.
    replace (length done) with (length done + 0)%nat at 1 by lia.
    rewrite insert_app_r. simpl. by rewrite <- app_assoc.
  - unfold len. rewrite length_app, length_replicate. lia.
Qed.

Lemma deleteSelectedLoop_Ok env ord : forall done u,
  (forall log op, opErr env log op = None) ->
  Forall (fun ks => exists pe, rankEntry u ks.2 = Ok pe) ord ->
  exists u' res,
    deleteSelectedLoop env ord (len done) (done ++ replicate (length ord) 0) u
      = Ok (u', done ++ res.*1, None) /\
    Forall2 (fun ks pe => rankEntry u ks.2 = Ok pe) ord res /\
    stable u u' /\ UI.sortPerm u' = UI.sortPerm u /\
    UI.dirPosMap u' = UI.dirPosMap u /\
    UI.dirListHeight u' = UI.dirListHeight u /\
    UI.f u' = UI.f u ++ (opOf <$> res.*2).
Proof.
  induction ord as [|[key snap] ord IH]; intros done u Hop Hall.
  - exists u, []. simpl. rewrite !app_nil_r.
    repeat split; done.
  - apply Forall_cons in Hall as [[[pos e] Hpe] Hall].
    cbn [deleteSelectedLoop length].
    pose proof Hpe as Hpe'. unfold rankEntry in Hpe'. simpl in Hpe'.
    apply bind_Ok in Hpe' as (pos' & Hip & Hpe').
    apply bind_Ok in Hpe' as (e' & Hie & Hpe'). simplify_eq.
    rewrite Hip. cbn [mbind Res_bind]. rewrite Hie. cbn [mbind Res_bind].
    unfold backendCall. rewrite Hop.
    rewrite store_next. cbn [mbind Res_bind].
    match goal with
    | |- exists _ _, deleteSelectedLoop _ _ _ _ ?x = _ /\ _ => set (u1 := x)
    end.
    replace (len done + 1) with (len (done ++ [pos]))
      by (unfold len; rewrite length_app; simpl; lia).
    destruct (IH (done ++ [pos]) u1 Hop) as (u' & res & Hl & Hres & Hst & Hsp & Hdm & Hh & Hf).
    { eapply Forall_impl; [exact Hall|]. intros ks Hks. exact Hks. }
    exists u', ((pos, e) :: res). split.
    { rewrite Hl. by rewrite <- app_assoc. }
    split; [by constructor|].
    split.
    { eapply stable_trans; [|exact Hst]. unfold stable, sameFlags. simpl. tauto. }
    split; [by rewrite Hsp|]. split; [by rewrite Hdm|]. split; [by rewrite Hh|].
    rewrite Hf. subst u1. cbn. rewrite <- app_assoc. done.
Qed.

Lemma deleteSelectedLoop_selection env ord : forall i ps u u' ps' err,
  deleteSelectedLoop env ord i ps u = Ok (u', ps', err) -> err = None ->
  forall k, UI.selectedEntries u' !! k =
            if bool_decide (k ∈ ord.*1) then None else UI.selectedEntries u !! k.
Proof.
  induction ord as [|[key snap] ord IH]; intros i ps u u' ps' err Hl Herr k.
  - simpl in Hl. simplify_eq. rewrite bool_decide_eq_false_2; [done|].
    apply not_elem_of_nil.
  - cbn [deleteSelectedLoop] in Hl.
    apply bind_Ok in Hl as (pos & _ & Hl). apply bind_Ok in Hl as (e & _ & Hl).
    destruct (backendCall _ _ _) as [u1 [e1|]] eqn:Hb; [by simplify_eq|].
    apply bind_Ok in Hl as (ps1 & _ & Hl).
    rewrite (IH _ _ _ _ _ _ Hl Herr k). cbn [fmap list_fmap fst].
    change (list_fmap _ _ fst ord) with (ord.*1).
    assert (Hsel : UI.selectedEntries u1 = UI.selectedEntries u).
    { unfold backendCall in Hb. destruct (opErr _ _ _); by simplify_eq. }
    destruct (decide (k ∈ ord.*1)) as [Hin|Hnin].
    + rewrite !bool_decide_eq_true_2; [done | by right | done].
    + rewrite (bool_decide_eq_false_2 _ Hnin). cbn.
      destruct (decide (k = key)) as [->|Hne].
      * rewrite bool_decide_eq_true_2 by left. apply lookup_delete_eq.
      * rewrite bool_decide_eq_false_2.
        -- rewrite lookup_delete_ne by done. by rewrite Hsel.
        -- intros Hc. apply elem_of_cons in Hc as [?|?]; done.
Qed.

Lemma rankEntry_Ok u snap pos e :
  rankEntry u snap = Ok (pos, e) ->
  0 <= pos < len (UI.entries u) /\ UI.entries u !! Z.to_nat pos = Some e.
Proof.
  unfold rankEntry. intros H.
  apply bind_Ok in H as (pos' & _ & H). apply bind_Ok in H as (e' & Hi & H).
  simplify_eq. apply index_Ok in Hi as [H0 Hl]. split; [|done].
  apply lookup_lt_Some in Hl. unfold len. lia.
Qed.

Section BatchDelete.
Context (env : Env) (u : UI) (dir : Dir).
Let sel := UI.selectedEntries u.
Let ord := rangeOrder env sel.

Hypothesis order_ok : rangeOrderOk env.
Hypothesis keys_unique : NoDup (String_ <$> UI.entries u).
Hypothesis fresh : freshSelection u.

Lemma ord_selected key snap : (key, snap) ∈ ord <-> sel !! key = Some snap.
Proof. unfold ord. rewrite (order_ok sel). apply elem_of_map_to_list. Qed.

Lemma ord_resolves :
  Forall (fun ks => exists pe, rankEntry u ks.2 = Ok pe) ord.
Proof.
  apply Forall_forall. intros [key snap] Hin. apply ord_selected in Hin.
  destruct (fresh key snap Hin) as (pos & e & Hr & _). by exists (pos, e).
Qed.

Lemma resolved_keys_sub l res :
  (forall ks, ks ∈ l -> ks ∈ ord) ->
  Forall2 (fun ks pe => rankEntry u ks.2 = Ok pe) l res ->
  Forall2 (fun ks pe => UI.entries u !! Z.to_nat pe.1 = Some pe.2 /\
                        0 <= pe.1 < len (UI.entries u) /\
                        String_ pe.2 = ks.1) l res.
Proof.
  intros Hin Hres.
  induction Hres as [|[key snap] [pos e] l res Hr _ IH]; [constructor|].
  constructor.
  - assert (Hk : (key, snap) ∈ ord) by (apply Hin; left).
    apply ord_selected in Hk.
    destruct (fresh key snap Hk) as (pos' & e' & Hr' & Hkey).
    simpl in Hr. rewrite Hr in Hr'. simplify_eq.
    apply rankEntry_Ok in Hr as [? ?]. done.
  - apply IH. intros ks Hks. apply Hin. by right.
Qed.

Lemma resolved_keys res :
  Forall2 (fun ks pe => rankEntry u ks.2 = Ok pe) ord res ->
  Forall2 (fun ks pe => UI.entries u !! Z.to_nat pe.1 = Some pe.2 /\
                        0 <= pe.1 < len (UI.entries u) /\
                        String_ pe.2 = ks.1) ord res.
Proof. by apply resolved_keys_sub. Qed.

Lemma selected_positions res (k : nat) e :
  Forall2 (fun ks pe => rankEntry u ks.2 = Ok pe) ord res ->
  UI.entries u !! k = Some e ->
  (0 + Z.of_nat k ∈ res.*1 <-> ~ sel !! String_ e = None).
Proof.
  intros Hres Hk. pose proof (resolved_keys res Hres) as Hkeys. split.
  - intros Hin. apply list_elem_of_fmap in Hin as ([pos e'] & Hpos & Hin).
    simpl in Hpos. subst pos.
    apply list_elem_of_lookup in Hin as (i & Hi).
    destruct (Forall2_lookup_r _ _ _ _ _ Hkeys Hi) as ([key snap] & Ho & He' & _ & Hkey).
    simpl in *. rewrite Z.add_0_l, Nat2Z.id in He'. simplify_eq.
    assert (Hs : sel !! String_ e = Some snap)
      by (apply ord_selected; by eapply list_elem_of_lookup_2).
    by rewrite Hs.
  - intros Hsel. destruct (sel !! String_ e) as [snap|] eqn:Hs; [|done].
    apply ord_selected in Hs. apply list_elem_of_lookup in Hs as (i & Hi).
    destruct (Forall2_lookup_l _ _ _ _ _ Hkeys Hi) as ([pos e'] & Hr & He' & Hrange & Hkey).
    simpl in *.
    assert (Z.to_nat pos = k) as Hpk.
    { eapply (NoDup_lookup _ _ _ (String_ e) keys_unique).
      - rewrite list_lookup_fmap, He'. simpl. by rewrite Hkey.
      - by rewrite list_lookup_fmap, Hk. }
    apply list_elem_of_fmap. exists (pos, e'). split; [simpl; lia|].
    by eapply list_elem_of_lookup_2.
Qed.

Lemma resolved_NoDup res :
  Forall2 (fun ks pe => rankEntry u ks.2 = Ok pe) ord res -> NoDup res.*1.
Proof.
  intros Hres. pose proof (resolved_keys res Hres) as Hkeys.
  set (key_at := fun pos : Z =>
         match UI.entries u !! Z.to_nat pos with
         | Some e => String_ e | None => "" end).
  apply (NoDup_fmap_1 key_at).
  assert (Heq : key_at <$> res.*1 = ord.*1).
  { clear Hres. induction Hkeys as [|[key snap] [pos e] l res (He & _ & Hk) _ IH];
      [done|].
    cbn. f_equal; [|exact IH]. unfold key_at. simpl in *. by rewrite He. }
  rewrite Heq. unfold ord. rewrite (order_ok sel). apply NoDup_fst_map_to_list.
Qed.

End BatchDelete.

(** X24.  The batch delete confirmed on a selection whose snapshots still
    resolve to the selected entries, with a backend that accepts every
    call: the children are removed in strictly descending index order,
    the entries deleted on the backend are the selected ones, and the
    never selected children remain in their order. *)
Lemma deleteSelected_confirmed env u dir :
  let n := len (UI.entries u) in
  let h := UI.dirListHeight u in
  let sel := UI.selectedEntries u in
  rangeOrderOk env -> (forall log op, opErr env log op = None) ->
  UI.d u = Some dir -> UI.entries u = Entries dir ->
  UI.path u = JoinRootPath (UI.fsName u) (dPath dir) ->
  NoDup (String_ <$> UI.entries u) ->
  sel <> ∅ -> freshSelection u ->
  n < 2 ^ 62 -> 0 < h ->
  0 <= offset (cursor u) <= entry (cursor u) ->
  entry (cursor u) - offset (cursor u) < h -> entry (cursor u) < 2 ^ 62 ->
  exists u1 ps ps' es u',
    deleteSelectedLoop env (rangeOrder env sel) 0 (replicate (size sel) 0) u
      = Ok (u1, ps, None) /\
    sort_Sort ps = Ok ps' /\
    StronglySorted (fun a b => b < a) ps' /\
    selectedHandler env 1 u
      = Ok (u', ("Successfully deleted all items!", None)) /\
    UI.d u' = Some (keepDir ps' dir) /\
    UI.entries u' =
      filter (fun e => sel !! String_ e = None) (UI.entries u) /\
    UI.selectedEntries u' = ∅ /\
    UI.f u' = UI.f u ++ (opOf <$> es) /\
    String_ <$> es = (rangeOrder env sel).*1 /\
    Forall (fun e => e ∈ UI.entries u) es /\
    (if len (UI.entries u') =? 0
     then cursor u' = {| entry := (if entry (cursor u) =? 0 then 0 else -1);
                         offset := 0 |}
     else viewportOk (len (UI.entries u')) h (cursor u')).
Proof.
  intros n h sel Hord Hop Hd He Hpath Hkeys Hne Hfresh Hn Hh Hco Hcp Hce.
  set (ord := rangeOrder env sel).
  assert (Hsize : size sel = length ord).
  { unfold ord. rewrite (Hord sel). by rewrite length_map_to_list. }
  destruct (deleteSelectedLoop_Ok env ord [] u Hop (ord_resolves env u Hord Hfresh))
    as (u1 & res & Hloop & Hres & Hst & Hsp & Hdm & Hh1 & Hf1).
  change (len (@nil Z)) with 0 in Hloop.
  cbn [app] in Hloop. rewrite <- Hsize in Hloop.
  pose proof (resolved_keys env u Hord Hfresh res Hres) as Hrk.
  destruct (positions_sort res.*1) as (ps' & Hsort & Hperm & Hdesc).
  assert (Hnd : NoDup ps').
  { rewrite Hperm. by eapply resolved_NoDup. }
  pose proof (descending_NoDup ps' Hdesc Hnd) as Hstrict.
  destruct Hst as (Hd1 & He1 & Hp1 & Hn1 & _).
  assert (Hrange : Forall (fun p => 0 <= p < len (dChildren dir)) ps').
  { rewrite Hperm. apply Forall_forall. intros p Hp.
    apply list_elem_of_fmap in Hp as ([pos e] & -> & Hin).
    apply list_elem_of_lookup in Hin as (i & Hi).
    destruct (Forall2_lookup_r _ _ _ _ _ Hrk Hi) as (ks & _ & _ & Hr & _).
    simpl in *. unfold len in *. by rewrite He, Entries_length in Hr. }
  destruct (removeEntries_descending ps' u1 dir) as
    (u2 & Hrm & Hd2 & He2 & Hp2 & Hn2 & Hm2 & Hf2 & Hh2 & Hsel2);
    [congruence | congruence | congruence | done | done |].
  assert (Hps' : ps' <> []).
  { intros ->. apply Permutation_nil_l in Hperm. symmetry in Hperm.
    apply fmap_nil_inv in Hperm. subst res.
    apply Forall2_nil_inv_r in Hres. apply Hne.
    apply map_to_list_empty_iff. apply Permutation_nil_r.
    rewrite <- (Hord sel). fold ord. by rewrite Hres. }
  destruct (Hsel2 Hps') as [Hs2 Hv2].
  assert (Hc2 : cursor u2 = cursor u).
  { unfold cursor. by rewrite Hp2, Hm2, Hp1, Hdm. }
  assert (Hent : UI.entries u2 =
                 filter (fun e => sel !! String_ e = None) (UI.entries u)).
  { rewrite He2. unfold Entries, keepDir. cbn [dChildren].
    rewrite <- keep_fmap. fold (Entries dir). rewrite <- He.
    rewrite (keep_ext ps' res.*1) by (intros x; by rewrite Hperm).
    apply keep_filter. intros k e Hk.
    by apply (selected_positions env u Hord Hkeys Hfresh). }
  assert (Hlen2 : len (UI.entries u2) <= n).
  { rewrite Hent. unfold n, len. pose proof (length_filter
      (fun e => sel !! String_ e = None) (UI.entries u)). lia. }
  assert (Hfin : exists u',
    (if entry (cursor u2) >=? len (UI.entries u2) then move (-1) u2 else Ok u2)
      = Ok u' /\ stable u2 u' /\ UI.f u' = UI.f u2 /\
    UI.selectedEntries u' = UI.selectedEntries u2 /\
    (if len (UI.entries u2) =? 0
     then cursor u' = {| entry := (if entry (cursor u) =? 0 then 0 else -1);
                         offset := 0 |}
     else viewportOk (len (UI.entries u2)) h (cursor u'))).
  { rewrite Z.geb_leb.
    destruct (Z.leb_spec (len (UI.entries u2)) (entry (cursor u2))) as [Hge|Hlt].
    - destruct (move_back u2) as (u' & Hm & Hst' & Hf' & Hs' & Hcur);
        rewrite ?Hc2, ?Hh2, ?Hh1; try done; try lia.
      + by rewrite Hd2.
      + pose proof (len_nonneg (UI.entries u2)). lia.
      + exists u'. rewrite Hc2, Hh2, Hh1 in Hcur. done.
    - exists u2. split; [done|]. split; [apply stable_refl|].
      split; [done|]. split; [done|].
      rewrite Hc2 in *.
      destruct (Z.eqb_spec (len (UI.entries u2)) 0); [lia|].
      unfold viewportOk. lia. }
  destruct Hfin as (u' & Hmove & (Hd' & He' & _) & Hf' & Hs' & Hcur).
  exists u1, res.*1, ps', res.*2, u'.
  split; [exact Hloop|]. split; [exact Hsort|]. split; [exact Hstrict|].
  split.
  { unfold selectedHandler. cbn [negb Z.eqb Pos.eqb].
    fold sel. fold ord. rewrite Hloop. cbn [mbind Res_bind].
    rewrite Hsort. cbn [mbind Res_bind]. rewrite Hrm. cbn [mbind Res_bind].
    fold (cursor u2). rewrite Hmove. reflexivity. }
  split; [by rewrite Hd', Hd2|]. split; [by rewrite He', Hent|].
  split; [by rewrite Hs', Hs2|]. split; [by rewrite Hf', Hf2, Hf1|].
  split.
  { subst ord sel. clear -Hrk.
    induction Hrk as [|[key snap] [pos e] l r (_ & _ & Hk) _ IH]; [done|].
    cbn. f_equal; [exact Hk | exact IH]. }
  split.
  { apply Forall_forall. intros e Hin.
    apply list_elem_of_fmap in Hin as ([pos e'] & -> & Hin).
    apply list_elem_of_lookup in Hin as (i & Hi).
    destruct (Forall2_lookup_r _ _ _ _ _ Hrk Hi) as (ks & _ & Hl & _).
    by eapply list_elem_of_lookup_2. }
  rewrite He'. exact Hcur.
Qed.

(** ** More of the controller *)

Lemma quiet_refl u : quiet u u.
Proof. unfold quiet. tauto. Qed.

Lemma quiet_trans u1 u2 u3 : quiet u1 u2 -> quiet u2 u3 -> quiet u1 u3.
Proof. unfold quiet. intuition congruence. Qed.

Lemma sameSort_refl u : sameSort u u.
Proof. unfold sameSort. tauto. Qed.

Lemma sameSort_trans u1 u2 u3 :
  sameSort u1 u2 -> sameSort u2 u3 -> sameSort u1 u3.
Proof. unfold sameSort. intuition congruence. Qed.

Ltac frame_now := unfold quiet, sameSort, stable, sameFlags; simpl; tauto.

(** *** Shapes of the results *)

Lemma toggleSelectForCursor_shape u u' :
  toggleSelectForCursor u = Ok u' ->
  exists sel, u' = UI.set_selectedEntries sel u.
Proof. unfold toggleSelectForCursor. intros H. res_inv; subst; eauto. Qed.

Lemma move_shape delta u u' :
  move delta u = Ok u' ->
  exists sel pm, u' = UI.set_dirPosMap pm (UI.set_selectedEntries sel u).
Proof.
  unfold move. intros H. destruct (UI.d u).
  - apply bind_Ok in H as (u1 & H1 & H). apply (inj Ok) in H. subst u'.
    destruct (UI.visualSelectMode u).
    + apply toggleSelectForCursor_shape in H1 as (sel & ->). eauto.
    + apply (inj Ok) in H1. subst u1.
      exists (UI.selectedEntries u). eexists. by destruct u.
  - apply (inj Ok) in H. subst u'.
    exists (UI.selectedEntries u), (UI.dirPosMap u). by destruct u.
Qed.

Lemma Draw_shape h u u' :
  Draw h u = Ok u' -> u' = UI.set_dirListHeight (h - 3) u.
Proof. unfold Draw. intros H. simpl in H. res_inv; by subst. Qed.

(** *** Quiet operations *)

Lemma sortCurrentDir_quiet u u' : sortCurrentDir u = Ok u' -> quiet u u'.
Proof. intros H. apply sortCurrentDir_shape in H as (? & ? & ->). frame_now. Qed.

Lemma setCurrentDir_quiet dir u u' : setCurrentDir dir u = Ok u' -> quiet u u'.
Proof. intros H. apply setCurrentDir_shape in H as (? & ? & ->). frame_now. Qed.

Lemma toggleSelectForCursor_quiet u u' :
  toggleSelectForCursor u = Ok u' -> quiet u u' /\ sameSort u u'.
Proof. intros H. apply toggleSelectForCursor_shape in H as (? & ->). frame_now. Qed.

Lemma move_quiet delta u u' :
  move delta u = Ok u' -> quiet u u' /\ sameSort u u'.
Proof. intros H. apply move_shape in H as (? & ? & ->). frame_now. Qed.

Lemma Draw_quiet h u u' : Draw h u = Ok u' -> quiet u u' /\ sameSort u u'.
Proof. intros H. apply Draw_shape in H as ->. frame_now. Qed.

Lemma toggleSort_quiet s u u' : toggleSort s u = Ok u' -> quiet u u'.
Proof.
  unfold toggleSort. intros H. apply sortCurrentDir_quiet in H.
  eapply quiet_trans; [|exact H]. destruct (_ =? _), s; frame_now.
Qed.

Lemma removeEntry_quiet pos u u' : removeEntry pos u = Ok u' -> quiet u u'.
Proof. unfold removeEntry. intros H. res_inv. by eapply setCurrentDir_quiet. Qed.

Lemma enter_quiet env u u' : enter env u = Ok u' -> quiet u u'.
Proof.
  unfold enter. intros H. res_inv; subst; try apply quiet_refl.
  by eapply setCurrentDir_quiet.
Qed.

Lemma up_quiet env u u' : up env u = Ok u' -> quiet u u'.
Proof.
  unfold up. intros H. res_inv; subst; try apply quiet_refl.
  by eapply setCurrentDir_quiet.
Qed.

(** *** The sort state *)

Lemma sortOk_keep u u' : stable u u' -> sameSort u u' -> sortOk u -> sortOk u'.
Proof.
  intros (_ & He & _) (Hp & Hi). unfold sortOk. by rewrite He, Hp, Hi.
Qed.

Lemma consistent_keep u u' : stable u u' -> consistent u -> consistent u'.
Proof. intros Hs. by apply stable_retargets. Qed.

Lemma sortCurrentDir_sortOk u u' :
  consistent u -> sortCurrentDir u = Ok u' -> consistent u' /\ sortOk u'.
Proof.
  intros Hc Hs.
  destruct (sortCurrentDir_Ok u Hc) as (perm & inv & Hs' & Hp & Hl & Hinv & _).
  rewrite Hs in Hs'. apply (inj Ok) in Hs'. subst u'.
  split; [exact Hc|]. unfold sortOk. simpl.
  split; [done|]. split; [|done].
  rewrite <- Hl. by rewrite Hp, iota_length.
Qed.

Lemma setCurrentDir_sortOk dir u u' :
  setCurrentDir dir u = Ok u' -> consistent u' /\ sortOk u'.
Proof. unfold setCurrentDir. apply sortCurrentDir_sortOk. reflexivity. Qed.

Lemma toggleSort_sortOk s u u' :
  consistent u -> toggleSort s u = Ok u' -> consistent u' /\ sortOk u'.
Proof.
  intros Hc. unfold toggleSort. apply sortCurrentDir_sortOk.
  unfold consistent in *. destruct (_ =? _), s; exact Hc.
Qed.

Lemma removeEntry_sortOk pos u u' :
  removeEntry pos u = Ok u' -> consistent u' /\ sortOk u'.
Proof. unfold removeEntry. intros H. res_inv. by eapply setCurrentDir_sortOk. Qed.

Section SortStateEnv.
Context (env : Env).

Lemma enter_sortOk u u' :
  enter env u = Ok u' -> consistent u /\ sortOk u -> consistent u' /\ sortOk u'.
Proof.
  unfold enter. intros H Hi. res_inv; subst; try done.
  by eapply setCurrentDir_sortOk.
Qed.

Lemma up_sortOk u u' :
  up env u = Ok u' -> consistent u /\ sortOk u -> consistent u' /\ sortOk u'.
Proof.
  unfold up. intros H Hi. res_inv; subst; try done.
  by eapply setCurrentDir_sortOk.
Qed.

Lemma move_sortOk delta u u' :
  move delta u = Ok u' -> consistent u /\ sortOk u -> consistent u' /\ sortOk u'.
Proof.
  intros H [Hc Hs]. pose proof (move_stable _ _ _ H) as Hst.
  apply move_quiet in H as [_ Hss].
  split; [by eapply consistent_keep | by eapply sortOk_keep].
Qed.

Lemma singleHandler_sortOk op done cursorPos pos o u u' r :
  singleHandler env op done cursorPos pos o u = Ok (u', r) ->
  consistent u /\ sortOk u -> consistent u' /\ sortOk u'.
Proof.
  unfold singleHandler. intros H Hi.
  destruct (negb _); [by simplify_eq|].
  unfold backendCall in H. destruct (opErr _ _ _); [by simplify_eq|].
  apply bind_Ok in H as (u1 & Hr & H). apply removeEntry_sortOk in Hr.
  apply bind_Ok in H as (u2 & Hm & H). simplify_eq.
  destruct (_ >=? _); [by eapply move_sortOk | by simplify_eq].
Qed.

Lemma removeEntries_sortOk ps : forall u u',
  removeEntries ps u = Ok u' ->
  consistent u /\ sortOk u -> consistent u' /\ sortOk u'.
Proof.
  induction ps as [|p ps IH]; intros u u' H Hi.
  - simpl in H. by simplify_eq.
  - cbn [removeEntries] in H. apply bind_Ok in H as (u1 & H1 & H).
    apply removeEntry_sortOk in H1. by eapply IH.
Qed.

Lemma deleteSelectedLoop_sameSort ord : forall i ps u u' ps' e,
  deleteSelectedLoop env ord i ps u = Ok (u', ps', e) -> sameSort u u'.
Proof.
  induction ord as [|[key cursorPos] rest IH]; intros i ps u u' ps' e H.
  - simpl in H. simplify_eq. apply sameSort_refl.
  - cbn [deleteSelectedLoop] in H.
    apply bind_Ok in H as (pos & _ & H). apply bind_Ok in H as (dirEntry & _ & H).
    unfold backendCall in H. destruct (opErr _ _ _).
    + simplify_eq. apply sameSort_refl.
    + apply bind_Ok in H as (ps1 & _ & H). apply IH in H.
      eapply sameSort_trans; [|exact H]. frame_now.
Qed.

Lemma selectedHandler_sortOk o u u' r :
  selectedHandler env o u = Ok (u', r) ->
  consistent u /\ sortOk u -> consistent u' /\ sortOk u'.
Proof.
  unfold selectedHandler. intros H [Hc Hs].
  destruct (negb _); [by simplify_eq|].
  apply bind_Ok in H as ([[u1 ps] e] & Hl & H).
  pose proof (deleteSelectedLoop_stable _ _ _ _ _ _ _ _ Hl) as Hst.
  apply deleteSelectedLoop_sameSort in Hl.
  assert (Hi1 : consistent u1 /\ sortOk u1)
    by (split; [by eapply consistent_keep | by eapply sortOk_keep]).
  destruct e; [by simplify_eq|].
  apply bind_Ok in H as (ps' & _ & H). apply bind_Ok in H as (u2 & Hr & H).
  apply removeEntries_sortOk in Hr; [|done].
  apply bind_Ok in H as (u3 & Hm & H). simplify_eq.
  destruct (_ >=? _); [by eapply move_sortOk | by simplify_eq].
Qed.

Lemma handleBoxOption_sortOk u u' :
  handleBoxOption env u = Ok u' ->
  consistent u /\ sortOk u -> consistent u' /\ sortOk u'.
Proof.
  unfold handleBoxOption. intros H Hi.
  destruct (UI.boxMenuHandler u) as [hd|]; [|done].
  apply bind_Ok in H as ([u1 [msg err]] & Hc & H).
  assert (Hi1 : consistent u1 /\ sortOk u1).
  { destruct hd; simpl in Hc;
      eauto using singleHandler_sortOk, selectedHandler_sortOk. }
  destruct err; simplify_eq; exact Hi1.
Qed.

Lemma key_sortOk k u u' :
  key env k u = Ok u' -> consistent u /\ sortOk u -> consistent u' /\ sortOk u'.
Proof.
  intros H Hi. pose proof Hi as [Hc Hs].
  assert (Hkeep : stable u u' -> sameSort u u' -> consistent u' /\ sortOk u').
  { intros ? ?. split; [by eapply consistent_keep | by eapply sortOk_keep]. }
  destruct k; simpl in H; res_inv; subst; try done;
    eauto using enter_sortOk, up_sortOk, move_sortOk, handleBoxOption_sortOk,
      toggleSort_sortOk.
  all: try (apply Hkeep; frame_now).
  - apply Hkeep; [apply moveBox_stable|]. unfold moveBox.
    destruct (_ =? _); frame_now.
  - apply Hkeep; [apply moveBox_stable|]. unfold moveBox.
    destruct (_ =? _); frame_now.
  - apply Hkeep; [by apply toggleSelectForCursor_stable|].
    by apply toggleSelectForCursor_quiet.
  - apply Hkeep; [apply togglePopupBox_stable|]. unfold displayPath, togglePopupBox.
    destruct (_ && _); frame_now.
  - apply Hkeep; [by apply delete_stable|]. unfold delete_, deleteSingle in H.
    res_inv; subst; frame_now.
  - apply Hkeep; [apply togglePopupBox_stable|]. unfold togglePopupBox.
    destruct (_ && _); frame_now.
Qed.

Lemma iteration_sortOk h ev u u' :
  iteration env h ev u = Ok u' ->
  consistent u /\ sortOk u -> consistent u' /\ sortOk u'.
Proof.
  unfold iteration. intros H [Hc Hs].
  apply bind_Ok in H as (u1 & Hd & H).
  pose proof (Draw_stable _ _ _ Hd) as Hst. apply Draw_quiet in Hd as [_ Hss].
  assert (Hi1 : consistent u1 /\ sortOk u1)
    by (split; [by eapply consistent_keep | by eapply sortOk_keep]).
  destruct ev as [root| [err|] | | k].
  - by eapply setCurrentDir_sortOk.
  - done.
  - simplify_eq. exact Hi1.
  - eapply sortCurrentDir_sortOk; [apply Hi1 | done].
  - by eapply key_sortOk.
Qed.

End SortStateEnv.

(** X1.  In every state of the main loop the permutation held is a
    permutation of the indices of the listing held, and every row i of
    the listing resolves: [sortPerm[i]] is an index j of [entries], and
    [invSortPerm[j]] is i again. *)
Theorem reachable_sortOk env fsName u :
  reachable env fsName u ->
  UI.sortPerm u ≡ₚ iota (length (UI.entries u)) /\
  (forall i, 0 <= i < len (UI.entries u) ->
     exists j e, index (UI.sortPerm u) i = Ok j /\
                 index (UI.entries u) j = Ok e /\
                 index (UI.invSortPerm u) j = Ok i).
Proof.
  intros Hr.
  assert (Hi : consistent u /\ sortOk u).
  { induction Hr as [|u h ev u' _ IH Hstep].
    - split; [reflexivity|]. unfold sortOk. simpl. repeat split; try done.
    - by eapply iteration_sortOk. }
  destruct Hi as [_ (Hp & Hl & Hinv)]. split; [done|].
  intros i Hi. unfold len in Hi.
  destruct (perm_lookup_range _ _ (Z.to_nat i) Hp) as (k & Hk & Hkn); [lia|].
  destruct (lookup_lt_is_Some_2 (UI.entries u) k Hkn) as [e He].
  exists (Z.of_nat k), e. split; [apply index_Ok; split; [lia | done]|].
  split; [by apply index_of_nat|].
  apply index_Ok. split; [lia|]. rewrite (Hinv _ _ Hk). f_equal. lia.
Qed.


(** *** The menu of the popup *)

Lemma boxOk_quiet u u' : quiet u u' -> boxOk u -> boxOk u'.
Proof. intros (_ & _ & _ & Hm & Hb & Hh). unfold boxOk. by rewrite Hm, Hb, Hh. Qed.

Lemma moveBox_boxOk to u : boxOk u -> boxOk (moveBox to u).
Proof.
  unfold moveBox. intros [(Hm & Hh & Hb) | (Hm & Hh & Hb)].
  - rewrite Hm. simpl. by left.
  - rewrite Hm. change (len ["cancel"; "confirm"]) with 2. simpl.
    right. unfold boxOk. simpl. split; [done|]. split; [done|].
    destruct Hb as [-> | ->]; destruct (0 <? to); vm_compute; tauto.
Qed.

Lemma togglePopupBox_menu text u :
  UI.boxMenu (togglePopupBox text u) = UI.boxMenu u /\
  UI.boxMenuButton (togglePopupBox text u) = UI.boxMenuButton u /\
  UI.boxMenuHandler (togglePopupBox text u) = UI.boxMenuHandler u /\
  UI.f (togglePopupBox text u) = UI.f u.
Proof. unfold togglePopupBox. by destruct (_ && _). Qed.

Lemma deleteSelected_boxOk u : boxOk u -> boxOk (deleteSelected u).
Proof.
  intros Hb. right. simpl. split; [done|]. split; [eauto|].
  destruct Hb as [(_ & _ & ->) | (_ & _ & Hb)]; tauto.
Qed.

Lemma delete_boxOk u u' : delete_ u = Ok u' -> boxOk u -> boxOk u'.
Proof.
  unfold delete_. intros H Hb.
  assert (Hbtn : UI.boxMenuButton u = 0 \/ UI.boxMenuButton u = 1)
    by (destruct Hb as [(_ & _ & ->) | (_ & _ & Hb)]; tauto).
  destruct (UI.d u); [|by simplify_eq].
  destruct (_ =? _); [by simplify_eq|].
  destruct (_ <? _)%nat; [simplify_eq; by apply deleteSelected_boxOk|].
  unfold deleteSingle in H. res_inv; subst; right; simpl; eauto.
Qed.

Lemma handleBoxOption_boxOk env u u' : handleBoxOption env u = Ok u' -> boxOk u'.
Proof.
  unfold handleBoxOption. intros H. destruct (UI.boxMenuHandler u); [|done].
  apply bind_Ok in H as ([u1 [msg err]] & _ & H).
  destruct err; simplify_eq; by left.
Qed.

Lemma key_boxOk env k u u' : key env k u = Ok u' -> boxOk u -> boxOk u'.
Proof.
  intros H Hb.
  destruct k; simpl in H; res_inv; subst; try done;
    eauto using moveBox_boxOk, deleteSelected_boxOk, delete_boxOk,
      handleBoxOption_boxOk.
  all: try (eapply boxOk_quiet; [|exact Hb];
            first [ by eapply move_quiet | by eapply enter_quiet
                  | by eapply up_quiet | by eapply toggleSort_quiet
                  | by eapply toggleSelectForCursor_quiet ]).
  all: try (unfold boxOk in *; simpl; exact Hb).
  all: unfold boxOk, displayPath in *;
    match goal with
    | |- context [togglePopupBox ?t ?u] =>
        destruct (togglePopupBox_menu t u) as (-> & -> & -> & _)
    end; exact Hb.
Qed.

Lemma iteration_boxOk env h ev u u' :
  iteration env h ev u = Ok u' -> boxOk u -> boxOk u'.
Proof.
  unfold iteration. intros H Hb. apply bind_Ok in H as (u1 & Hd & H).
  apply Draw_quiet in Hd as [Hq _]. apply (boxOk_quiet _ _ Hq) in Hb.
  destruct ev as [root| [err|] | | k].
  - eapply boxOk_quiet; [by eapply setCurrentDir_quiet | done].
  - done.
  - simplify_eq. exact Hb.
  - eapply boxOk_quiet; [by eapply sortCurrentDir_quiet | done].
  - by eapply key_boxOk.
Qed.

(** X2.  In every state of the main loop the option chosen in the popup
    menu is 0 or 1, and either there is no menu, no handler and the
    option is 0, or the menu is cancel/confirm and a handler is set: the
    enter key never calls a nil handler. *)
Theorem reachable_boxOk env fsName u :
  reachable env fsName u ->
  (UI.boxMenuButton u = 0 \/ UI.boxMenuButton u = 1) /\
  (UI.boxMenu u = [] /\ UI.boxMenuHandler u = None /\ UI.boxMenuButton u = 0 \/
   UI.boxMenu u = ["cancel"; "confirm"] /\
   exists hd, UI.boxMenuHandler u = Some hd).
Proof.
  intros Hr. assert (Hb : boxOk u).
  { induction Hr; [by left | by eapply iteration_boxOk]. }
  destruct Hb as [(Hm & Hh & Hb) | (Hm & Hh & Hb)].
  - split; [by left | by left].
  - split; [done | by right].
Qed.

(** *** The backend *)

Lemma singleHandler_f env op done cursorPos pos o u u' r :
  singleHandler env op done cursorPos pos o u = Ok (u', r) ->
  (o <> 1 /\ u' = u /\ r = ("Aborted!", None)) \/
  (o = 1 /\ exists ops, UI.f u' = UI.f u ++ ops).
Proof.
  unfold singleHandler. intros H. destruct (Z.eqb_spec o 1) as [-> | Ho]; simpl in H.
  - right. split; [done|]. unfold backendCall in H.
    destruct (opErr _ _ _).
    + simplify_eq. exists []. by rewrite app_nil_r.
    + apply bind_Ok in H as (u1 & Hr & H). apply removeEntry_quiet in Hr as (Hr & _).
      apply bind_Ok in H as (u2 & Hm & H). simplify_eq.
      exists [op]. destruct (_ >=? _).
      * apply move_quiet in Hm as [(Hm & _) _]. by rewrite Hm, Hr.
      * by simplify_eq.
  - left. by simplify_eq.
Qed.

Lemma deleteSelectedLoop_f env ord : forall i ps u u' ps' e,
  deleteSelectedLoop env ord i ps u = Ok (u', ps', e) ->
  exists ops, UI.f u' = UI.f u ++ ops.
Proof.
  induction ord as [|[key cursorPos] rest IH]; intros i ps u u' ps' e H.
  - simpl in H. simplify_eq. exists []. by rewrite app_nil_r.
  - cbn [deleteSelectedLoop] in H.
    apply bind_Ok in H as (pos & _ & H). apply bind_Ok in H as (dirEntry & _ & H).
    unfold backendCall in H. destruct (opErr _ _ _).
    + simplify_eq. exists []. by rewrite app_nil_r.
    + apply bind_Ok in H as (ps1 & _ & H). apply IH in H as (ops & H).
      simpl in H. rewrite <- app_assoc in H. eauto.
Qed.

Lemma removeEntries_quiet ps : forall u u',
  removeEntries ps u = Ok u' -> quiet u u'.
Proof.
  induction ps as [|p ps IH]; intros u u' H.
  - simpl in H. simplify_eq. apply quiet_refl.
  - cbn [removeEntries] in H. apply bind_Ok in H as (u1 & H1 & H).
    eapply quiet_trans; [by eapply removeEntry_quiet | by eapply IH].
Qed.

Lemma selectedHandler_f env o u u' r :
  selectedHandler env o u = Ok (u', r) ->
  (o <> 1 /\ u' = u /\ r = ("Aborted!", None)) \/
  (o = 1 /\ exists ops, UI.f u' = UI.f u ++ ops).
Proof.
  unfold selectedHandler. intros H. destruct (Z.eqb_spec o 1) as [-> | Ho]; simpl in H.
  - right. split; [done|].
    apply bind_Ok in H as ([[u1 ps] e] & Hl & H).
    apply deleteSelectedLoop_f in Hl as (ops & Hl). exists ops.
    destruct e; [by simplify_eq|].
    apply bind_Ok in H as (ps' & _ & H). apply bind_Ok in H as (u2 & Hr & H).
    apply removeEntries_quiet in Hr as (Hr & _).
    apply bind_Ok in H as (u3 & Hm & H). simplify_eq.
    destruct (_ >=? _).
    + apply move_quiet in Hm as [(Hm & _) _]. by rewrite Hm, Hr.
    + simplify_eq. by rewrite Hr.
  - left. by simplify_eq.
Qed.

Lemma callHandler_f env hd o u u' r :
  callHandler env hd o u = Ok (u', r) ->
  (o <> 1 /\ u' = u /\ r = ("Aborted!", None)) \/
  (o = 1 /\ exists ops, UI.f u' = UI.f u ++ ops).
Proof.
  destruct hd; simpl; eauto using singleHandler_f, selectedHandler_f.
Qed.

(** X4.  With any option but 1 chosen, every handler answers
    [Aborted!] and touches nothing: [handleBoxOption] resets the menu,
    the handler and the option, and shows [Finished: Aborted!]. *)
Theorem handleBoxOption_cancel env hd u :
  UI.boxMenuHandler u = Some hd -> UI.boxMenuButton u <> 1 ->
  handleBoxOption env u = Ok (popupBox ["Finished:"; "Aborted!"] (resetMenu u)).
Proof.
  intros Hh Hb. unfold handleBoxOption. rewrite Hh.
  assert (Hc : callHandler env hd (UI.boxMenuButton u) u = Ok (u, ("Aborted!", None))).
  { destruct hd; simpl; unfold singleHandler, selectedHandler;
      by destruct (Z.eqb_spec (UI.boxMenuButton u) 1). }
  by rewrite Hc.
Qed.

(** X3.  One iteration of the main loop leaves the record of the
    delete and purge calls made on the backend as it was, unless the
    event is the enter key on a menu whose chosen option is 1 (confirm);
    then calls are only added at the end. *)
Theorem backend_only_on_confirm env h ev u u' :
  iteration env h ev u = Ok u' ->
  UI.f u' = UI.f u \/
  (ev = events KeyEnter /\ UI.boxMenu u <> [] /\ UI.boxMenuButton u = 1 /\
   exists ops, UI.f u' = UI.f u ++ ops).
Proof.
  unfold iteration. intros H. apply bind_Ok in H as (u1 & Hd & H).
  apply Draw_shape in Hd. subst u1.
  set (u1 := UI.set_dirListHeight (h - 3) u) in *.
  assert (Hq : forall u2, quiet u1 u2 -> UI.f u2 = UI.f u) by (by intros u2 (-> & _)).
  destruct ev as [root| [err|] | | k].
  - left. apply Hq. by eapply setCurrentDir_quiet.
  - done.
  - left. by simplify_eq.
  - left. apply Hq. by eapply sortCurrentDir_quiet.
  - destruct k; simpl in H; res_inv; subst; try (by left);
      try (left; apply Hq;
           first [ by eapply move_quiet | by eapply enter_quiet
                 | by eapply up_quiet | by eapply toggleSort_quiet
                 | by eapply toggleSelectForCursor_quiet ]).
    all: try (left; unfold moveBox; by destruct (_ =? _)).
    all: try (left; unfold displayPath;
              match goal with
              | |- context [togglePopupBox ?t ?u] =>
                  by destruct (togglePopupBox_menu t u) as (_ & _ & _ & ->)
              end).
    + (* Enter on a menu *)
      unfold handleBoxOption in H.
      destruct (UI.boxMenuHandler u1) as [hd|]; [|done].
      apply bind_Ok in H as ([u2 [msg err]] & Hc & H).
      assert (Hf : UI.f u' = UI.f u2) by (destruct err; by simplify_eq).
      apply callHandler_f in Hc as [(_ & -> & _) | (Hb & ops & Hops)].
      * left. by rewrite Hf.
      * right. split; [done|]. split.
        { intros Hm. change (UI.boxMenu u1) with (UI.boxMenu u) in *.
          by rewrite Hm in *. }
        split; [done|]. exists ops. by rewrite Hf, Hops.
    + (* d *)
      left. unfold delete_, deleteSingle in H. res_inv; by subst.
Qed.

(** *** Failed deletions *)

Lemma deleteSelectedLoop_dirPosMap env ord : forall i ps u u' ps' e,
  deleteSelectedLoop env ord i ps u = Ok (u', ps', e) ->
  UI.dirPosMap u' = UI.dirPosMap u.
Proof.
  induction ord as [|[key cp] rest IH]; intros i ps u u' ps' e H.
  - simpl in H. by simplify_eq.
  - cbn [deleteSelectedLoop] in H.
    apply bind_Ok in H as (pos & _ & H). apply bind_Ok in H as (dirEntry & _ & H).
    unfold backendCall in H. destruct (opErr _ _ _); [by simplify_eq|].
    apply bind_Ok in H as (ps1 & _ & H). by apply IH in H.
Qed.

(** X5.  When [handleBoxOption] ends on the error popup, the directory
    shown, its listing, the permutation and the remembered cursors are
    those from before: nothing is removed from the in-memory tree, for a
    single delete and for a batch delete that fails part-way alike. *)
Theorem handleBoxOption_error_keeps_listing env u u' e :
  handleBoxOption env u = Ok u' ->
  UI.boxText u' = ["error:"; e] ->
  UI.d u' = UI.d u /\ UI.entries u' = UI.entries u /\
  UI.sortPerm u' = UI.sortPerm u /\ UI.dirPosMap u' = UI.dirPosMap u /\
  UI.boxMenu u' = [] /\ UI.showBox u' = true.
Proof.
  unfold handleBoxOption. intros H Ht.
  destruct (UI.boxMenuHandler u) as [hd|]; [|done].
  apply bind_Ok in H as ([u1 [msg err]] & Hc & H).
  destruct err as [e'|]; simplify_eq.
  simpl. assert (Hs : (UI.d u1 = UI.d u /\ UI.entries u1 = UI.entries u) /\
    UI.sortPerm u1 = UI.sortPerm u /\ UI.dirPosMap u1 = UI.dirPosMap u);
    [|tauto].
  destruct hd; simpl in Hc.
  1,2: unfold singleHandler, backendCall in Hc;
    destruct (negb _); [by simplify_eq|];
    destruct (opErr _ _ _); [by simplify_eq|]; res_inv; simplify_eq.
  unfold selectedHandler in Hc. destruct (negb _); [by simplify_eq|].
  apply bind_Ok in Hc as ([[u2 ps] er] & Hl & Hc).
  destruct er; [|res_inv; simplify_eq]. simplify_eq.
  pose proof (deleteSelectedLoop_stable _ _ _ _ _ _ _ _ Hl) as (Hd & He & _).
  pose proof (deleteSelectedLoop_sameSort _ _ _ _ _ _ _ _ Hl) as (Hp & _).
  split; [done|]. split; [done|].
  by eapply deleteSelectedLoop_dirPosMap.
Qed.


(** *** The popup *)

(** X6.  [moveBox] on a menu leaves the chosen option on the menu,
    whatever it was before; from an option on the menu it moves one
    step right or left and stops at the last and the first option. *)
Theorem moveBox_clamps to u :
  UI.boxMenu u <> [] ->
  0 <= UI.boxMenuButton (moveBox to u) < len (UI.boxMenu u) /\
  (0 <= UI.boxMenuButton u < len (UI.boxMenu u) ->
   len (UI.boxMenu u) < 2 ^ 62 ->
   UI.boxMenuButton (moveBox to u) =
     if 0 <? to then Z.min (UI.boxMenuButton u + 1) (len (UI.boxMenu u) - 1)
     else Z.max (UI.boxMenuButton u - 1) 0).
Proof.
  intros Hm. unfold moveBox.
  assert (Hl : 0 < len (UI.boxMenu u)).
  { unfold len. destruct (UI.boxMenu u); [done | simpl; lia]. }
  destruct (Z.eqb_spec (len (UI.boxMenu u)) 0); [lia|]. simpl. split.
  - set (b := if 0 <? to then _ else _). clearbody b. cmp_cases; lia.
  - intros Hb Hlen. destruct (0 <? to); cmp_cases; lia.
Qed.

(** X7.  With a text of at least one line, [togglePopupBox] hides the
    popup when it shows this very text and shows the text otherwise;
    toggling the same text again inverts that; the menu, its handler and
    the chosen option are never touched.  (On an empty text the lists of
    the model cannot tell a nil slice from an empty one, as
    [reflect.DeepEqual] does.) *)
Theorem togglePopupBox_toggles text u :
  text <> [] ->
  let u1 := togglePopupBox text u in
  UI.showBox u1 = negb (UI.showBox u && bool_decide (UI.boxText u = text)) /\
  UI.boxText u1 = text /\
  UI.showBox (togglePopupBox text u1) = negb (UI.showBox u1) /\
  UI.boxMenu u1 = UI.boxMenu u /\ UI.boxMenuButton u1 = UI.boxMenuButton u /\
  UI.boxMenuHandler u1 = UI.boxMenuHandler u.
Proof.
  intros _.
  unfold togglePopupBox, popupBox. destruct (UI.showBox u) eqn:Hs; simpl;
    [destruct (bool_decide_reflect (UI.boxText u = text)) as [Ht|Ht]; simpl|];
    rewrite ?Hs; simpl; rewrite ?bool_decide_eq_true_2 by done; simpl;
    rewrite ?Hs; repeat split; done.
Qed.

(** *** Changing directory *)

Lemma setCurrentDir_total dir u :
  exists perm inv,
    setCurrentDir dir u =
      Ok (UI.set_invSortPerm inv (UI.set_sortPerm perm
           (UI.set_visualSelectMode false (UI.set_selectedEntries ∅
             (UI.set_path (JoinRootPath (UI.fsName u) (dPath dir))
               (UI.set_entries (Entries dir) (UI.set_d (Some dir) u))))))) /\
    perm ≡ₚ iota (length (dChildren dir)).
Proof.
  unfold setCurrentDir.
  match goal with |- context [sortCurrentDir ?v] => set (u0 := v) end.
  destruct (sortCurrentDir_Ok u0) as (perm & inv & Hs & Hp & _); [reflexivity|].
  exists perm, inv. split; [exact Hs|].
  rewrite Hp. subst u0. simpl. by rewrite Entries_length.
Qed.

(** X8.  [setCurrentDir] always succeeds: it shows the directory with
    its listing and display path, clears the selection, leaves visual
    select mode, keeps the sort flags and every remembered cursor, and
    the new permutation is a permutation of the children's indices. *)
Theorem setCurrentDir_Ok dir u :
  exists u', setCurrentDir dir u = Ok u' /\
    UI.d u' = Some dir /\ UI.entries u' = Entries dir /\
    UI.path u' = JoinRootPath (UI.fsName u) (dPath dir) /\
    UI.selectedEntries u' = ∅ /\ UI.visualSelectMode u' = false /\
    UI.dirPosMap u' = UI.dirPosMap u /\
    sameFlags u u' /\
    UI.sortPerm u' ≡ₚ iota (length (dChildren dir)).
Proof.
  destruct (setCurrentDir_total dir u) as (perm & inv & Hs & Hp).
  eexists. split; [exact Hs|]. simpl. repeat split; done.
Qed.

Lemma move_dirPosMap delta u u' p :
  move delta u = Ok u' -> p <> UI.path u ->
  UI.dirPosMap u' !! p = UI.dirPosMap u !! p /\ UI.path u' = UI.path u /\
  UI.fsName u' = UI.fsName u.
Proof.
  unfold move. intros H Hp. destruct (UI.d u); [|by simplify_eq].
  apply bind_Ok in H as (u1 & H1 & H). simplify_eq. simpl.
  assert (Hs : UI.dirPosMap u1 = UI.dirPosMap u /\ UI.path u1 = UI.path u /\
               UI.fsName u1 = UI.fsName u).
  { destruct (UI.visualSelectMode u); [|by simplify_eq].
    by apply toggleSelectForCursor_shape in H1 as (? & ->). }
  destruct Hs as (-> & -> & ->). by rewrite lookup_insert_ne.
Qed.

Lemma moves_dirPosMap deltas : forall u u' p,
  moves deltas u = Ok u' -> p <> UI.path u ->
  UI.dirPosMap u' !! p = UI.dirPosMap u !! p /\ UI.fsName u' = UI.fsName u.
Proof.
  induction deltas as [|delta rest IH]; intros u u' p H Hp.
  - simpl in H. by simplify_eq.
  - cbn [moves] in H. apply bind_Ok in H as (u1 & H1 & H).
    destruct (move_dirPosMap _ _ _ p H1 Hp) as (Hm & Hpa & Hfs).
    destruct (IH u1 u' p H) as (Hm' & Hfs'); [by rewrite Hpa|].
    by rewrite Hm', Hm, Hfs', Hfs.
Qed.

(** X9.  The cursor remembered for a directory is untouched by moves
    made while a directory with another display path is shown: on
    return the cursor is the one stored before. *)
Theorem cursor_kept_elsewhere deltas dirA dirB u u1 u2 u3 :
  JoinRootPath (UI.fsName u) (dPath dirA) <>
    JoinRootPath (UI.fsName u) (dPath dirB) ->
  setCurrentDir dirB u = Ok u1 -> moves deltas u1 = Ok u2 ->
  setCurrentDir dirA u2 = Ok u3 ->
  cursor u3 = lookupPos (UI.dirPosMap u) (JoinRootPath (UI.fsName u) (dPath dirA)).
Proof.
  intros Hne H1 H2 H3.
  apply setCurrentDir_shape in H1 as (p1 & i1 & ->).
  apply setCurrentDir_shape in H3 as (p3 & i3 & ->).
  destruct (moves_dirPosMap _ _ _ (JoinRootPath (UI.fsName u) (dPath dirA)) H2)
    as (Hm & Hfs); [done|].
  unfold cursor, lookupPos. simpl in *. by rewrite Hfs, Hm.
Qed.

(** X10.  Entering the sub-directory under the cursor and going up
    again leads back to the same directory, listing, display path and
    cursor, with the selection cleared and visual select mode off. *)
Theorem enter_up_round_trip env u dir i sub :
  UI.d u = Some dir -> UI.entries u = Entries dir -> UI.entries u <> [] ->
  UI.path u = JoinRootPath (UI.fsName u) (dPath dir) ->
  index (UI.sortPerm u) (entry (cursor u)) = Ok i ->
  GetDir env dir i = Some sub -> Parent env sub = Some dir ->
  exists u1 u2,
    enter env u = Ok u1 /\ UI.d u1 = Some sub /\
    UI.path u1 = JoinRootPath (UI.fsName u) (dPath sub) /\
    up env u1 = Ok u2 /\
    UI.d u2 = Some dir /\ UI.entries u2 = UI.entries u /\
    UI.path u2 = UI.path u /\ cursor u2 = cursor u /\
    UI.selectedEntries u2 = ∅ /\ UI.visualSelectMode u2 = false /\
    UI.sortPerm u2 ≡ₚ iota (length (UI.entries u)).
Proof.
  intros Hd He Hne Hp Hi Hg Hpar.
  destruct (setCurrentDir_total sub u) as (perm1 & inv1 & H1 & _).
  set (u1 := UI.set_invSortPerm inv1 _) in H1.
  destruct (setCurrentDir_total dir u1) as (perm2 & inv2 & H2 & Hperm).
  set (u2 := UI.set_invSortPerm inv2 _) in H2.
  assert (Hd1 : UI.d u1 = Some sub) by done.
  assert (Hp1 : UI.path u1 = JoinRootPath (UI.fsName u) (dPath sub)) by done.
  assert (Hm1 : UI.dirPosMap u1 = UI.dirPosMap u) by done.
  assert (Hd2 : UI.d u2 = Some dir) by done.
  assert (He2 : UI.entries u2 = Entries dir) by done.
  assert (Hp2 : UI.path u2 = JoinRootPath (UI.fsName u1) (dPath dir)) by done.
  assert (Hs2 : UI.selectedEntries u2 = ∅) by done.
  assert (Hv2 : UI.visualSelectMode u2 = false) by done.
  assert (Hm2 : UI.dirPosMap u2 = UI.dirPosMap u1) by done.
  assert (Hperm2 : UI.sortPerm u2 = perm2) by done.
  assert (Hfs : UI.fsName u1 = UI.fsName u) by done.
  clearbody u1 u2.
  exists u1, u2. split.
  { unfold enter. rewrite Hd.
    destruct (Z.eqb_spec (len (UI.entries u)) 0) as [Hz|_].
    - unfold len in Hz. destruct (UI.entries u); [done | simpl in Hz; lia].
    - unfold cursor in Hi. rewrite Hi. cbn [mbind Res_bind]. by rewrite Hg. }
  split; [done|]. split; [done|]. split.
  { unfold up. by rewrite Hd1, Hpar. }
  rewrite Hfs in Hp2.
  repeat split; try done; try congruence.
  - unfold cursor. by rewrite Hm2, Hm1, Hp2, Hp.
  - by rewrite Hperm2, Hperm, He, Entries_length.
Qed.

(** *** The selection *)

(** X11.  [toggleSelectForCursor] flips the membership of the entry
    under the cursor, recording the cursor on insertion.  Twice on an
    unselected entry restores the state; twice on a selected entry
    leaves it selected with the snapshot replaced by the cursor. *)
Theorem toggleSelectForCursor_twice u u1 :
  toggleSelectForCursor u = Ok u1 ->
  exists pos e,
    index (UI.sortPerm u) (entry (cursor u)) = Ok pos /\
    index (UI.entries u) pos = Ok e /\
    UI.selectedEntries u1 !! String_ e =
      match UI.selectedEntries u !! String_ e with
      | Some _ => None
      | None => Some (cursor u)
      end /\
    toggleSelectForCursor u1 =
      Ok (UI.set_selectedEntries
            (match UI.selectedEntries u !! String_ e with
             | None => UI.selectedEntries u
             | Some _ => <[String_ e := cursor u]> (UI.selectedEntries u)
             end) u).
Proof.
  unfold toggleSelectForCursor, cursor. intros H.
  apply bind_Ok in H as (pos & Hp & H). apply bind_Ok in H as (e & He & H).
  exists pos, e. split; [done|]. split; [done|].
  destruct (UI.selectedEntries u !! String_ e) as [s|] eqn:Hs; simplify_eq; simpl.
  - rewrite lookup_delete_eq. split; [done|].
    rewrite Hp. cbn [mbind Res_bind]. rewrite He. cbn [mbind Res_bind].
    rewrite lookup_delete_eq. simpl. by rewrite insert_delete_eq.
  - rewrite lookup_insert_eq. split; [done|].
    rewrite Hp. cbn [mbind Res_bind]. rewrite He. cbn [mbind Res_bind].
    rewrite lookup_insert_eq. simpl. rewrite delete_insert_eq, delete_id by done.
    by destruct u.
Qed.


(** *** [Swap] *)

Lemma swapSlots_inv {A} (l l' : list A) i j :
  swapSlots l i j = Ok l' ->
  exists x y, l !! Z.to_nat i = Some x /\ l !! Z.to_nat j = Some y /\
    0 <= i /\ 0 <= j /\
    l' = <[Z.to_nat j := x]> (<[Z.to_nat i := y]> l).
Proof.
  unfold swapSlots. intros H.
  apply bind_Ok in H as (x & Hx & H). apply bind_Ok in H as (y & Hy & H).
  apply bind_Ok in H as (l1 & H1 & H).
  apply index_Ok in Hx as [Hi Hxl]. apply index_Ok in Hy as [Hj Hyl].
  pose proof (lookup_lt_Some _ _ _ Hxl). pose proof (lookup_lt_Some _ _ _ Hyl).
  rewrite store_Ok in H1 by (unfold len; lia). simplify_eq.
  rewrite store_Ok in H by (unfold len; rewrite length_insert; lia).
  simplify_eq. eauto 10.
Qed.

Lemma swapSlots_lookup {A} (l : list A) (i j : nat) x y (k : nat) :
  l !! i = Some x -> l !! j = Some y ->
  <[j := x]> (<[i := y]> l) !! k =
    if decide (k = j) then Some x
    else if decide (k = i) then Some y else l !! k.
Proof.
  intros Hx Hy.
  pose proof (lookup_lt_Some _ _ _ Hx). pose proof (lookup_lt_Some _ _ _ Hy).
  destruct (decide (k = j)) as [->|Hkj].
  - by rewrite list_lookup_insert_eq by (rewrite length_insert; lia).
  - rewrite list_lookup_insert_ne by done.
    destruct (decide (k = i)) as [->|Hki].
    + by rewrite list_lookup_insert_eq by lia.
    + by rewrite list_lookup_insert_ne by done.
Qed.

(** X12.  [Swap] succeeds only on two slots of the permutation; it
    exchanges their contents, leaves every other slot, the length and
    the multiset of the permutation as they are, and is undone by the
    same [Swap]. *)
Theorem Swap_exchanges ds i j ds' :
  Swap ds i j = Ok ds' ->
  (0 <= i < Len ds /\ 0 <= j < Len ds) /\
  ncduSort.sortPerm ds' !! Z.to_nat i = ncduSort.sortPerm ds !! Z.to_nat j /\
  ncduSort.sortPerm ds' !! Z.to_nat j = ncduSort.sortPerm ds !! Z.to_nat i /\
  (forall k, k <> Z.to_nat i -> k <> Z.to_nat j ->
     ncduSort.sortPerm ds' !! k = ncduSort.sortPerm ds !! k) /\
  ncduSort.sortPerm ds' ≡ₚ ncduSort.sortPerm ds /\
  Len ds' = Len ds /\
  Swap ds' i j = Ok ds.
Proof.
  simpl. unfold ncduSort.Swap, ncduSort.Len. intros H.
  apply bind_Ok in H as (perm & Hs & H). simplify_eq. simpl.
  destruct ds as [l es dd uu]. simpl in *.
  apply swapSlots_inv in Hs as (x & y & Hx & Hy & Hi & Hj & ->).
  pose proof (lookup_lt_Some _ _ _ Hx) as Hil.
  pose proof (lookup_lt_Some _ _ _ Hy) as Hjl.
  pose proof (swapSlots_lookup l _ _ x y (Z.to_nat i) Hx Hy) as Li.
  pose proof (swapSlots_lookup l _ _ x y (Z.to_nat j) Hx Hy) as Lj.
  rewrite decide_True in Lj by done.
  assert (Li' : <[Z.to_nat j:=x]> (<[Z.to_nat i:=y]> l) !! Z.to_nat i = Some y).
  { rewrite Li. destruct (decide (Z.to_nat i = Z.to_nat j)) as [e|_].
    - rewrite e in Hx. congruence.
    - by rewrite decide_True. }
  split; [unfold len; lia|]. split; [congruence|]. split; [congruence|]. split.
  { intros k Hki Hkj. rewrite (swapSlots_lookup l _ _ x y k Hx Hy).
    by rewrite !decide_False. }
  split; [by apply insert_swap_perm|].
  split; [unfold len; by rewrite !length_insert|].
  unfold swapSlots.
  rewrite (proj2 (index_Ok _ i y)) by done. cbn [mbind Res_bind].
  rewrite (proj2 (index_Ok _ j x)) by done. cbn [mbind Res_bind].
  rewrite store_Ok by (unfold len; rewrite !length_insert; lia).
  cbn [mbind Res_bind].
  rewrite store_Ok by (unfold len; rewrite !length_insert; lia).
  cbn [mbind Res_bind]. do 2 f_equal.
  apply list_eq. intros k.
  rewrite (swapSlots_lookup _ _ _ y x k Li' Lj).
  destruct (decide (k = Z.to_nat j)) as [->|Hkj]; [done|].
  destruct (decide (k = Z.to_nat i)) as [->|Hki]; [done|].
  rewrite (swapSlots_lookup l _ _ x y k Hx Hy). by rewrite !decide_False.
Qed.

(** *** [biggestEntry] and [hasEmptyDir] *)

Lemma biggestEntryLoop_Ok u dir todo : forall biggest,
  UI.d u = Some dir ->
  (forall i, i ∈ todo -> exists k c,
     UI.sortPerm u !! i = Some (Z.of_nat k) /\ dChildren dir !! k = Some c) ->
  exists m, biggestEntryLoop u todo biggest = Ok m /\ biggest <= m /\
    (forall (i k : nat) c, i ∈ todo -> UI.sortPerm u !! i = Some (Z.of_nat k) ->
       dChildren dir !! k = Some c -> Size c.2 <= m) /\
    (m = biggest \/ exists c, c ∈ dChildren dir /\ Size c.2 = m).
Proof.
  intros biggest Hd. revert biggest.
  induction todo as [|i todo IH]; intros biggest Hin.
  - exists biggest. simpl. split; [done|]. split; [lia|]. split; [|by left].
    intros ? ? ? Hi. by apply elem_of_nil in Hi.
  - destruct (Hin i) as (k & c & Hk & Hc); [by left|].
    cbn [biggestEntryLoop]. rewrite (index_of_nat _ _ _ Hk). cbn [mbind Res_bind].
    unfold AttrI. rewrite Hd. rewrite (index_of_nat _ _ _ Hc). cbn [mbind Res_bind].
    set (b' := if Size c.2 >? biggest then Size c.2 else biggest).
    destruct (IH b') as (m & Hm & Hle & Hall & Hex).
    { intros i' Hi'. apply Hin. by right. }
    assert (Hb' : biggest <= b' /\ Size c.2 <= b').
    { subst b'. destruct (Z.gtb_spec (Size c.2) biggest); lia. }
    exists m. split; [done|]. split; [lia|]. split.
    + intros i' k' c' Hi' Hk' Hc'. apply elem_of_cons in Hi' as [->|Hi'].
      * assert (k' = k) as -> by (rewrite Hk in Hk'; apply Nat2Z.inj; congruence). rewrite Hc in Hc'. simplify_eq. lia.
      * by eapply Hall.
    + destruct Hex as [->|Hex]; [|by right].
      subst b'. destruct (Z.gtb_spec (Size c.2) biggest); [|by left].
      right. exists c. split; [|done]. by eapply list_elem_of_lookup_2.
Qed.

Lemma sortPerm_slots u dir :
  UI.entries u = Entries dir ->
  UI.sortPerm u ≡ₚ iota (length (UI.entries u)) ->
  (forall i, i ∈ seq 0 (length (UI.entries u)) -> exists k c,
     UI.sortPerm u !! i = Some (Z.of_nat k) /\ dChildren dir !! k = Some c) /\
  (forall k c, dChildren dir !! k = Some c -> exists i,
     i ∈ seq 0 (length (UI.entries u)) /\ UI.sortPerm u !! i = Some (Z.of_nat k)).
Proof.
  intros He Hp. split.
  - intros i Hi. apply elem_of_seq in Hi.
    destruct (perm_lookup_range _ _ i Hp) as (k & Hk & Hkn); [lia|].
    rewrite He, Entries_length in Hkn.
    destruct (lookup_lt_is_Some_2 (dChildren dir) k Hkn) as [c Hc]. eauto.
  - intros k c Hc. apply lookup_lt_Some in Hc.
    assert (Hin : Z.of_nat k ∈ UI.sortPerm u).
    { rewrite Hp. apply iota_elem. rewrite He, Entries_length. lia. }
    apply list_elem_of_lookup in Hin as (i & Hi). exists i. split; [|done].
    apply lookup_lt_Some in Hi. rewrite Hp, iota_length in Hi.
    apply elem_of_seq. lia.
Qed.

(** X13.  On a permutation in step with the listing, [biggestEntry]
    returns the largest size among the children, and 0 when no child
    has a positive size. *)
Theorem biggestEntry_max u dir :
  UI.d u = Some dir -> UI.entries u = Entries dir ->
  UI.sortPerm u ≡ₚ iota (length (UI.entries u)) ->
  exists m, biggestEntry u = Ok m /\ 0 <= m /\
    (forall c, c ∈ dChildren dir -> Size c.2 <= m) /\
    (m = 0 \/ exists c, c ∈ dChildren dir /\ Size c.2 = m).
Proof.
  intros Hd He Hp. destruct (sortPerm_slots u dir He Hp) as [Hto Hfrom].
  unfold biggestEntry. rewrite Hd.
  destruct (biggestEntryLoop_Ok u dir _ 0 Hd Hto) as (m & Hm & Hle & Hall & Hex).
  exists m. split; [done|]. split; [done|]. split; [|done].
  intros c Hc. apply list_elem_of_lookup in Hc as (k & Hk).
  destruct (Hfrom k c Hk) as (i & Hi & Hik). by eapply Hall.
Qed.

Lemma hasEmptyDirLoop_Ok u dir todo :
  UI.d u = Some dir ->
  (forall i, i ∈ todo -> exists k c,
     UI.sortPerm u !! i = Some (Z.of_nat k) /\ dChildren dir !! k = Some c) ->
  exists b, hasEmptyDirLoop u todo = Ok b /\
    (b = true <-> exists (i k : nat) c, i ∈ todo /\
       UI.sortPerm u !! i = Some (Z.of_nat k) /\ dChildren dir !! k = Some c /\
       IsDir c.2 = true /\ Count c.2 = 0).
Proof.
  intros Hd. induction todo as [|i todo IH]; intros Hin.
  - exists false. simpl. split; [done|]. split; [done|].
    intros (i & ? & ? & Hi & _). by apply elem_of_nil in Hi.
  - destruct (Hin i) as (k & c & Hk & Hc); [by left|].
    cbn [hasEmptyDirLoop]. rewrite (index_of_nat _ _ _ Hk). cbn [mbind Res_bind].
    unfold AttrI. rewrite Hd. rewrite (index_of_nat _ _ _ Hc). cbn [mbind Res_bind].
    destruct (IsDir c.2) eqn:Hdir; simpl.
    + destruct (Z.eqb_spec (Count c.2) 0) as [Hz|Hz].
      * exists true. split; [done|]. split; [|done]. intros _.
        exists i, k, c. split; [by left|]. done.
      * destruct IH as (b & Hb & Hiff); [intros; apply Hin; by right|].
        exists b. split; [done|]. rewrite Hiff. split.
        -- intros (i' & k' & c' & Hi' & ?). exists i', k', c'. split; [by right | done].
        -- intros (i' & k' & c' & Hi' & Hk' & Hc' & Hd' & Hz').
           apply elem_of_cons in Hi' as [->|Hi']; [|by eauto 10].
           assert (k' = k) as -> by (rewrite Hk in Hk'; apply Nat2Z.inj; congruence).
           rewrite Hc in Hc'. by simplify_eq.
    + destruct IH as (b & Hb & Hiff); [intros; apply Hin; by right|].
      exists b. split; [done|]. rewrite Hiff. split.
      * intros (i' & k' & c' & Hi' & ?). exists i', k', c'. split; [by right | done].
      * intros (i' & k' & c' & Hi' & Hk' & Hc' & Hd' & Hz').
        apply elem_of_cons in Hi' as [->|Hi']; [|by eauto 10].
        assert (k' = k) as -> by (rewrite Hk in Hk'; apply Nat2Z.inj; congruence).
        rewrite Hc in Hc'. simplify_eq. congruence.
Qed.

(** X14.  On a permutation in step with the listing, [hasEmptyDir]
    returns true exactly when some child is a directory with a count of
    0. *)
Theorem hasEmptyDir_spec u dir :
  UI.d u = Some dir -> UI.entries u = Entries dir ->
  UI.sortPerm u ≡ₚ iota (length (UI.entries u)) ->
  exists b, hasEmptyDir u = Ok b /\
    (b = true <->
     exists c, c ∈ dChildren dir /\ IsDir c.2 = true /\ Count c.2 = 0).
Proof.
  intros Hd He Hp. destruct (sortPerm_slots u dir He Hp) as [Hto Hfrom].
  unfold hasEmptyDir. rewrite Hd.
  destruct (hasEmptyDirLoop_Ok u dir _ Hd Hto) as (b & Hb & Hiff).
  exists b. split; [done|]. rewrite Hiff. split.
  - intros (i & k & c & _ & _ & Hc & ?). exists c. split; [|done].
    by eapply list_elem_of_lookup_2.
  - intros (c & Hc & ?). apply list_elem_of_lookup in Hc as (k & Hk).
    destruct (Hfrom k c Hk) as (i & Hi & Hik). eauto 10.
Qed.


(** *** [Draw] *)

Lemma drawRows_Ok u dir h rows : forall y n,
  UI.d u = Some dir -> UI.entries u = Entries dir ->
  UI.sortPerm u ≡ₚ iota (length (UI.entries u)) ->
  rows = drop n (UI.sortPerm u) ->
  drawRows u h y (Z.of_nat n) rows = Ok tt.
Proof.
  induction rows as [|j rows IH]; intros y n Hd He Hp Hr; [done|].
  assert (Hn : UI.sortPerm u !! n = Some j).
  { rewrite <- (Nat.add_0_r n), <- lookup_drop, <- Hr. done. }
  assert (Hj : 0 <= j < len (UI.entries u)).
  { apply iota_elem. rewrite <- Hp. by eapply list_elem_of_lookup_2. }
  destruct (lookup_lt_is_Some_2 (UI.entries u) (Z.to_nat j)) as [e Hje];
    [unfold len in Hj; lia|].
  destruct (lookup_lt_is_Some_2 (dChildren dir) (Z.to_nat j)) as [c Hjc].
  { rewrite <- Entries_length, <- He. unfold len in Hj. lia. }
  cbn [drawRows]. rewrite (proj2 (index_Ok _ j e)) by (split; [lia | done]).
  cbn [mbind Res_bind]. destruct (y >=? h - 1); [done|].
  rewrite (index_of_nat _ _ _ Hn). cbn [mbind Res_bind].
  unfold AttrI. rewrite Hd. rewrite (proj2 (index_Ok _ j c)) by (split; [lia | done]).
  cbn [mbind Res_bind].
  replace (Z.of_nat n + 1) with (Z.of_nat (S n)) by lia.
  apply IH; try done.
  rewrite (drop_S _ _ _ Hn) in Hr. by simplify_eq.
Qed.

(** X15.  [Draw] completes, changing [dirListHeight] to the terminal
    height minus 3 and nothing else, when the listing held is the
    node's, the permutation is in step with it and the offset of the
    viewport lies between 0 and the number of rows. *)
Theorem Draw_Ok h u :
  consistent u -> UI.sortPerm u ≡ₚ iota (length (UI.entries u)) ->
  (UI.d u <> None -> 0 <= offset (cursor u) <= len (UI.entries u)) ->
  Draw h u = Ok (UI.set_dirListHeight (h - 3) u).
Proof.
  intros Hc Hp Ho. unfold Draw. cbn zeta.
  set (u1 := UI.set_dirListHeight (h - 3) u).
  change (UI.d u1) with (UI.d u). unfold consistent in Hc.
  destruct (UI.d u) as [dir|] eqn:Hd; [|done].
  specialize (Ho ltac:(done)).
  destruct (sortPerm_slots u1 dir Hc Hp) as [Hto _].
  unfold biggestEntry, hasEmptyDir. change (UI.d u1) with (UI.d u). rewrite Hd.
  destruct (biggestEntryLoop_Ok u1 dir _ 0 Hd Hto) as (m & -> & _).
  destruct (hasEmptyDirLoop_Ok u1 dir _ Hd Hto) as (b & -> & _).
  cbn [mbind Res_bind]. unfold sliceFrom.
  change (lookupPos (UI.dirPosMap u1) (UI.path u1)) with (cursor u).
  change (UI.sortPerm u1) with (UI.sortPerm u).
  assert (Hl : len (UI.sortPerm u) = len (UI.entries u)).
  { unfold len. by rewrite Hp, iota_length. }
  rewrite Hl.
  destruct (Z.leb_spec 0 (offset (cursor u))); [|lia].
  destruct (Z.leb_spec (offset (cursor u)) (len (UI.entries u))); [|lia].
  cbn [andb mbind Res_bind].
  pose proof (drawRows_Ok u1 dir h _ 2 (Z.to_nat (offset (cursor u)))
                Hd Hc Hp eq_refl) as Hdr.
  rewrite Z2Nat.id in Hdr by lia.
  change (UI.sortPerm u1) with (UI.sortPerm u) in Hdr. by rewrite Hdr.
Qed.

(** *** The delete dialogs *)

(** X16.  [delete] does nothing without a directory or without rows.
    Otherwise it opens the cancel/confirm popup, with the batch handler
    when something is selected, and else with the handler of the entry
    under the cursor: the file handler for an object, the purge handler
    for a directory, the last line of the text being the entry's path.
    It never calls the backend, changes the listing, the selection or a
    cursor, and it keeps the option chosen before. *)
Theorem delete_opens_menu u u' :
  delete_ u = Ok u' ->
  (UI.d u = None \/ UI.entries u = [] -> u' = u) /\
  (UI.d u <> None -> UI.entries u <> [] ->
   UI.boxMenu u' = ["cancel"; "confirm"] /\ UI.showBox u' = true /\
   UI.boxMenuButton u' = UI.boxMenuButton u /\
   (UI.selectedEntries u <> ∅ ->
    UI.boxMenuHandler u' = Some deleteSelectedHandler) /\
   (UI.selectedEntries u = ∅ ->
    exists pos e,
      index (UI.sortPerm u) (entry (cursor u)) = Ok pos /\
      index (UI.entries u) pos = Ok e /\
      UI.boxMenuHandler u' =
        Some (if isObject e then deleteFileHandler (cursor u) pos e
              else purgeHandler (cursor u) pos e) /\
      last (UI.boxText u') = Some (JoinRootPath (UI.fsName u) (String_ e)))) /\
  UI.f u' = UI.f u /\ stable u u' /\
  UI.selectedEntries u' = UI.selectedEntries u /\
  UI.dirPosMap u' = UI.dirPosMap u.
Proof.
  intros H. pose proof (delete_stable _ _ H) as Hst. split; [|split].
  - unfold delete_ in H. intros [Hd | He].
    + rewrite Hd in H. by simplify_eq.
    + rewrite He in H. destruct (UI.d u); simpl in H; by simplify_eq.
  - intros Hd He. unfold delete_ in H. destruct (UI.d u); [|done].
    destruct (Z.eqb_spec (len (UI.entries u)) 0) as [Hz|_].
    { unfold len in Hz. destruct (UI.entries u); [done | simpl in Hz; lia]. }
    destruct (0 <? size (UI.selectedEntries u))%nat eqn:Hsz.
    + simplify_eq. simpl. repeat split; try done.
      intros Hs. rewrite Hs, map_size_empty in Hsz. done.
    + apply Nat.ltb_ge in Hsz.
      assert (Hs : UI.selectedEntries u = ∅) by (apply map_size_empty_iff; lia).
      unfold deleteSingle in H.
      apply bind_Ok in H as (pos & Hp & H). apply bind_Ok in H as (e & Hee & H).
      destruct (isObject e) eqn:Hob; simplify_eq; simpl;
        (repeat split; try done; intros _; exists pos, e; by rewrite Hob).
  - unfold delete_, deleteSingle in H. res_inv; by subst.
Qed.

(** X17.  A batch delete confirmed on an empty selection reports
    success without any backend call and removes nothing. *)
Theorem deleteSelected_empty env u :
  rangeOrderOk env -> UI.selectedEntries u = ∅ ->
  UI.visualSelectMode u = false ->
  exists u', selectedHandler env 1 u
               = Ok (u', ("Successfully deleted all items!", None)) /\
    UI.f u' = UI.f u /\ UI.d u' = UI.d u /\ UI.entries u' = UI.entries u /\
    UI.sortPerm u' = UI.sortPerm u /\ UI.selectedEntries u' = ∅.
Proof.
  intros Hro Hs Hv. unfold selectedHandler. simpl negb. cbn iota.
  rewrite Hs, map_size_empty.
  assert (Hnil : rangeOrder env ∅ = []).
  { apply Permutation_nil_r. rewrite (Hro ∅). by rewrite map_to_list_empty. }
  rewrite Hnil. simpl.
  destruct (entry _ >=? len _).
  - destruct (UI.d u) eqn:Hd.
    + destruct (move_plain (-1) u) as (p & Hm); [by rewrite Hd | done|].
      rewrite Hm. cbn [mbind Res_bind]. eexists. split; [done|]. by simpl.
    + unfold move. rewrite Hd. cbn [mbind Res_bind]. eexists. split; [done|].
      by rewrite Hd.
  - cbn [mbind Res_bind]. eexists. split; [done|]. done.
Qed.

(** *** The comparator as an order *)

Lemma String_ltb_irrefl a : String.ltb a a = false.
Proof.
  unfold String.ltb. pose proof (String.compare_antisym a a) as H.
  destruct (String.compare a a); simpl in H; congruence.
Qed.

Lemma String_ltb_lt a b : String.ltb a b = true <-> OrderedTypeEx.String_as_OT.lt a b.
Proof.
  rewrite <- OrderedTypeEx.String_as_OT.cmp_lt.
  unfold String.ltb, OrderedTypeEx.String_as_OT.cmp.
  destruct (String.compare a b); split; congruence.
Qed.

Lemma String_ltb_trans a b c :
  String.ltb a b = true -> String.ltb b c = true -> String.ltb a c = true.
Proof.
  rewrite !String_ltb_lt. apply OrderedTypeEx.String_as_OT.lt_trans.
Qed.


Lemma String_ltb_asym a b : String.ltb a b = true -> String.ltb b a = false.
Proof.
  intros H. destruct (decide (a = b)) as [->|Hne].
  - by rewrite String_ltb_irrefl in H.
  - rewrite (ltb_total a b Hne) in H. by apply negb_true_iff in H.
Qed.

Lemma String_ltb_negtrans a b c :
  String.ltb a b = false -> String.ltb b c = false -> String.ltb a c = false.
Proof.
  intros Hab Hbc. destruct (String.ltb a c) eqn:Hac; [|done].
  destruct (decide (a = b)) as [->|Hne1]; [congruence|].
  destruct (decide (b = c)) as [->|Hne2]; [congruence|].
  rewrite (ltb_total a b Hne1) in Hab. apply negb_false_iff in Hab.
  rewrite (ltb_total b c Hne2) in Hbc. apply negb_false_iff in Hbc.
  pose proof (String_ltb_trans _ _ _ Hbc Hab) as Hca.
  apply String_ltb_asym in Hca. congruence.
Qed.

Lemma lexLess_irrefl x n : lexLess x x n n = false.
Proof. unfold lexLess. rewrite Z.eqb_refl. simpl. apply String_ltb_irrefl. Qed.

Lemma lexLess_trans x y z a b c :
  lexLess x y a b = true -> lexLess y z b c = true -> lexLess x z a c = true.
Proof.
  unfold lexLess.
  destruct (Z.eqb_spec x y), (Z.eqb_spec y z), (Z.eqb_spec x z); simpl;
    rewrite ?Z.ltb_lt; try lia; try done.
  apply String_ltb_trans.
Qed.

Lemma lexLess_negtrans x y z a b c :
  lexLess x y a b = false -> lexLess y z b c = false -> lexLess x z a c = false.
Proof.
  unfold lexLess.
  destruct (Z.eqb_spec x y), (Z.eqb_spec y z), (Z.eqb_spec x z); simpl;
    rewrite ?Z.ltb_ge; try lia; try done.
  apply String_ltb_negtrans.
Qed.

Lemma lexLess_total x y a b :
  a <> b -> lexLess x y a b = true \/ lexLess y x b a = true.
Proof.
  intros Hne. unfold lexLess.
  destruct (Z.eqb_spec x y), (Z.eqb_spec y x); simpl;
    rewrite ?Z.ltb_lt; try lia.
  rewrite (ltb_total a b Hne). destruct (String.ltb b a); simpl; auto.
Qed.

(** The shape of the comparator under every key but the average size. *)
Lemma lessAttrs_shape u :
  selectedKey u <> Some ByAverageSize ->
  (forall ia ja iname jname,
     ncduSort.lessAttrs u ia ja iname jname = String.ltb jname iname) \/
  exists key : Attrs -> Z, forall ia ja iname jname,
     ncduSort.lessAttrs u ia ja iname jname
     = lexLess (key ia) (key ja) iname jname.
Proof.
  intros Hk. unfold selectedKey in Hk. unfold ncduSort.lessAttrs, lexLess.
  destruct (Z.ltb_spec (UI.sortByName u) 0); [by left|].
  destruct (Z.ltb_spec 0 (UI.sortByName u)).
  { right. exists (fun _ => 0). intros. by rewrite Z.eqb_refl. }
  destruct (Z.ltb_spec (UI.sortBySize u) 0).
  { right. by exists Size. }
  destruct (Z.ltb_spec 0 (UI.sortBySize u)).
  { right. exists (fun a => - Size a). intros.
    destruct (Z.eqb_spec (Size ia) (Size ja)), (Z.eqb_spec (- Size ia) (- Size ja));
      simpl; try lia; try done. }
  destruct (Z.ltb_spec (UI.sortByCount u) 0).
  { right. by exists Count. }
  destruct (Z.ltb_spec 0 (UI.sortByCount u)).
  { right. exists (fun a => - Count a). intros.
    destruct (Z.eqb_spec (Count ia) (Count ja)), (Z.eqb_spec (- Count ia) (- Count ja));
      simpl; try lia; try done. }
  assert (Hn : UI.sortByName u = 0) by lia.
  assert (Hs : UI.sortBySize u = 0) by lia.
  assert (Hc : UI.sortByCount u = 0) by lia.
  rewrite Hn, Hs, Hc in Hk. simpl in Hk.
  destruct (Z.eqb_spec (UI.sortByAverageSize u) 0) as [Ha|Ha]; [|done].
  rewrite Ha. simpl.
  right. exists (fun _ => 0). intros. by rewrite Z.eqb_refl.
Qed.

Lemma lessAttrs_irrefl u a n :
  selectedKey u <> Some ByAverageSize -> ncduSort.lessAttrs u a a n n = false.
Proof.
  intros Hk. destruct (lessAttrs_shape u Hk) as [H | [key H]]; rewrite H.
  - apply String_ltb_irrefl.
  - apply lexLess_irrefl.
Qed.

Lemma lessAttrs_trans u a b c na nb nc :
  selectedKey u <> Some ByAverageSize ->
  ncduSort.lessAttrs u a b na nb = true ->
  ncduSort.lessAttrs u b c nb nc = true ->
  ncduSort.lessAttrs u a c na nc = true.
Proof.
  intros Hk. destruct (lessAttrs_shape u Hk) as [H | [key H]]; rewrite !H.
  - intros ? ?. by eapply String_ltb_trans.
  - apply lexLess_trans.
Qed.

Lemma lessAttrs_negtrans u a b c na nb nc :
  selectedKey u <> Some ByAverageSize ->
  ncduSort.lessAttrs u a b na nb = false ->
  ncduSort.lessAttrs u b c nb nc = false ->
  ncduSort.lessAttrs u a c na nc = false.
Proof.
  intros Hk. destruct (lessAttrs_shape u Hk) as [H | [key H]]; rewrite !H.
  - intros ? ?. by eapply String_ltb_negtrans.
  - apply lexLess_negtrans.
Qed.

Lemma lessAttrs_asym u a b na nb :
  selectedKey u <> Some ByAverageSize ->
  ncduSort.lessAttrs u a b na nb = true ->
  ncduSort.lessAttrs u b a nb na = false.
Proof.
  intros Hk Hab. destruct (ncduSort.lessAttrs u b a nb na) eqn:Hba; [|done].
  pose proof (lessAttrs_trans _ _ _ _ _ _ _ Hk Hab Hba) as Haa.
  by rewrite lessAttrs_irrefl in Haa.
Qed.

Lemma lessAttrs_total u a b na nb :
  selectedKey u <> Some ByAverageSize -> na <> nb ->
  ncduSort.lessAttrs u a b na nb = true \/ ncduSort.lessAttrs u b a nb na = true.
Proof.
  intros Hk Hne. destruct (lessAttrs_shape u Hk) as [H | [key H]]; rewrite !H.
  - rewrite (ltb_total na nb Hne). destruct (String.ltb nb na); simpl; auto.
  - by apply lexLess_total.
Qed.

(** X18.  Under every sort key but the average size, the comparison
    of [Less] is a strict weak order: irreflexive, transitive, with a
    transitive incomparability; and two entries of different names are
    always ordered, one way exactly. *)
Theorem lessAttrs_strict_weak_order u :
  selectedKey u <> Some ByAverageSize ->
  (forall a n, ncduSort.lessAttrs u a a n n = false) /\
  (forall a b c na nb nc,
     ncduSort.lessAttrs u a b na nb = true ->
     ncduSort.lessAttrs u b c nb nc = true ->
     ncduSort.lessAttrs u a c na nc = true) /\
  (forall a b c na nb nc,
     ncduSort.lessAttrs u a b na nb = false ->
     ncduSort.lessAttrs u b c nb nc = false ->
     ncduSort.lessAttrs u a c na nc = false) /\
  (forall a b na nb, na <> nb ->
     ncduSort.lessAttrs u a b na nb = negb (ncduSort.lessAttrs u b a nb na)).
Proof.
  intros Hk. split; [|split; [|split]].
  - intros. by apply lessAttrs_irrefl.
  - intros ? ? ? ? ? ?. by apply lessAttrs_trans.
  - intros ? ? ? ? ? ?. by apply lessAttrs_negtrans.
  - intros a b na nb Hne.
    destruct (ncduSort.lessAttrs u a b na nb) eqn:Hab.
    + by rewrite (lessAttrs_asym _ _ _ _ _ Hk Hab).
    + destruct (lessAttrs_total u a b na nb Hk Hne) as [H|H]; [congruence|].
      by rewrite H.
Qed.


Section SortedRows.
Context (u : UI) (dir : Dir).
Hypothesis Hkey : selectedKey u <> Some ByAverageSize.

Lemma Less_children perm uu (i j : nat) p q :
  sameFlags u uu -> perm !! i = Some p -> perm !! j = Some q ->
  validChild dir p -> validChild dir q ->
  Less (ncduSort.mk perm (Entries dir) (Some dir) uu) (Z.of_nat i) (Z.of_nat j)
  = Ok (childLess u dir p q).
Proof.
  intros Hf Hi Hj Hp Hq. unfold validChild, len in *.
  destruct (lookup_lt_is_Some_2 (dChildren dir) (Z.to_nat p)) as [c Hc]; [lia|].
  destruct (lookup_lt_is_Some_2 (dChildren dir) (Z.to_nat q)) as [c' Hc']; [lia|].
  cbn [Less ncduSort_Interface]. unfold ncduSort.Less. simpl.
  rewrite (index_of_nat _ _ _ Hi). cbn [mbind Res_bind].
  rewrite (proj2 (index_Ok _ p c)) by (split; [lia | done]). cbn [mbind Res_bind].
  rewrite (index_of_nat _ _ _ Hj). cbn [mbind Res_bind].
  rewrite (proj2 (index_Ok _ q c')) by (split; [lia | done]). cbn [mbind Res_bind].
  unfold Entries.
  rewrite (proj2 (index_Ok _ p c.1)) by (split; [lia | by rewrite list_lookup_fmap, Hc]).
  cbn [mbind Res_bind].
  rewrite (proj2 (index_Ok _ q c'.1)) by (split; [lia | by rewrite list_lookup_fmap, Hc']).
  cbn [mbind Res_bind]. unfold childLess. rewrite Hc, Hc'.
  f_equal. symmetry. by apply lessAttrs_sameFlags.
Qed.

Lemma childLess_asym p q : childLess u dir p q = true -> childLess u dir q p = false.
Proof.
  unfold childLess. destruct (dChildren dir !! Z.to_nat p), (dChildren dir !! Z.to_nat q);
    try done. by apply lessAttrs_asym.
Qed.

Lemma childLess_negtrans p q r :
  validChild dir q ->
  childLess u dir p q = false -> childLess u dir q r = false ->
  childLess u dir p r = false.
Proof.
  intros Hq. unfold validChild, len in Hq.
  destruct (lookup_lt_is_Some_2 (dChildren dir) (Z.to_nat q)) as [c Hc]; [lia|].
  unfold childLess. rewrite Hc.
  destruct (dChildren dir !! Z.to_nat p), (dChildren dir !! Z.to_nat r); try done.
  by apply lessAttrs_negtrans.
Qed.

Lemma ncduSort_inner uu j : forall pre x rest,
  sameFlags u uu -> length pre = j -> Forall (validChild dir) (pre ++ x :: rest) ->
  exists pre1 pre2,
    pre = pre1 ++ pre2 /\
    insertionInner j (ncduSort.mk (pre ++ x :: rest) (Entries dir) (Some dir) uu)
    = Ok (ncduSort.mk (pre1 ++ x :: pre2 ++ rest) (Entries dir) (Some dir) uu) /\
    Forall (fun y => childLess u dir x y = true) pre2 /\
    (forall y, last pre1 = Some y -> childLess u dir x y = false).
Proof.
  induction j as [|j IH]; intros pre x rest Hf Hlen Hv.
  - destruct pre; [|done]. exists [], []. repeat split; try done.
  - destruct (decide (pre = [])) as [->|Hne]; [done|].
    destruct (exists_last Hne) as (pre' & [y ->]).
    rewrite length_app in Hlen. simpl in Hlen.
    assert (Hj : length pre' = j) by lia. subst j. clear Hlen.
    cbn [insertionInner]. rewrite <- app_assoc in *. cbn [app] in *.
    pose proof Hv as Hv'. apply Forall_app in Hv' as [Hvpre Hv'].
    apply Forall_cons in Hv' as [Hvy Hv']. apply Forall_cons in Hv' as [Hvx Hvrest].
    rewrite (Less_children _ uu (S (length pre')) (length pre') x y); try done.
    2:{ rewrite lookup_app_r by lia.
        by replace (S (length pre') - length pre')%nat with 1%nat by lia. }
    2:{ by rewrite list_lookup_middle. }
    cbn [mbind Res_bind].
    destruct (childLess u dir x y) eqn:Hlt.
    + cbn [Swap ncduSort_Interface]. unfold ncduSort.Swap. simpl.
      rewrite swapSlots_adjacent. cbn [mbind Res_bind].
      destruct (IH pre' x (y :: rest) Hf eq_refl) as (p1 & p2 & -> & Hi & Hall & Hlast).
      { apply Forall_app. split; [done|].
        apply Forall_cons. split; [done|]. by apply Forall_cons. }
      exists p1, (p2 ++ [y]). split; [by rewrite app_assoc|]. split.
      * rewrite length_app in Hi. rewrite length_app. rewrite Hi.
        by rewrite <- !app_assoc.
      * split; [|done]. apply Forall_app. split; [done|]. by constructor.
    + exists (pre' ++ [y]), []. split; [by rewrite app_nil_r|]. split.
      * by rewrite <- app_assoc.
      * split; [constructor|]. intros z. rewrite last_snoc. by intros [= <-].
Qed.

Lemma sortedRows_insert pre1 pre2 x :
  Forall (validChild dir) pre1 ->
  sortedRows u dir (pre1 ++ pre2) ->
  Forall (fun y => childLess u dir x y = true) pre2 ->
  (forall y, last pre1 = Some y -> childLess u dir x y = false) ->
  sortedRows u dir (pre1 ++ x :: pre2).
Proof.
  unfold sortedRows. intros Hv Hs Hall Hlast.
  apply StronglySorted_app in Hs as (Hcross & H1 & H2).
  apply StronglySorted_app. split; [|split].
  - intros a b Ha Hb. apply elem_of_cons in Hb as [->|Hb]; [|by apply Hcross].
    destruct (decide (pre1 = [])) as [->|Hne]; [by apply elem_of_nil in Ha|].
    destruct (exists_last Hne) as (p & [y ->]).
    specialize (Hlast y (last_snoc _ _)).
    apply elem_of_app in Ha as [Ha|Ha].
    + apply StronglySorted_app in H1 as (Hc & _ & _).
      specialize (Hc a y Ha ltac:(left)). simpl in Hc.
      apply (childLess_negtrans x y a); [|done|done].
      apply Forall_app in Hv as [_ Hvy]. exact (Forall_inv Hvy).
    + apply list_elem_of_singleton in Ha as ->. done.
  - done.
  - apply StronglySorted_cons. split; [|done].
    eapply Forall_impl; [exact Hall|]. simpl. intros b. apply childLess_asym.
Qed.

Lemma ncduSort_outer uu m : forall i (l : list Z),
  sameFlags u uu -> Forall (validChild dir) l ->
  (i + m)%nat = length l -> (0 < i)%nat -> sortedRows u dir (take i l) ->
  exists l',
    insertionOuter (seq i m) (ncduSort.mk l (Entries dir) (Some dir) uu)
    = Ok (ncduSort.mk l' (Entries dir) (Some dir) uu) /\
    l' ≡ₚ l /\ sortedRows u dir l'.
Proof.
  induction m as [|m IH]; intros i l Hf Hv Hlen Hi Hs.
  - exists l. split; [done|]. split; [done|].
    rewrite take_ge in Hs by lia. done.
  - cbn [seq insertionOuter].
    destruct (lookup_lt_is_Some_2 l i) as [x Hx]; [lia|].
    rewrite <- (take_drop_middle l i x Hx). rewrite <- (take_drop_middle l i x Hx) in Hv.
    destruct (ncduSort_inner uu i (take i l) x (drop (S i) l))
      as (p1 & p2 & Hp & Hin & Hall & Hlast); [done | rewrite length_take; lia | done |].
    rewrite Hin. cbn [mbind Res_bind].
    assert (Hp12 : length (p1 ++ p2) = i) by (rewrite <- Hp, length_take; lia).
    assert (Hperm : p1 ++ x :: p2 ++ drop (S i) l ≡ₚ take i l ++ x :: drop (S i) l).
    { rewrite Hp, <- !app_assoc. f_equiv. simpl. by rewrite Permutation_middle. }
    destruct (IH (S i) (p1 ++ x :: p2 ++ drop (S i) l)) as (l' & Ho & Hperm' & Hd).
    + done.
    + by rewrite Hperm.
    + rewrite length_app in *. simpl. rewrite length_app, length_drop. lia.
    + lia.
    + replace (p1 ++ x :: p2 ++ drop (S i) l)
        with ((p1 ++ x :: p2) ++ drop (S i) l)
        by (by rewrite <- app_assoc).
      rewrite take_app_length'.
      * apply sortedRows_insert; [|by rewrite <- Hp | done | done].
        apply Forall_app in Hv as [Hv _]. rewrite Hp in Hv.
        by apply Forall_app in Hv as [Hv _].
      * rewrite length_app in *. simpl. lia.
    + exists l'. split; [done|]. split; [|done]. by rewrite Hperm'.
Qed.

Lemma ncduSort_sort uu (l : list Z) :
  sameFlags u uu -> Forall (validChild dir) l ->
  exists l',
    sort_Sort (ncduSort.mk l (Entries dir) (Some dir) uu)
    = Ok (ncduSort.mk l' (Entries dir) (Some dir) uu) /\
    l' ≡ₚ l /\ sortedRows u dir l'.
Proof.
  intros Hf Hv. unfold sort_Sort. cbn [Len ncduSort_Interface].
  unfold ncduSort.Len, len. simpl. rewrite Nat2Z.id. destruct l as [|x l].
  - exists []. repeat split; try done. constructor.
  - cbn [length]. replace (S (length l) - 1)%nat with (length l) by lia.
    apply ncduSort_outer; try done; try lia.
    unfold sortedRows. simpl. rewrite ?take_0. repeat constructor.
Qed.

End SortedRows.

Lemma sortCurrentDir_sortedRows u dir u' :
  UI.d u = Some dir -> UI.entries u = Entries dir ->
  selectedKey u <> Some ByAverageSize ->
  sortCurrentDir u = Ok u' ->
  UI.sortPerm u' ≡ₚ iota (length (dChildren dir)) /\
  sortedRows u dir (UI.sortPerm u').
Proof.
  intros Hd He Hk Hs.
  rewrite sortCurrentDir_unfold in Hs.
  destruct (ncduSort_sort u dir Hk (UI.set_sortPerm (iota (length (UI.entries u))) u)
              (iota (length (UI.entries u)))) as (l' & Hsort & Hperm & Hsorted).
  { done. }
  { apply Forall_forall. intros p Hp. apply iota_elem in Hp.
    rewrite He, Entries_length in Hp. exact Hp. }
  unfold sortData in Hs. rewrite Hd, He in Hs. rewrite He in Hsort.
  rewrite Hsort in Hs. cbn [mbind Res_bind] in Hs.
  apply bind_Ok in Hs as (inv & _ & Hs). simplify_eq. simpl.
  split; [|done]. rewrite Hperm. by rewrite He, Entries_length.
Qed.

(** X19.  After [sortCurrentDir], under every sort key but the average
    size, no row is less than a row shown above it. *)
Theorem sortCurrentDir_sorted u dir u' :
  UI.d u = Some dir -> UI.entries u = Entries dir ->
  selectedKey u <> Some ByAverageSize ->
  sortCurrentDir u = Ok u' ->
  forall (k k' : nat) p q, (k < k')%nat ->
    UI.sortPerm u' !! k = Some p -> UI.sortPerm u' !! k' = Some q ->
    childLess u dir q p = false.
Proof.
  intros Hd He Hk Hs.
  destruct (sortCurrentDir_sortedRows u dir u' Hd He Hk Hs) as [_ Hsorted].
  intros k k' p q Hlt Hp Hq.
  unfold sortedRows in Hsorted.
  apply list_elem_of_split_length in Hp as (l1 & l2 & Hl & Hl1).
  rewrite Hl in Hq, Hsorted.
  rewrite lookup_app_r in Hq by lia.
  destruct (k' - length l1)%nat as [|n] eqn:Hn; [lia|]. simpl in Hq.
  apply StronglySorted_app in Hsorted as (_ & _ & Hs2).
  apply StronglySorted_cons in Hs2 as [Hall _].
  rewrite Forall_forall in Hall. apply Hall. by eapply list_elem_of_lookup_2.
Qed.

Lemma sortedRows_unique u dir l1 l2 :
  selectedKey u <> Some ByAverageSize ->
  NoDup (Remote <$> Entries dir) ->
  Forall (fun p => 0 <= p < len (dChildren dir)) l1 ->
  l1 ≡ₚ l2 -> sortedRows u dir l1 -> sortedRows u dir l2 -> l1 = l2.
Proof.
  intros Hk Hnd Hv Hperm Hs1 Hs2.
  set (R := fun p q : Z =>
    (0 <= p < len (dChildren dir)) /\ (0 <= q < len (dChildren dir)) /\
    childLess u dir q p = false).
  assert (Hanti : AntiSymm (=) R).
  { intros p q (Hp & Hq & Hqp) (_ & _ & Hpq).
    destruct (decide (p = q)) as [|Hne]; [done|]. exfalso.
    unfold len in Hp, Hq.
    destruct (lookup_lt_is_Some_2 (dChildren dir) (Z.to_nat p)) as [c Hc]; [lia|].
    destruct (lookup_lt_is_Some_2 (dChildren dir) (Z.to_nat q)) as [c' Hc']; [lia|].
    unfold childLess in Hqp, Hpq. rewrite Hc, Hc' in *.
    assert (Hn : Remote c.1 <> Remote c'.1).
    { intros Heq. apply Hne.
      assert (Z.to_nat p = Z.to_nat q); [|lia].
      eapply NoDup_lookup; [exact Hnd | |].
      - unfold Entries. by rewrite !list_lookup_fmap, Hc.
      - unfold Entries. rewrite !list_lookup_fmap, Hc'. simpl. by rewrite Heq. }
    destruct (lessAttrs_total u c.2 c'.2 _ _ Hk Hn); congruence. }
  assert (Hlift : forall l, Forall (fun p => 0 <= p < len (dChildren dir)) l ->
            sortedRows u dir l -> StronglySorted R l).
  { induction l as [|a l IH]; intros Hvl Hsl; [constructor|].
    apply Forall_cons in Hvl as [Ha Hvl].
    apply StronglySorted_cons in Hsl as [Hal Hsl].
    apply StronglySorted_cons. split; [|by apply IH].
    rewrite Forall_forall in *. intros b Hb. split; [done|]. split; [by apply Hvl|].
    by apply Hal. }
  apply (StronglySorted_unique R); try done.
  - by apply Hlift.
  - apply Hlift; [by rewrite <- Hperm | done].
Qed.

(** X20.  When the children have pairwise different names, the order
    [sortCurrentDir] computes is, under every sort key but the average
    size, the only order of the rows in which no row is less than a row
    above it: it does not depend on how the sort is carried out. *)
Theorem sortCurrentDir_order_unique u dir u' l :
  UI.d u = Some dir -> UI.entries u = Entries dir ->
  selectedKey u <> Some ByAverageSize ->
  NoDup (Remote <$> Entries dir) ->
  sortCurrentDir u = Ok u' ->
  l ≡ₚ iota (length (dChildren dir)) ->
  (forall (k k' : nat) p q, (k < k')%nat ->
     l !! k = Some p -> l !! k' = Some q -> childLess u dir q p = false) ->
  l = UI.sortPerm u'.
Proof.
  intros Hd He Hk Hnd Hs Hperm Hl.
  destruct (sortCurrentDir_sortedRows u dir u' Hd He Hk Hs) as [Hp Hsorted].
  apply (sortedRows_unique u dir); try done.
  - apply Forall_forall. intros p Hin. rewrite Hperm in Hin.
    by apply iota_elem in Hin.
  - by rewrite Hp.
  - clear -Hl. unfold sortedRows. induction l as [|a l IH]; [constructor|].
    apply StronglySorted_cons. split.
    + apply Forall_forall. intros b Hb.
      apply list_elem_of_lookup in Hb as (i & Hi).
      by apply (Hl 0%nat (S i) a b); [lia | |].
    + apply IH. intros k k' p q Hlt Hkp Hkq.
      by apply (Hl (S k) (S k') p q); [lia | |].
Qed.


(** *** The direction of a sort key *)







(** *** One move *)

(** X21.  Outside visual select mode, in a directory with at least one
    and fewer than 2^62 rows, shown on a list of positive height with a
    valid viewport, and for a step [delta] between -2^62 and 2^62,
    [move] puts the cursor on the row asked for, clamped to the first and
    the last row, leaves the viewport valid, and changes neither the
    selection nor the cursor remembered for another path.  (With a larger
    step [dirPos.entry += delta] wraps around, and the cursor is clamped
    from the wrapped value.) *)
Theorem move_clamps_cursor delta u :
  UI.d u <> None -> UI.visualSelectMode u = false ->
  0 < len (UI.entries u) < 2 ^ 62 -> 0 < UI.dirListHeight u ->
  - 2 ^ 62 <= delta <= 2 ^ 62 ->
  viewportOk (len (UI.entries u)) (UI.dirListHeight u) (cursor u) ->
  exists u', move delta u = Ok u' /\
    entry (cursor u') =
      Z.max 0 (Z.min (len (UI.entries u) - 1) (entry (cursor u) + delta)) /\
    viewportOk (len (UI.entries u)) (UI.dirListHeight u) (cursor u') /\
    (forall p, p <> UI.path u -> UI.dirPosMap u' !! p = UI.dirPosMap u !! p) /\
    UI.selectedEntries u' = UI.selectedEntries u.
Proof.
  intros Hd Hv Hn Hh Hdelta Hvp.
  destruct (move_viewport delta u Hd Hv Hn Hh Hdelta Hvp) as (u' & Hm & Hvp' & He).
  exists u'. split; [done|]. split; [done|]. split; [done|]. split.
  - intros p Hp. by destruct (move_dirPosMap _ _ _ p Hm Hp).
  - destruct (move_plain delta u Hd Hv) as (q & Hq). rewrite Hq in Hm.
    by simplify_eq.
Qed.

(** *** The states of [Show] *)

Lemma mainLoop_reachable env fsName evs : forall u u',
  reachable env fsName u -> mainLoop env evs u = Ok u' ->
  reachable env fsName u'.
Proof.
  induction evs as [|[h ev] evs IH]; intros u u' Hr H.
  - simpl in H. by simplify_eq.
  - cbn [mainLoop] in H. apply bind_Ok in H as (u1 & H1 & H).
    eapply IH; [|exact H]. by eapply reachable_iteration.
Qed.

Lemma Show_reachable env fsName evs u :
  Show env fsName evs = Ok u -> reachable env fsName u.
Proof. apply mainLoop_reachable, reachable_start. Qed.


(** *** Visual select mode *)

Lemma rowKey_inv u i key :
  rowKey u i = Some key ->
  exists pos e, index (UI.sortPerm u) i = Ok pos /\
    index (UI.entries u) pos = Ok e /\ String_ e = key.
Proof.
  unfold rowKey, rankEntry. cbn [entry].
  destruct (index (UI.sortPerm u) i) as [pos| |]; simpl; try discriminate.
  destruct (index (UI.entries u) pos) as [e| |] eqn:He; simpl; try discriminate.
  intros [= <-]. eauto.
Qed.

Lemma rowKey_inj u i j key :
  NoDup (UI.sortPerm u) -> NoDup (String_ <$> UI.entries u) ->
  rowKey u i = Some key -> rowKey u j = Some key -> i = j.
Proof.
  intros Hp Hn Hi Hj.
  apply rowKey_inv in Hi as (p & e & Hip & Hpe & He).
  apply rowKey_inv in Hj as (q & e' & Hjq & Hqe & He').
  apply index_Ok in Hip as [Hi0 Hip]. apply index_Ok in Hjq as [Hj0 Hjq].
  apply index_Ok in Hpe as [Hp0 Hpe]. apply index_Ok in Hqe as [Hq0 Hqe].
  assert (Hpq : Z.to_nat p = Z.to_nat q).
  { eapply NoDup_lookup; [exact Hn | |].
    - by rewrite list_lookup_fmap, Hpe.
    - rewrite list_lookup_fmap, Hqe. simpl. by rewrite He, He'. }
  assert (p = q) by lia. subst q.
  assert (Z.to_nat i = Z.to_nat j) by exact (NoDup_lookup _ _ _ _ Hp Hip Hjq).
  lia.
Qed.

Lemma sameRows_rowKey u u' i : sameRows u u' -> rowKey u' i = rowKey u i.
Proof.
  intros (_ & He & Hp & _). unfold rowKey, rankEntry. by rewrite He, Hp.
Qed.

Lemma move_visual_as_plain delta u u1 :
  UI.d u <> None -> UI.visualSelectMode u = true ->
  toggleSelectForCursor u = Ok u1 ->
  exists p,
    move delta (UI.set_visualSelectMode false u)
    = Ok (UI.set_dirPosMap (<[UI.path u := p]> (UI.dirPosMap u))
            (UI.set_visualSelectMode false u)) /\
    move delta u
    = Ok (UI.set_dirPosMap (<[UI.path u := p]> (UI.dirPosMap u)) u1).
Proof.
  intros Hd Hv Ht.
  pose proof (toggleSelectForCursor_shape _ _ Ht) as (sel & Hu1).
  unfold move. cbn [UI.d UI.set_visualSelectMode UI.visualSelectMode].
  destruct (UI.d u); [|done]. rewrite Hv, Ht. cbn [mbind Res_bind].
  subst u1. eexists. split; reflexivity.
Qed.

Lemma move_visual_down u key :
  let n := len (UI.entries u) in
  let h := UI.dirListHeight u in
  UI.d u <> None -> UI.visualSelectMode u = true ->
  n < 2 ^ 62 -> 0 < h -> viewportOk n h (cursor u) ->
  entry (cursor u) + 1 < n ->
  rowKey u (entry (cursor u)) = Some key ->
  UI.selectedEntries u !! key = None ->
  exists u', move 1 u = Ok u' /\ sameRows u u' /\
    entry (cursor u') = entry (cursor u) + 1 /\
    viewportOk n h (cursor u') /\
    UI.selectedEntries u' = <[key := cursor u]> (UI.selectedEntries u).
Proof.
  intros n h Hd Hv Hn Hh Hvp Hlast Hk Hsel.
  apply rowKey_inv in Hk as (pos & e & Hpos & Hent & <-).
  assert (Ht : toggleSelectForCursor u
               = Ok (UI.set_selectedEntries
                       (<[String_ e := cursor u]> (UI.selectedEntries u)) u)).
  { unfold toggleSelectForCursor. fold (cursor u).
    rewrite Hpos. cbn [mbind Res_bind]. rewrite Hent. cbn [mbind Res_bind].
    by rewrite Hsel. }
  destruct (move_visual_as_plain 1 u _ Hd Hv Ht) as (p & Hplain & Hvis).
  pose proof Hvp as (Hc0 & _).
  destruct (move_viewport 1 (UI.set_visualSelectMode false u))
    as (u2 & Hm2 & Hvp2 & He2);
    [ exact Hd | reflexivity
    | change (0 < n < 2 ^ 62); lia | exact Hh | lia | exact Hvp |].
  rewrite Hplain in Hm2. apply (inj Ok) in Hm2. subst u2.
  assert (Hcur : forall v, UI.path v = UI.path u ->
            cursor (UI.set_dirPosMap (<[UI.path u := p]> (UI.dirPosMap u)) v) = p).
  { intros v Hpath. unfold cursor, lookupPos. simpl. by rewrite Hpath, lookup_insert_eq. }
  rewrite Hcur in Hvp2, He2 by done.
  eexists. split; [exact Hvis|]. split; [done|].
  rewrite Hcur by done.
  change (cursor (UI.set_visualSelectMode false u)) with (cursor u) in He2.
  change (len (UI.entries (UI.set_visualSelectMode false u))) with n in *.
  change (UI.dirListHeight (UI.set_visualSelectMode false u)) with h in *.
  split; [lia|]. split; [done|]. done.
Qed.

Lemma visual_sweep k : forall u,
  let n := len (UI.entries u) in
  let h := UI.dirListHeight u in
  let c := entry (cursor u) in
  UI.d u <> None -> UI.visualSelectMode u = true ->
  NoDup (UI.sortPerm u) -> NoDup (String_ <$> UI.entries u) ->
  n < 2 ^ 62 -> 0 < h -> viewportOk n h (cursor u) ->
  c + Z.of_nat k < n ->
  (forall i, c <= i < c + Z.of_nat k -> is_Some (rowKey u i)) ->
  (forall i key, c <= i < c + Z.of_nat k -> rowKey u i = Some key ->
     UI.selectedEntries u !! key = None) ->
  exists u', moves (replicate k 1) u = Ok u' /\ sameRows u u' /\
    entry (cursor u') = c + Z.of_nat k /\ viewportOk n h (cursor u') /\
    forall key, is_Some (UI.selectedEntries u' !! key) <->
      is_Some (UI.selectedEntries u !! key) \/
      exists i, c <= i < c + Z.of_nat k /\ rowKey u i = Some key.
Proof.
  induction k as [|k IH]; intros u n h c Hd Hv Hnp Hnd Hn Hh Hvp Hlast Hrows Hfree.
  - exists u. split; [done|]. split; [done|]. split; [lia|]. split; [done|].
    intros key. split; [by left|]. intros [H | (i & Hi & _)]; [done | lia].
  - destruct (Hrows c) as [key Hkey]; [lia|].
    destruct (move_visual_down u key) as (u1 & Hm & Hsr & Hc1 & Hvp1 & Hs1);
      try done; [fold c n; lia | by eapply Hfree; [|exact Hkey]; lia |].
    pose proof Hsr as (Hd1 & He1 & Hp1 & Hpa1 & Hh1 & Hv1).
    destruct (IH u1) as (u' & Hms & Hsr' & Hc' & Hvp' & Hsel').
    + by rewrite Hd1.
    + by rewrite Hv1.
    + by rewrite Hp1.
    + by rewrite He1.
    + by rewrite He1.
    + by rewrite Hh1.
    + by rewrite He1, Hh1.
    + rewrite He1, Hc1. fold c n. lia.
    + intros i Hi. rewrite (sameRows_rowKey u u1 i Hsr). apply Hrows.
      rewrite Hc1 in Hi. fold c in Hi. lia.
    + intros i key' Hi Hk'. rewrite (sameRows_rowKey u u1 i Hsr) in Hk'.
      rewrite Hc1 in Hi. fold c in Hi.
      rewrite Hs1. rewrite lookup_insert_ne.
      * eapply Hfree; [|exact Hk']. lia.
      * intros <-. assert (c = i) by (by eapply rowKey_inj). lia.
    + exists u'. split; [cbn [replicate moves]; by rewrite Hm|].
      split.
      { unfold sameRows in *. intuition congruence. }
      rewrite He1, Hh1 in Hvp'. rewrite Hc1 in Hc'. fold c in Hc'.
      split; [lia|]. split; [done|].
      intros key'. rewrite Hsel', Hs1, Hc1. fold c.
      rewrite lookup_insert_is_Some. split.
      * intros [[<- | [_ H]] | (i & Hi & Hk')].
        -- right. exists c. split; [lia | done].
        -- by left.
        -- right. exists i. rewrite (sameRows_rowKey u u1 i Hsr) in Hk'.
           split; [lia | done].
      * intros [H | (i & Hi & Hk')].
        -- destruct (decide (key = key')) as [->|Hne]; [left; by left|].
           left. right. done.
        -- destruct (decide (i = c)) as [->|Hne].
           ++ left. left. congruence.
           ++ right. exists i. rewrite (sameRows_rowKey u u1 i Hsr).
              split; [lia | done].
Qed.

(** X25.  In visual select mode, starting from an empty selection in a
    directory whose entries have pairwise different keys, k single steps
    down that stay above the last row select exactly the k rows passed,
    the row the cursor ends on not included, and leave the cursor k rows
    further down with a valid viewport. *)
Theorem visual_sweep_selects_rows k u dir :
  UI.d u = Some dir -> UI.entries u = Entries dir ->
  UI.sortPerm u ≡ₚ iota (length (UI.entries u)) ->
  NoDup (String_ <$> UI.entries u) ->
  UI.visualSelectMode u = true -> UI.selectedEntries u = ∅ ->
  len (UI.entries u) < 2 ^ 62 -> 0 < UI.dirListHeight u ->
  viewportOk (len (UI.entries u)) (UI.dirListHeight u) (cursor u) ->
  entry (cursor u) + Z.of_nat k < len (UI.entries u) ->
  exists u', moves (replicate k 1) u = Ok u' /\
    entry (cursor u') = entry (cursor u) + Z.of_nat k /\
    viewportOk (len (UI.entries u)) (UI.dirListHeight u) (cursor u') /\
    forall key, is_Some (UI.selectedEntries u' !! key) <->
      exists i, entry (cursor u) <= i < entry (cursor u) + Z.of_nat k /\
                rowKey u i = Some key.
Proof.
  intros Hd He Hp Hnd Hv Hs Hn Hh Hvp Hlast.
  assert (Hnp : NoDup (UI.sortPerm u)) by (rewrite Hp; apply iota_NoDup).
  destruct (visual_sweep k u) as (u' & Hm & _ & Hc & Hvp' & Hsel); try done.
  - by rewrite Hd.
  - intros i Hi. destruct Hvp as (Hc0 & _).
    destruct (perm_lookup_range _ _ (Z.to_nat i) Hp) as (p & Hip & Hpn);
      [unfold len in *; lia|].
    destruct (lookup_lt_is_Some_2 (UI.entries u) p Hpn) as [e Hpe].
    exists (String_ e). unfold rowKey, rankEntry. cbn [entry].
    rewrite (proj2 (index_Ok _ i (Z.of_nat p))) by (split; [lia | done]).
    cbn [mbind Res_bind]. by rewrite (index_of_nat _ _ _ Hpe).
  - intros i key _ _. by rewrite Hs.
  - exists u'. split; [done|]. split; [done|]. split; [done|].
    intros key. rewrite Hsel, Hs, lookup_empty. split.
    + intros [[? H] | H]; [done | done].
    + intros H. by right.
Qed.


(** *** How [Show] returns *)

Lemma noStop_Ok {A} (a : A) : noStop (Ok a).
Proof. done. Qed.

Lemma noStop_Panic {A} why : noStop (@Panic A why).
Proof. done. Qed.

Lemma noStop_bind {A B} (m : Res A) (k : A -> Res B) :
  noStop m -> (forall a, noStop (k a)) -> noStop (m ≫= k).
Proof. destruct m; simpl; auto. Qed.

Create HintDb nostop.
#[local] Hint Resolve noStop_Ok noStop_Panic : nostop.

Ltac no_stop :=
  repeat first
    [ apply noStop_Ok | apply noStop_Panic
    | solve [auto with nostop]
    | apply noStop_bind; [|intros]
    | match goal with
      | |- noStop (if ?b then _ else _) => destruct b
      | |- noStop (match ?x with _ => _ end) => destruct x
      end ].

Lemma noStop_index {A} (l : list A) i : noStop (index l i).
Proof. unfold index. no_stop. Qed.

Lemma noStop_store {A} (l : list A) i x : noStop (store l i x).
Proof. unfold store. no_stop. Qed.

Lemma noStop_sliceFrom {A} (l : list A) lo : noStop (sliceFrom l lo).
Proof. unfold sliceFrom. no_stop. Qed.

#[local] Hint Resolve noStop_index noStop_store noStop_sliceFrom : nostop.

Lemma noStop_AttrI dir i : noStop (AttrI dir i).
Proof. unfold AttrI. no_stop. Qed.

Lemma noStop_Remove i dir : noStop (Remove i dir).
Proof. unfold Remove. no_stop. Qed.

Lemma noStop_swapSlots {A} (l : list A) i j : noStop (swapSlots l i j).
Proof. unfold swapSlots. no_stop. Qed.

#[local] Hint Resolve noStop_AttrI noStop_Remove noStop_swapSlots : nostop.

Section NoStopSort.
Context {T : Type} `{Interface T}.
Hypothesis HLess : forall data i j, noStop (Less data i j).
Hypothesis HSwap : forall data i j, noStop (Swap data i j).

Lemma noStop_insertionInner j : forall data, noStop (insertionInner j data).
Proof.
  induction j as [|j IH]; intros data; cbn [insertionInner]; [done|].
  apply noStop_bind; [apply HLess|]. intros [|]; [|done].
  apply noStop_bind; [apply HSwap | apply IH].
Qed.

Lemma noStop_insertionOuter todo : forall data, noStop (insertionOuter todo data).
Proof.
  induction todo as [|i todo IH]; intros data; cbn [insertionOuter]; [done|].
  apply noStop_bind; [apply noStop_insertionInner | apply IH].
Qed.

Lemma noStop_sort_Sort data : noStop (sort_Sort data).
Proof. apply noStop_insertionOuter. Qed.

End NoStopSort.

Lemma noStop_sortNcdu (data : ncduSort.t) : noStop (sort_Sort data).
Proof.
  apply noStop_sort_Sort; intros ds i j; simpl.
  - unfold ncduSort.Less. no_stop.
  - unfold ncduSort.Swap. no_stop.
Qed.

Lemma noStop_sortPositions (l : list Z) : noStop (sort_Sort l).
Proof. apply noStop_sort_Sort; intros ds i j; simpl; no_stop. Qed.

Lemma noStop_fillInv perm : forall i inv, noStop (fillInv i perm inv).
Proof.
  induction perm as [|j perm IH]; intros i inv; cbn [fillInv]; [done|].
  apply noStop_bind; [apply noStop_store | intros; apply IH].
Qed.

#[local] Hint Resolve noStop_sortNcdu noStop_sortPositions noStop_fillInv : nostop.

Lemma noStop_sortCurrentDir u : noStop (sortCurrentDir u).
Proof. rewrite sortCurrentDir_unfold. no_stop. Qed.

#[local] Hint Resolve noStop_sortCurrentDir : nostop.

Lemma noStop_setCurrentDir dir u : noStop (setCurrentDir dir u).
Proof. unfold setCurrentDir. no_stop. Qed.

Lemma noStop_toggleSort s u : noStop (toggleSort s u).
Proof. unfold toggleSort. no_stop. Qed.

Lemma noStop_toggleSelectForCursor u : noStop (toggleSelectForCursor u).
Proof. unfold toggleSelectForCursor. no_stop. Qed.

#[local] Hint Resolve noStop_setCurrentDir noStop_toggleSort
  noStop_toggleSelectForCursor : nostop.

Lemma noStop_move delta u : noStop (move delta u).
Proof. unfold move. no_stop. Qed.

Lemma noStop_removeEntry pos u : noStop (removeEntry pos u).
Proof. unfold removeEntry. no_stop. Qed.

#[local] Hint Resolve noStop_move noStop_removeEntry : nostop.

Lemma noStop_removeEntries ps : forall u, noStop (removeEntries ps u).
Proof.
  induction ps as [|p ps IH]; intros u; cbn [removeEntries]; [done|].
  apply noStop_bind; [apply noStop_removeEntry | apply IH].
Qed.

Lemma noStop_deleteSelectedLoop env ord : forall i ps u,
  noStop (deleteSelectedLoop env ord i ps u).
Proof.
  induction ord as [|[key cp] ord IH]; intros i ps u;
    cbn [deleteSelectedLoop]; [done|].
  apply noStop_bind; [apply noStop_index | intros pos].
  apply noStop_bind; [apply noStop_index | intros e].
  destruct (backendCall _ _ _) as [u1 [err|]]; [done|].
  apply noStop_bind; [apply noStop_store | intros; apply IH].
Qed.

#[local] Hint Resolve noStop_removeEntries noStop_deleteSelectedLoop : nostop.

Lemma noStop_callHandler env hd o u : noStop (callHandler env hd o u).
Proof.
  destruct hd; simpl; unfold singleHandler, selectedHandler; no_stop.
Qed.

#[local] Hint Resolve noStop_callHandler : nostop.

Lemma noStop_handleBoxOption env u : noStop (handleBoxOption env u).
Proof.
  unfold handleBoxOption. destruct (UI.boxMenuHandler u); [|done].
  apply noStop_bind; [apply noStop_callHandler|].
  intros [u1 [msg [err|]]]; done.
Qed.

Lemma noStop_enter env u : noStop (enter env u).
Proof. unfold enter. no_stop. Qed.

Lemma noStop_up env u : noStop (up env u).
Proof. unfold up. no_stop. Qed.

Lemma noStop_delete u : noStop (delete_ u).
Proof. unfold delete_, deleteSingle. no_stop. Qed.

Lemma noStop_biggestEntryLoop u todo : forall b, noStop (biggestEntryLoop u todo b).
Proof.
  induction todo as [|i todo IH]; intros b; cbn [biggestEntryLoop]; [done|].
  apply noStop_bind; [apply noStop_index | intros pos].
  apply noStop_bind; [apply noStop_AttrI | intros; apply IH].
Qed.

Lemma noStop_hasEmptyDirLoop u todo : noStop (hasEmptyDirLoop u todo).
Proof.
  induction todo as [|i todo IH]; cbn [hasEmptyDirLoop]; [done|].
  apply noStop_bind; [apply noStop_index | intros pos].
  apply noStop_bind; [apply noStop_AttrI | intros a].
  by destruct (_ && _).
Qed.

Lemma noStop_drawRows u h rows : forall y n, noStop (drawRows u h y n rows).
Proof.
  induction rows as [|j rows IH]; intros y n; cbn [drawRows]; [done|].
  apply noStop_bind; [apply noStop_index | intros _].
  destruct (_ >=? _); [done|].
  apply noStop_bind; [apply noStop_index | intros pos].
  apply noStop_bind; [apply noStop_AttrI | intros; apply IH].
Qed.

#[local] Hint Resolve noStop_handleBoxOption noStop_enter noStop_up noStop_delete
  noStop_biggestEntryLoop noStop_hasEmptyDirLoop noStop_drawRows : nostop.

Lemma noStop_Draw h u : noStop (Draw h u).
Proof. unfold Draw, biggestEntry, hasEmptyDir. no_stop. Qed.

Lemma key_Stop env k u err :
  key env k u = Stop err -> k = KeyEsc /\ UI.showBox u = false /\ err = None.
Proof.
  intros H.
  assert (Hn : k <> KeyEsc -> noStop (key env k u)).
  { intros Hk. destruct k; simpl; try done; no_stop.
    all: unfold displayPath; done. }
  destruct k; try (by rewrite H in Hn; destruct Hn).
  simpl in H. destruct (UI.showBox u); [done|]. by simplify_eq.
Qed.

Lemma iteration_Stop env h ev u err :
  iteration env h ev u = Stop err ->
  (err = None /\ ev = events KeyEsc /\ UI.showBox u = false) \/
  (exists e, ev = errChan (Some e) /\
             err = Some ("ncdu directory listing: " +:+ e)).
Proof.
  unfold iteration. intros H.
  destruct (Draw h u) as [u1| |] eqn:Hd; cbn [mbind Res_bind] in H; try done.
  - destruct ev as [root| [e|] | | k].
    + pose proof (noStop_setCurrentDir root u1) as Hn. by rewrite H in Hn.
    + right. exists e. by simplify_eq.
    + done.
    + pose proof (noStop_sortCurrentDir u1) as Hn. by rewrite H in Hn.
    + apply key_Stop in H as (-> & Hs & ->). left.
      apply Draw_shape in Hd. subst u1. done.
  - pose proof (noStop_Draw h u) as Hn. by rewrite Hd in Hn.
Qed.

Lemma mainLoop_Stop env evs : forall u err,
  mainLoop env evs u = Stop err ->
  exists pre h ev post u',
    evs = pre ++ (h, ev) :: post /\ mainLoop env pre u = Ok u' /\
    iteration env h ev u' = Stop err.
Proof.
  induction evs as [|[h ev] evs IH]; intros u err H; [done|].
  cbn [mainLoop] in H.
  destruct (iteration env h ev u) as [u1| |] eqn:Hi; cbn [mbind Res_bind] in H;
    try done.
  - apply IH in H as (pre & h' & ev' & post & u' & -> & Hpre & Hstop).
    exists ((h, ev) :: pre), h', ev', post, u'. split; [done|].
    split; [|done]. cbn [mainLoop]. by rewrite Hi.
  - simplify_eq. exists [], h, ev, evs, u. done.
Qed.

(** X29.  With a terminal that does not fail (the initialisation and
    the flush of the screen are not part of the model), [Show] returns
    in two ways only: without error on the quit key while no popup is
    shown, and with the error of the scan, prefixed by
    [ncdu directory listing: ], when the scan reports one.  No other
    event and no operation of the controller ends the loop. *)
Theorem Show_returns env fsName evs err :
  Show env fsName evs = Stop err ->
  exists pre h ev post u,
    evs = pre ++ (h, ev) :: post /\ Show env fsName pre = Ok u /\
    ((err = None /\ ev = events KeyEsc /\ UI.showBox u = false) \/
     (exists e, ev = errChan (Some e) /\
                err = Some ("ncdu directory listing: " +:+ e))).
Proof.
  unfold Show. intros H.
  apply mainLoop_Stop in H as (pre & h & ev & post & u & -> & Hpre & Hstop).
  exists pre, h, ev, post, u. split; [done|]. split; [done|].
  by apply iteration_Stop in Hstop.
Qed.


(** *** The same sort key twice *)

Lemma toggleSort_keeps s u u' :
  toggleSort s u = Ok u' ->
  UI.entries u' = UI.entries u /\ UI.d u' = UI.d u /\
  UI.dirPosMap u' = UI.dirPosMap u /\
  UI.selectedEntries u' = UI.selectedEntries u /\ UI.path u' = UI.path u.
Proof.
  unfold toggleSort. intros H.
  apply sortCurrentDir_shape in H as (perm & inv & ->).
  destruct (_ =? _), s; done.
Qed.

Lemma sameFlags_sym u u' : sameFlags u u' -> sameFlags u' u.
Proof. unfold sameFlags. intuition congruence. Qed.

Lemma sameFlags_of_getSort u u' :
  (forall s, getSort s u' = getSort s u) -> sameFlags u u'.
Proof.
  intros H. unfold sameFlags.
  pose proof (H ByName). pose proof (H BySize).
  pose proof (H ByCount). pose proof (H ByAverageSize). simpl in *. auto.
Qed.

(** X30.  Toggling the active sort key twice flips its sign and flips
    it back: the sort flags are those from before, the rows are in the
    order a sort of the state before gives, and the listing, the
    remembered cursors and the selection are untouched. *)
Theorem toggleSort_twice s u u0 :
  consistent u -> oneActive u -> getSort s u <> 0 ->
  sortCurrentDir u = Ok u0 ->
  exists u1 u2,
    toggleSort s u = Ok u1 /\ getSort s u1 = - getSort s u /\
    toggleSort s u1 = Ok u2 /\
    sameFlags u u2 /\ UI.sortPerm u2 = UI.sortPerm u0 /\
    UI.entries u2 = UI.entries u /\ UI.dirPosMap u2 = UI.dirPosMap u /\
    UI.selectedEntries u2 = UI.selectedEntries u.
Proof.
  intros Hc Ho Hs Hsort.
  destruct (toggleSort_Ok s u Hc) as (u1 & Ht1 & _).
  destruct (toggleSort_oneActive s u u1 Hc Ho Ht1) as (Hc1 & Ho1 & Hs1 & Hz1).
  destruct (toggleSort_Ok s u1 Hc1) as (u2 & Ht2 & _).
  destruct (toggleSort_oneActive s u1 u2 Hc1 Ho1 Ht2) as (Hc2 & Ho2 & Hs2 & Hz2).
  destruct (Z.eqb_spec (getSort s u) 0) as [|_]; [done|].
  assert (Hne1 : getSort s u1 <> 0) by lia.
  destruct (Z.eqb_spec (getSort s u1) 0) as [|_]; [done|].
  assert (Hflags : sameFlags u u2).
  { apply sameFlags_of_getSort. intros s'.
    destruct (decide (s' = s)) as [->|Hne]; [lia|].
    rewrite (Hz2 s' Hne). destruct Ho as (a & Ha & Hz).
    destruct (decide (s = a)) as [->|Hsa]; [by rewrite (Hz s' Hne)|].
    by rewrite (Hz s Hsa) in Hs. }
  destruct (toggleSort_keeps _ _ _ Ht1) as (He1 & Hd1 & Hm1 & Hsel1 & _).
  destruct (toggleSort_keeps _ _ _ Ht2) as (He2 & Hd2 & Hm2 & Hsel2 & _).
  exists u1, u2. split; [done|]. split; [done|]. split; [done|].
  split; [done|]. split; [|by rewrite He2, He1, Hm2, Hm1, Hsel2, Hsel1].
  destruct (sortCurrentDir_Ok u Hc) as (perm & inv & Hsort' & _ & _ & _ & Hdet).
  rewrite Hsort in Hsort'. apply (inj Ok) in Hsort'. subst u0. simpl.
  unfold toggleSort in Ht2.
  match type of Ht2 with sortCurrentDir ?v = _ => set (v2 := v) in * end.
  pose proof (sortCurrentDir_stable _ _ Ht2) as (_ & _ & _ & _ & Hf2).
  destruct (Hdet v2) as (data2 & Hd2' & Hp2).
  { subst v2. transitivity (UI.entries u1); [|done]. by destruct (_ =? _), s. }
  { subst v2. transitivity (UI.d u1); [|done]. by destruct (_ =? _), s. }
  { eapply sameFlags_trans; [exact Hflags|]. by apply sameFlags_sym. }
  rewrite sortCurrentDir_unfold, Hd2' in Ht2. cbn [mbind Res_bind] in Ht2.
  apply bind_Ok in Ht2 as (inv2 & _ & Ht2). apply (inj Ok) in Ht2. subst u2.
  simpl. exact Hp2.
Qed.


(** ** The rendering primitives *)

Lemma fill_columns x xmax y fg bg ch :
  cellX <$> fill x xmax y fg bg ch = seqZ x (xmax - x).
Proof.
  unfold fill, seqZ. rewrite <- !list_fmap_compose.
  apply list_fmap_ext. intros _ k _. simpl. lia.
Qed.

Lemma fill_chars x xmax y fg bg ch :
  cellCh <$> fill x xmax y fg bg ch = replicate (Z.to_nat (xmax - x)) ch.
Proof.
  unfold fill. rewrite <- list_fmap_compose.
  generalize (Z.to_nat (xmax - x)). intros n. generalize 0%nat.
  induction n as [|n IH]; intros s; [done|]. simpl. by rewrite IH.
Qed.

Lemma fill_onRow x xmax y fg bg ch :
  Forall (onRow y fg bg) (fill x xmax y fg bg ch).
Proof.
  unfold fill. apply Forall_fmap, Forall_forall. by intros k Hk.
Qed.

Lemma take_app_replicate {A} (cs : list A) s : forall n m,
  (n <= m)%nat -> take n (cs ++ replicate m s) = take n (cs ++ replicate n s).
Proof.
  induction cs as [|c cs IH]; intros n m Hnm.
  - simpl. rewrite !take_replicate. f_equal. lia.
  - destruct n as [|n]; [done|]. cbn [take app]. f_equal.
    rewrite (IH n m) by lia. by rewrite (IH n (S n)) by lia.
Qed.

Lemma lineRunes_fills RuneWidth y xmax fg bg spacer cs : forall x,
  Forall (fun c => RuneWidth c = 1) cs ->
  x < xmax -> - 2 ^ 62 <= x -> xmax <= 2 ^ 62 ->
  let cells :=
    match lineRunes RuneWidth x y xmax fg bg cs with
    | (cells, None) => cells
    | (cells, Some x') => cells ++ fill x' xmax y fg bg spacer
    end in
  cellX <$> cells = seqZ x (xmax - x) /\
  cellCh <$> cells =
    take (Z.to_nat (xmax - x)) (cs ++ replicate (Z.to_nat (xmax - x)) spacer) /\
  Forall (onRow y fg bg) cells.
Proof.
  induction cs as [|c cs IH]; intros x Hw Hx Hlo Hhi.
  - simpl. rewrite fill_columns, fill_chars, take_replicate, Nat.min_id.
    split; [done|]. split; [done|]. apply fill_onRow.
  - apply Forall_cons in Hw as [Hc Hw]. cbn [lineRunes]. rewrite Hc.
    rewrite wrap64_small by lia. rewrite Z.geb_leb.
    rewrite (seqZ_cons x) by lia.
    replace (Z.to_nat (xmax - x)) with (S (Z.to_nat (xmax - (x + 1)))) by lia.
    cbn [app take].
    destruct (Z.leb_spec xmax (x + 1)) as [Hlast|Hmore].
    + replace (xmax - (x + 1)) with 0 by lia. simpl.
      replace (Z.pred (xmax - x)) with 0 by lia.
      repeat split; try done. by repeat constructor.
    + specialize (IH (x + 1) Hw ltac:(lia) ltac:(lia) Hhi). cbn zeta in IH.
      destruct (lineRunes RuneWidth (x + 1) y xmax fg bg cs) as [cells [x'|]];
        destruct IH as (IHx & IHc & IHr).
      * cbn [app fmap list_fmap]. rewrite <- !fmap_cons in *.
        split.
        { rewrite fmap_cons. cbn [cellX]. f_equal.
          replace (Z.succ x) with (x + 1) by lia.
          replace (Z.pred (xmax - x)) with (xmax - (x + 1)) by lia. exact IHx. }
        split.
        { rewrite fmap_cons. cbn [cellCh]. f_equal.
          rewrite (take_app_replicate cs spacer _ (S _)) by lia. exact IHc. }
        by constructor.
      * split.
        { rewrite fmap_cons. cbn [cellX]. f_equal.
          replace (Z.succ x) with (x + 1) by lia.
          replace (Z.pred (xmax - x)) with (xmax - (x + 1)) by lia. exact IHx. }
        split.
        { rewrite fmap_cons. cbn [cellCh]. f_equal.
          rewrite (take_app_replicate cs spacer _ (S _)) by lia. exact IHc. }
        by constructor.
Qed.

Lemma lineRunes_within RuneWidth y xmax fg bg spacer x0 cs : forall x,
  Forall (fun c => 0 <= RuneWidth c <= 2) cs ->
  x0 <= x < xmax -> - 2 ^ 62 <= x0 -> xmax <= 2 ^ 62 ->
  Forall (fun c => x0 <= cellX c < xmax /\ onRow y fg bg c)
    match lineRunes RuneWidth x y xmax fg bg cs with
    | (cells, None) => cells
    | (cells, Some x') => cells ++ fill x' xmax y fg bg spacer
    end.
Proof.
  induction cs as [|c cs IH]; intros x Hw Hx Hlo Hhi.
  - simpl. unfold fill. apply Forall_fmap, Forall_forall. intros k Hk.
    apply elem_of_seq in Hk. simpl. unfold onRow. simpl. repeat split; lia.
  - apply Forall_cons in Hw as [Hc Hw]. cbn [lineRunes].
    rewrite wrap64_small by lia. rewrite Z.geb_leb.
    destruct (Z.leb_spec xmax (x + RuneWidth c)) as [Hlast|Hmore].
    + repeat constructor; simpl; lia.
    + specialize (IH (x + RuneWidth c) Hw ltac:(lia) Hlo Hhi).
      destruct (lineRunes RuneWidth (x + RuneWidth c) y xmax fg bg cs)
        as [cells [x'|]]; cbn [app]; (constructor; [|exact IH]);
        unfold onRow; simpl; repeat split; lia.
Qed.

(** X26.  With runes of width 0, 1 or 2: when there is room
    ([x < xmax]) every cell [Line] writes lies on row [y] in a column
    from [x] to [xmax - 1], in the given colours; when moreover every
    rune of the message is one column wide, each of these columns is
    written exactly once, from left to right, first with the runes of
    the message, cut at [xmax], then with the spacer.  When there is no
    room ([xmax <= x]) [Line] still writes the first rune of the message
    at column [x], and nothing else. *)
Theorem Line_cells RuneWidth x y xmax fg bg spacer msg :
  Forall (fun c => 0 <= RuneWidth c <= 2) (runes msg) ->
  - 2 ^ 62 <= x <= 2 ^ 62 -> - 2 ^ 62 <= xmax <= 2 ^ 62 ->
  let cells := Line RuneWidth x y xmax fg bg spacer msg in
  (x < xmax ->
   Forall (fun c => x <= cellX c < xmax /\
                    cellY c = y /\ cellFg c = fg /\ cellBg c = bg) cells) /\
  (x < xmax -> Forall (fun c => RuneWidth c = 1) (runes msg) ->
   cellX <$> cells = seqZ x (xmax - x) /\
   cellCh <$> cells =
     take (Z.to_nat (xmax - x))
       (runes msg ++ replicate (Z.to_nat (xmax - x)) spacer)) /\
  (xmax <= x ->
   cells = match runes msg with
           | [] => []
           | c :: _ => [SetCell x y c fg bg]
           end).
Proof.
  intros Hw Hx Hxmax. unfold Line. cbn zeta. split; [|split].
  - intros Hlt.
    exact (lineRunes_within RuneWidth y xmax fg bg spacer x (runes msg) x Hw
             ltac:(lia) ltac:(lia) ltac:(lia)).
  - intros Hlt H1.
    destruct (lineRunes_fills RuneWidth y xmax fg bg spacer (runes msg) x H1 Hlt
                ltac:(lia) ltac:(lia)) as (Hcols & Hch & _).
    split; [exact Hcols | exact Hch].
  - intros Hge. destruct (runes msg) as [|c cs].
    + simpl. unfold fill. by replace (Z.to_nat (xmax - x)) with 0%nat by lia.
    + apply Forall_cons in Hw as [Hc _]. cbn [lineRunes].
      rewrite wrap64_small by lia. rewrite Z.geb_leb.
      by destruct (Z.leb_spec xmax (x + RuneWidth c)); [|lia].
Qed.

(** *** [LineOptions] *)

Lemma runes_length_aux n : forall s,
  (String.length s <= n)%nat -> (length (runes s) <= String.length s)%nat.
Proof.
  induction n as [|n IH]; intros s Hn.
  - destruct s; simpl in *; [done | lia].
  - destruct s as [|a0 s1]; [done|].
    assert (H1 : (length (runes s1) <= String.length s1)%nat)
      by (apply IH; simpl in Hn; lia).
    cbn [runes]. cbn zeta. destruct (byteValue a0 <? 128); [simpl; lia|].
    destruct s1 as [|a1 s2]; [simpl in *; lia|].
    assert (H2 : (length (runes s2) <= String.length s2)%nat)
      by (apply IH; simpl in Hn; lia).
    destruct (between 194 223 (byteValue a0)).
    { destruct (between 128 191 (byteValue a1)); simpl in *; lia. }
    destruct s2 as [|a2 s3]; [simpl in *; lia|].
    assert (H3 : (length (runes s3) <= String.length s3)%nat)
      by (apply IH; simpl in Hn; lia).
    destruct (between 224 239 (byteValue a0)).
    { destruct (_ && _); simpl in *; lia. }
    destruct s3 as [|a3 s4]; [simpl in *; lia|].
    assert (H4 : (length (runes s4) <= String.length s4)%nat)
      by (apply IH; simpl in Hn; lia).
    destruct (_ && _); simpl in *; lia.
Qed.

Lemma runes_length s : len (runes s) <= slen s.
Proof.
  unfold len, slen. pose proof (runes_length_aux _ s (le_n _)). lia.
Qed.

Lemma optionsWidth_bytes options :
  0 <= optionsWidth options <= optionsBytes options + 4 * len options.
Proof.
  induction options as [|o options IH]; [done|].
  cbn [optionsWidth optionsBytes foldr].
  fold (optionsWidth options). fold (optionsBytes options).
  pose proof (runes_length o). pose proof (len_nonneg (runes o)).
  unfold len in *. simpl length. lia.
Qed.

Lemma optionsBytes_nonneg options : 0 <= optionsBytes options.
Proof.
  induction options as [|o options IH]; [done|].
  cbn [optionsBytes foldr]. fold (optionsBytes options). unfold slen. lia.
Qed.

Lemma lineOptionLength_small options :
  optionsBytes options + 4 * len options < 2 ^ 62 ->
  lineOptionLength options = optionsBytes options + 4 * len options.
Proof.
  intros Hb. unfold lineOptionLength.
  assert (Hf : forall acc, 0 <= acc -> acc + optionsBytes options < 2 ^ 62 ->
            foldl (fun count i => wrap64 (count + slen i)) acc options
            = acc + optionsBytes options).
  { clear Hb. induction options as [|o options IH]; intros acc Ha Hs.
    - simpl. lia.
    - cbn [foldl optionsBytes foldr] in *. fold (optionsBytes options) in *.
      pose proof (optionsBytes_nonneg options). unfold slen in *.
      rewrite wrap64_small by lia. rewrite IH by lia. lia. }
  pose proof (len_nonneg options). pose proof (optionsBytes_nonneg options).
  rewrite Hf by lia. rewrite (wrap64_small (4 * len options)) by lia.
  rewrite wrap64_small by lia. lia.
Qed.


Lemma printRunes_spec y fg bg cs : forall x,
  - 2 ^ 62 <= x -> x + len cs <= 2 ^ 62 ->
  (printRunes x y fg bg cs).2 = x + len cs /\
  cellX <$> (printRunes x y fg bg cs).1 = seqZ x (len cs) /\
  cellCh <$> (printRunes x y fg bg cs).1 = cs /\
  Forall (onRow y fg bg) (printRunes x y fg bg cs).1.
Proof.
  induction cs as [|c cs IH]; intros x Hlo Hhi.
  - simpl. split; [unfold len; simpl; lia|]. done.
  - cbn [printRunes]. unfold len in *. cbn [length] in *.
    rewrite wrap64_small by lia.
    destruct (IH (x + 1)) as (Hx & Hcols & Hch & Hrow); [lia | lia |].
    destruct (printRunes (x + 1) y fg bg cs) as [cells x']. cbn [fst snd] in *.
    split; [lia|]. split.
    + rewrite fmap_cons. cbn [cellX]. rewrite (seqZ_cons x) by lia.
      f_equal. replace (Z.succ x) with (x + 1) by lia.
      by replace (Z.pred (Z.of_nat (S (length cs)))) with (Z.of_nat (length cs)) by lia.
    + split; [by rewrite fmap_cons, Hch|]. by constructor.
Qed.

Lemma optionsWidth_nonneg options : 0 <= optionsWidth options.
Proof. apply optionsWidth_bytes. Qed.

Lemma optionSpan_neg options : forall x k, k < 0 -> optionSpan x options k = None.
Proof.
  induction options as [|o options IH]; intros x k Hk; [done|].
  cbn [optionSpan]. destruct (Z.eqb_spec k 0); [lia|]. apply IH. lia.
Qed.

Lemma optionSpan_bounds options : forall x k lo hi,
  optionSpan x options k = Some (lo, hi) ->
  x <= lo /\ lo < hi /\ hi < x + optionsWidth options.
Proof.
  induction options as [|o options IH]; intros x k lo hi H; [done|].
  cbn [optionSpan optionsWidth foldr] in *. fold (optionsWidth options).
  pose proof (optionsWidth_nonneg options). pose proof (len_nonneg (runes o)).
  destruct (Z.eqb_spec k 0).
  - simplify_eq. lia.
  - apply IH in H. lia.
Qed.

Lemma inSpan_outside span x options k col :
  span = optionSpan x options k ->
  col <= x \/ x + optionsWidth options - 1 <= col -> inSpan span col = false.
Proof.
  intros -> Hcol. destruct (optionSpan x options k) as [[lo hi]|] eqn:Hs.
  - apply optionSpan_bounds in Hs. simpl. lia.
  - done.
Qed.

Lemma seqZ_two a : seqZ a 2 = [a; a + 1].
Proof. unfold seqZ. simpl. repeat (f_equal; try lia). Qed.

Lemma lineOptionsLoop_spec y fg bg selected options : forall x i,
  - 2 ^ 62 <= x -> x + optionsWidth options <= 2 ^ 62 ->
  cellX <$> lineOptionsLoop x y fg bg selected i options
    = seqZ x (optionsWidth options) /\
  Forall (fun c => x <= cellX c < x + optionsWidth options /\
            optionCell y fg bg (optionSpan x options (selected - i)) c)
    (lineOptionsLoop x y fg bg selected i options).
Proof.
  induction options as [|o options IH]; intros x i Hlo Hhi; [done|].
  cbn [lineOptionsLoop optionSpan optionsWidth foldr] in *.
  fold (optionsWidth options) in *.
  pose proof (optionsWidth_nonneg options) as Hw.
  pose proof (len_nonneg (runes o)) as Hl.
  set (w := len (runes o)) in *.
  set (colours := if i =? selected then _ else _).
  assert (Hcol : colours = if selected - i =? 0 then (ColorWhite, ColorBlack)
                           else (fg, bg)).
  { subst colours. destruct (Z.eqb_spec i selected), (Z.eqb_spec (selected - i) 0);
      try done; lia. }
  destruct colours as [fg' bg'].
  rewrite !(wrap64_small (x + _)) by lia.
  destruct (printRunes_spec y fg' bg' (runes o) (x + 2)) as (Hx' & Hcols & _ & Hrow);
    [lia | fold w; lia |].
  destruct (printRunes (x + 2) y fg' bg' (runes o)) as [text x'].
  cbn [fst snd] in *. fold w in Hx', Hcols. subst x'.
  rewrite !wrap64_small by lia.
  destruct (IH (x + 2 + w + 2) (i + 1)) as (IHc & IHr); [lia | lia |].
  replace (selected - (i + 1)) with (selected - i - 1) in IHr by lia.
  split.
  - rewrite !fmap_app, Hcols, IHc. cbn [fmap list_fmap cellX].
    replace (w + 4 + optionsWidth options)
      with (2 + (w + (2 + optionsWidth options))) by lia.
    rewrite (seqZ_app x 2), (seqZ_app (x + 2) w), (seqZ_app (x + 2 + w) 2) by lia.
    rewrite !seqZ_two. cbn [app]. do 3 f_equal.
  - set (span := if selected - i =? 0 then _ else _).
    assert (Hspan : forall col, inSpan span col =
              if selected - i =? 0 then (x <? col) && (col <? x + w + 3)
              else inSpan (optionSpan (x + w + 4) options (selected - i - 1)) col).
    { intros col. subst span. by destruct (selected - i =? 0). }
    assert (Hcell : forall col ch, x <= col < x + w + 4 ->
              optionCell y fg bg span
                (SetCell col y ch
                   (if (x <? col) && (col <? x + w + 3) then fg' else fg)
                   (if (x <? col) && (col <? x + w + 3) then bg' else bg))).
    { intros col ch Hc. split; [done|]. cbn [cellX cellFg cellBg]. rewrite Hspan.
      destruct (Z.eqb_spec (selected - i) 0).
      - injection Hcol as -> ->. by destruct (_ && _).
      - injection Hcol as -> ->.
        rewrite (inSpan_outside _ (x + w + 4) options (selected - i - 1) col eq_refl)
          by lia.
        by destruct (_ && _). }
    assert (Hin : forall col, x < col < x + w + 3 ->
              (x <? col) && (col <? x + w + 3) = true).
    { intros col Hc. destruct (Z.ltb_spec x col), (Z.ltb_spec col (x + w + 3)); lia. }
    assert (Hout : forall col, col <= x \/ x + w + 3 <= col ->
              (x <? col) && (col <? x + w + 3) = false).
    { intros col Hc. destruct (Z.ltb_spec x col), (Z.ltb_spec col (x + w + 3)); lia. }
    apply Forall_app. split.
    { constructor; [|constructor; [|constructor]].
      - split; [cbn [cellX]; lia|].
        pose proof (Hcell x 32 ltac:(lia)) as H. by rewrite Hout in H by lia.
      - split; [cbn [cellX]; lia|].
        pose proof (Hcell (x + 1) 60 ltac:(lia)) as H. by rewrite Hin in H by lia. }
    apply Forall_app. split.
    { apply Forall_forall. intros c Hc.
      assert (Hcx : cellX c ∈ seqZ (x + 2) w)
        by (rewrite <- Hcols; by apply list_elem_of_fmap_2).
      apply elem_of_seqZ in Hcx.
      rewrite Forall_forall in Hrow. destruct (Hrow c Hc) as (Hy & Hf & Hb).
      split; [lia|].
      pose proof (Hcell (cellX c) (cellCh c) ltac:(lia)) as H.
      rewrite Hin in H by lia. destruct c. simpl in *. by subst. }
    apply Forall_app. split.
    { constructor; [|constructor; [|constructor]].
      - split; [cbn [cellX]; lia|].
        pose proof (Hcell (x + 2 + w) 62 ltac:(lia)) as H. by rewrite Hin in H by lia.
      - split; [cbn [cellX]; lia|].
        pose proof (Hcell (x + 2 + w + 1) 32 ltac:(lia)) as H.
        by rewrite Hout in H by lia. }
    eapply Forall_impl; [exact IHr|]. intros c (Hcx & Hy & Hc).
    split; [lia|]. split; [done|]. rewrite Hc, Hspan.
    replace (x + 2 + w + 2) with (x + w + 4) by lia.
    destruct (Z.eqb_spec (selected - i) 0); [|done].
    rewrite optionSpan_neg by lia. simpl. by rewrite Hout by lia.
Qed.

Lemma quot2_nonneg a : 0 <= a -> 0 <= Z.quot a 2 /\ 2 * Z.quot a 2 <= a.
Proof.
  intros Ha. rewrite Z.quot_div_nonneg by lia.
  pose proof (Z.div_pos a 2 Ha ltac:(lia)).
  pose proof (Z.mul_div_le a 2 ltac:(lia)). lia.
Qed.

Lemma quot2_nonpos a : a <= 0 -> Z.quot a 2 <= 0 /\ a <= Z.quot a 2.
Proof.
  intros Ha. pose proof (Z.quot_opp_l a 2 ltac:(lia)) as Ho.
  destruct (quot2_nonneg (- a) ltac:(lia)). lia.
Qed.

Lemma quot2_small a : - 2 ^ 62 <= a <= 2 ^ 62 -> - 2 ^ 62 <= Z.quot a 2 <= 2 ^ 62.
Proof.
  intros Ha. destruct (Z.le_ge_cases 0 a).
  - destruct (quot2_nonneg a); lia.
  - destruct (quot2_nonpos a); lia.
Qed.

(** X27.  [LineOptions] writes, in this order, the columns of the
    left padding, of the right padding and of the options, where the
    padding on each side is half the room left by [lineOptionLength]
    (which counts the bytes of the options and 4 columns for each):
    with an odd room one column before the right padding is not
    written.  Every cell is on row [y], and the cells in the colours of
    the selection (white on black) are exactly those strictly between
    the two spaces of the option of index [selected]; with [selected]
    not an index of the options there are none. *)
Theorem LineOptions_layout x y xmax fg bg options selected :
  - 2 ^ 31 <= x <= 2 ^ 31 -> - 2 ^ 31 <= xmax <= 2 ^ 31 ->
  optionsBytes options + 4 * len options < 2 ^ 31 ->
  let count := optionsBytes options + 4 * len options in
  let xoffset := Z.quot (xmax - x - count) 2 in
  let cells := LineOptions x y xmax fg bg options selected in
  lineOptionLength options = count /\
  cellX <$> cells
    = seqZ x xoffset ++ seqZ (xmax - xoffset) xoffset
      ++ seqZ (x + xoffset) (optionsWidth options) /\
  Forall (optionCell y fg bg (optionSpan (x + xoffset) options selected)) cells.
Proof.
  intros Hx Hxmax Hb count xoffset cells.
  pose proof (optionsBytes_nonneg options) as Hob.
  pose proof (len_nonneg options) as Hlen.
  pose proof (optionsWidth_bytes options) as Hw.
  assert (Hc : lineOptionLength options = count)
    by (apply lineOptionLength_small; lia).
  split; [exact Hc|].
  subst cells. unfold LineOptions. rewrite Hc.
  rewrite (wrap64_small (xmax - x)) by lia.
  rewrite (wrap64_small (xmax - x - count)) by (fold count in Hb; lia).
  fold xoffset.
  assert (Hxo : - 2 ^ 62 <= xoffset <= 2 ^ 62)
    by (apply quot2_small; fold count in Hb; lia).
  assert (Hxo' : - 2 ^ 33 <= xoffset <= 2 ^ 33 /\
                 (0 < xoffset -> 2 * xoffset <= xmax - x - count)).
  { subst xoffset. fold count in Hb. destruct (Z.le_ge_cases 0 (xmax - x - count)).
    - destruct (quot2_nonneg (xmax - x - count)); lia.
    - destruct (quot2_nonpos (xmax - x - count)); lia. }
  rewrite !wrap64_small by lia.
  destruct (lineOptionsLoop_spec y fg bg selected options (x + xoffset) 0)
    as (Hcols & Hcells); [lia | lia |].
  replace (selected - 0) with selected in Hcells by lia.
  split.
  - rewrite !fmap_app, !fill_columns, Hcols. do 2 f_equal; f_equal; lia.
  - assert (Hpad : forall a b, (a < b -> 0 < xoffset) ->
              (a < b -> b <= x + xoffset \/ x + xoffset + count <= a) ->
              Forall (optionCell y fg bg (optionSpan (x + xoffset) options selected))
                (fill a b y fg bg 32)).
    { intros a b Hpos Hab. unfold fill. apply Forall_fmap, Forall_forall.
      intros k Hk. apply elem_of_seq in Hk. split; [done|].
      cbn [cellX cellFg cellBg].
      rewrite (inSpan_outside _ (x + xoffset) options selected _ eq_refl); [done|].
      lia. }
    apply Forall_app. split; [apply Hpad; lia|].
    apply Forall_app. split; [apply Hpad; lia|].
    eapply Forall_impl; [exact Hcells|]. by intros c [_ H].
Qed.


(** *** [Box] *)

Lemma boxWidthOf_bounds w text :
  - 2 ^ 62 <= w <= 2 ^ 62 ->
  10 <= boxWidthOf w text /\ boxWidthOf w text <= Z.max 10 (w - 5) /\
  (forall s, s ∈ text -> slen s < w - 4 -> slen s <= boxWidthOf w text) /\
  (boxWidthOf w text = 10 \/ exists s, s ∈ text /\ slen s = boxWidthOf w text).
Proof.
  intros Hw. unfold boxWidthOf. rewrite wrap64_small by lia.
  assert (H : forall acc, 10 <= acc <= Z.max 10 (w - 5) ->
    let r := foldl (fun boxWidth s =>
                      if (boxWidth <? slen s) && (slen s <? w - 4)
                      then slen s else boxWidth) acc text in
    acc <= r /\ r <= Z.max 10 (w - 5) /\
    (forall s, s ∈ text -> slen s < w - 4 -> slen s <= r) /\
    (r = acc \/ exists s, s ∈ text /\ slen s = r)).
  { induction text as [|s text IH]; intros acc Hacc.
    - simpl. split; [lia|]. split; [lia|]. split; [|by left].
      intros s Hs. by apply elem_of_nil in Hs.
    - cbn [foldl].
      set (acc' := if (acc <? slen s) && (slen s <? w - 4) then slen s else acc).
      assert (Hacc' : acc <= acc' /\ acc' <= Z.max 10 (w - 5) /\
                      (slen s < w - 4 -> slen s <= acc') /\
                      (acc' = acc \/ acc' = slen s)).
      { subst acc'. destruct (Z.ltb_spec acc (slen s)), (Z.ltb_spec (slen s) (w - 4));
          simpl; lia. }
      destruct (IH acc' ltac:(lia)) as (H1 & H2 & H3 & H4). cbn zeta.
      split; [lia|]. split; [lia|]. split.
      + intros s' Hs' Hlt. apply elem_of_cons in Hs' as [->|Hs']; [lia|].
        by apply H3.
      + destruct H4 as [H4 | (s' & Hs' & H4)].
        * destruct Hacc' as (_ & _ & _ & [Ha | Ha]).
          -- left. lia.
          -- right. exists s. split; [by left | lia].
        * right. exists s'. split; [by right | done]. }
  destruct (H 10 ltac:(lia)) as (H1 & H2 & H3 & H4). done.
Qed.

Lemma boxLines_within RuneWidth x y xmax bg text : forall fg i,
  Forall (fun s => Forall (fun c => 0 <= RuneWidth c <= 2) (runes s)) text ->
  x < xmax -> - 2 ^ 62 <= x -> xmax <= 2 ^ 62 ->
  - 2 ^ 62 <= y -> 0 <= i -> y + i + len text <= 2 ^ 62 ->
  Forall (fun c => x <= cellX c < xmax /\ y + i <= cellY c < y + i + len text)
    (boxLines RuneWidth x y xmax fg bg i text).1.
Proof.
  induction text as [|s text IH]; intros fg i Hw Hx Hlo Hhi Hy Hi Hlen; [done|].
  apply Forall_cons in Hw as [Hs Hw]. cbn [boxLines].
  unfold len in *. cbn [length] in *.
  specialize (IH ColorBlack (i + 1) Hw Hx Hlo Hhi Hy ltac:(lia) ltac:(lia)).
  destruct (boxLines RuneWidth x y xmax ColorBlack bg (i + 1) text) as [cells fg'].
  cbn [fst] in *. rewrite wrap64_small by lia.
  apply Forall_app. split.
  - pose proof (lineRunes_within RuneWidth (y + i) xmax fg bg 32 x (runes s) x Hs
                  ltac:(lia) Hlo Hhi) as Hl.
    unfold Line. eapply Forall_impl; [exact Hl|].
    intros c (Hc & Hr & _). lia.
  - eapply Forall_impl; [exact IH|]. intros c Hc. simpl in Hc. lia.
Qed.

Lemma LineOptions_within x y xmax fg bg options selected :
  - 2 ^ 31 <= x <= 2 ^ 31 -> - 2 ^ 31 <= xmax <= 2 ^ 31 ->
  optionsBytes options + 4 * len options < 2 ^ 31 ->
  x + lineOptionLength options <= xmax ->
  Forall (fun c => x <= cellX c < xmax /\ cellY c = y)
    (LineOptions x y xmax fg bg options selected).
Proof.
  intros Hx Hxmax Hb Hfit.
  pose proof (optionsBytes_nonneg options) as Hob.
  pose proof (len_nonneg options) as Hlen.
  pose proof (optionsWidth_bytes options) as Hw.
  rewrite lineOptionLength_small in Hfit by lia.
  unfold LineOptions. rewrite lineOptionLength_small by lia.
  set (count := optionsBytes options + 4 * len options) in *.
  rewrite (wrap64_small (xmax - x)) by lia.
  rewrite (wrap64_small (xmax - x - count)) by lia.
  set (xoffset := Z.quot (xmax - x - count) 2).
  destruct (quot2_nonneg (xmax - x - count) ltac:(lia)) as [Hx0 Hx1].
  fold xoffset in Hx0, Hx1.
  rewrite !wrap64_small by lia.
  destruct (lineOptionsLoop_spec y fg bg selected options (x + xoffset) 0)
    as (_ & Hcells); [lia | lia |].
  assert (Hpad : forall a b, x <= a -> b <= xmax ->
            Forall (fun c => x <= cellX c < xmax /\ cellY c = y)
              (fill a b y fg bg 32)).
  { intros a b Ha Hb'. unfold fill. apply Forall_fmap, Forall_forall.
    intros k Hk. apply elem_of_seq in Hk. simpl. lia. }
  apply Forall_app. split; [apply Hpad; lia|].
  apply Forall_app. split; [apply Hpad; lia|].
  eapply Forall_impl; [exact Hcells|]. intros c (Hc & Hy & _). lia.
Qed.

(** X28.  On a terminal of [w] columns and [h] lines the box is at
    least 10 columns wide, wide enough for the menu when there is one,
    and as high as the text plus one row for the menu; and [Box] writes
    no cell outside the rectangle of its border. *)
Theorem Box_within_frame RuneWidth w h u :
  Forall (fun s => Forall (fun c => 0 <= RuneWidth c <= 2) (runes s))
    (UI.boxText u) ->
  0 <= w <= 2 ^ 30 -> 0 <= h <= 2 ^ 30 -> len (UI.boxText u) <= 2 ^ 30 ->
  optionsBytes (UI.boxMenu u) + 4 * len (UI.boxMenu u) < 2 ^ 30 ->
  let fr := boxFrame w h u in
  frameX fr + 10 <= frameXmax fr /\
  (UI.boxMenu u <> [] ->
   frameX fr + lineOptionLength (UI.boxMenu u) <= frameXmax fr) /\
  frameYmax fr = frameY fr + len (UI.boxText u)
                 + (if len (UI.boxMenu u) =? 0 then 0 else 1) /\
  Forall (inRect (frameX fr - 1) (frameY fr - 1) (frameXmax fr) (frameYmax fr))
    (Box RuneWidth w h u).
Proof.
  intros Hw Hwd Hht Hlines Hmenu.
  pose proof (optionsBytes_nonneg (UI.boxMenu u)) as Hob.
  pose proof (len_nonneg (UI.boxMenu u)) as Hml.
  pose proof (len_nonneg (UI.boxText u)) as Htl.
  destruct (boxWidthOf_bounds w (UI.boxText u) ltac:(lia)) as (Hb1 & Hb2 & _).
  pose proof (lineOptionLength_small (UI.boxMenu u) ltac:(lia)) as Hcount.
  unfold Box. unfold boxFrame. cbn zeta.
  set (boxWidth := boxWidthOf w (UI.boxText u)) in *.
  rewrite Hcount. set (count := optionsBytes _ + 4 * _) in *.
  rewrite (wrap64_small (w - boxWidth)) by lia.
  rewrite (wrap64_small (h - len (UI.boxText u))) by lia.
  set (x := Z.quot (w - boxWidth) 2). set (y := Z.quot (h - len (UI.boxText u)) 2).
  assert (Hx : - 2 ^ 30 <= x <= 2 ^ 30).
  { subst x. destruct (Z.le_ge_cases 0 (w - boxWidth)).
    - destruct (quot2_nonneg (w - boxWidth)); lia.
    - destruct (quot2_nonpos (w - boxWidth)); lia. }
  assert (Hy : - 2 ^ 30 <= y <= 2 ^ 30).
  { subst y. destruct (Z.le_ge_cases 0 (h - len (UI.boxText u))).
    - destruct (quot2_nonneg (h - len (UI.boxText u))); lia.
    - destruct (quot2_nonpos (h - len (UI.boxText u))); lia. }
  rewrite !(wrap64_small (x + _)) by lia.
  rewrite !(wrap64_small (y + _)) by lia.
  set (xmax := if negb (len (UI.boxMenu u) =? 0) then _ else _).
  set (ymax := if negb (len (UI.boxMenu u) =? 0) then _ else _).
  assert (Hxmax : x + boxWidth <= xmax /\ xmax <= x + Z.max boxWidth count /\
                  (len (UI.boxMenu u) <> 0 -> x + count <= xmax)).
  { subst xmax. destruct (Z.eqb_spec (len (UI.boxMenu u)) 0); simpl; [lia|].
    destruct (Z.gtb_spec (x + boxWidth) (x + count)); lia. }
  assert (Hymax : ymax = y + len (UI.boxText u)
                         + (if len (UI.boxMenu u) =? 0 then 0 else 1)).
  { subst ymax. destruct (Z.eqb_spec (len (UI.boxMenu u)) 0); simpl; [lia|].
    rewrite wrap64_small by lia. lia. }
  clearbody xmax ymax. cbn [frameX frameY frameXmax frameYmax].
  split; [lia|]. split.
  { intros Hne. apply Hxmax. unfold len. destruct (UI.boxMenu u); [done | simpl; lia]. }
  split; [exact Hymax|].
  pose proof (boxLines_within RuneWidth x y xmax ColorWhite (UI.boxText u) ColorRed 0
                Hw ltac:(lia) ltac:(lia) ltac:(lia) ltac:(lia) ltac:(lia) ltac:(lia))
    as Htext.
  destruct (boxLines RuneWidth x y xmax ColorRed ColorWhite 0 (UI.boxText u))
    as [text fg]. cbn [fst] in Htext.
  assert (Hrect : forall cx cy ch a b,
            x - 1 <= cx <= xmax -> y - 1 <= cy <= ymax ->
            inRect (x - 1) (y - 1) xmax ymax (SetCell cx cy ch a b)).
  { intros. split; simpl; lia. }
  assert (Hyy : y + len (UI.boxText u) <= ymax <= y + len (UI.boxText u) + 1)
    by (destruct (len (UI.boxMenu u) =? 0); lia).
  rewrite (wrap64_small (ymax - 1)), !(wrap64_small (x - 1)),
    !(wrap64_small (y - 1)) by lia.
  apply Forall_app. split.
  { eapply Forall_impl; [exact Htext|]. intros c Hc. simpl in Hc. split; lia. }
  apply Forall_app. split.
  { destruct (Z.eqb_spec (len (UI.boxMenu u)) 0) as [Hz|Hnz]; simpl; [done|].
    pose proof (LineOptions_within x (ymax - 1) xmax fg ColorWhite (UI.boxMenu u)
                  (UI.boxMenuButton u) ltac:(lia) ltac:(lia) ltac:(lia)
                  ltac:(rewrite Hcount; lia)) as Hm.
    eapply Forall_impl; [exact Hm|]. intros c (Hc & Hr). split; lia. }
  apply Forall_app. split.
  { apply Forall_flat_map, Forall_forall. intros k Hk. apply elem_of_seq in Hk.
    constructor; [|constructor; [|constructor]]; apply Hrect; lia. }
  apply Forall_app. split.
  { apply Forall_flat_map, Forall_forall. intros k Hk. apply elem_of_seq in Hk.
    constructor; [|constructor; [|constructor]]; apply Hrect; lia. }
  constructor; [|constructor; [|constructor; [|constructor; [|constructor]]]];
    apply Hrect; lia.
Qed.


(** ** Examples, witnesses and failing inputs *)

(** The root directory [abc] after its arrival. *)
Lemma sortCurrentDir_bijection_witness :
  consistent uAbc /\
  exists u', sortCurrentDir uAbc = Ok u' /\ UI.sortPerm u' = [1; 0; 2] /\
             sortCurrentDir u' = Ok u'.
Proof.
  split; [reflexivity|].
  destruct (sortCurrentDir_bijection uAbc) as (u' & Hs & _ & _ & _ & _ & _ & Hi);
    [reflexivity|].
  exists u'. split; [exact Hs|]. split; [|exact Hi].
  vm_compute in Hs. by simplify_eq.
Defined.



(** C4, at the failing input.  A root directory of two empty
    sub-directories [x] and [y], sorted by average size with 'A' (+1)
    and with 'A' twice (-1): the two rows tie on the average size and on
    the size, and [Less] answers false both ways, so the two distinct
    entries compare equal; the [return] under "if avgSize is equal, sort
    by size" leaves before [return iname < jname] is reached.  Under the
    size, the sort the program starts with, the same two rows are ordered
    by their names. *)
Theorem Less_average_size_unordered :
  observe (fun u => (UI.sortByAverageSize u, names u,
                     Less (sortData u) 0 1, Less (sortData u) 1 0))
    (Show env0 "remote:" (on24 [rootChan twoEmptyDirs; events Key_A]))
  = Ok (1, ["x"; "y"], Ok false, Ok false) /\
  observe (fun u => (UI.sortByAverageSize u, names u,
                     Less (sortData u) 0 1, Less (sortData u) 1 0))
    (Show env0 "remote:" (on24 [rootChan twoEmptyDirs; events Key_A; events Key_A]))
  = Ok (-1, ["x"; "y"], Ok false, Ok false) /\
  observe (fun u => (UI.sortBySize u, names u,
                     Less (sortData u) 0 1, Less (sortData u) 1 0))
    (Show env0 "remote:" (on24 [rootChan twoEmptyDirs]))
  = Ok (1, ["x"; "y"], Ok true, Ok false).
Proof. repeat split; vm_compute; reflexivity. Qed.

(** One step down from the first row of [abc]: [b], the entry left behind, is selected. *)
Lemma move_visual_toggles_stored_cursor_witness :
  UI.d uAbcVisual <> None /\ UI.visualSelectMode uAbcVisual = true /\
  exists u', move 1 uAbcVisual = Ok u' /\
    UI.selectedEntries u' = {[ "b" := {| entry := 0; offset := 0 |} ]}.
Proof.
  split; [done|]. split; [reflexivity|].
  destruct (move_visual_toggles_stored_cursor 1 uAbcVisual 1 (file "b"))
    as (u' & Hm & Hs); [done | reflexivity | reflexivity | reflexivity |].
  exists u'. split; [exact Hm|]. rewrite Hs. reflexivity.
Defined.

(** C6, counterexample.  [abc] is shown as b, a, c.  After entering
    visual select mode, one step down lands on [a] and a page down lands
    on [c]; in both cases the selection holds [b] alone, the landing entry
    is not toggled. *)
Lemma move_visual_counterexample :
  observe (fun u => (display u, cursorEntry u, selected u))
    (Show env0 "remote:" (on24 [rootChan abc; events Key_V; events KeyArrowDown]))
  = Ok (["b"; "a"; "c"], Some "a", ["b"]) /\
  observe (fun u => (display u, cursorEntry u, selected u))
    (Show env0 "remote:" (on24 [rootChan abc; events Key_V; events KeyPgdn]))
  = Ok (["b"; "a"; "c"], Some "c", ["b"]).
Proof. split; vm_compute; reflexivity. Qed.

(** C10, at the failing inputs.  [toggleSelectForCursor] reads
    [u.sortPerm[0]] of an empty slice and panics: on 'v' before the root
    directory has arrived, on 'v' in a directory without children, and on
    a move in visual select mode in such a directory. *)
Theorem toggleSelectForCursor_out_of_range :
  Show env0 "remote:" (on24 [events Key_v]) = Panic "index out of range" /\
  Show env0 "remote:" (on24 [rootChan emptyRoot; events Key_v])
    = Panic "index out of range" /\
  Show env0 "remote:" (on24 [rootChan emptyRoot; events Key_V; events KeyArrowUp])
    = Panic "index out of range".
Proof. repeat split; vm_compute; reflexivity. Qed.

(** C5, at the failing input.  In a directory without children one
    [move(1)] stores the cursor index -1: the range check sets
    [entry = entries - 1]. *)
Theorem move_in_empty_directory :
  observe (fun u => (names u, cursor u))
    (Show env0 "remote:" (on24 [rootChan emptyRoot; events KeyArrowDown]))
  = Ok ([], {| entry := -1; offset := 0 |}).
Proof. vm_compute; reflexivity. Qed.

(** C2, at the failing input.  With the delete popup of [b] staged and
    "confirm" highlighted, the escape key hides the box and nothing else:
    menu, highlighted option and handler survive; the enter key pressed
    afterwards deletes [b]; and a delete popup staged afterwards starts
    with "confirm" highlighted. *)
Theorem dismissed_menu_still_executes :
  observe (fun u => (UI.showBox u, UI.boxMenu u, UI.boxMenuButton u,
                     UI.boxMenuHandler u, UI.f u))
    (Show env0 "remote:"
       (on24 [rootChan abc; events Key_d; events KeyArrowRight; events KeyEsc]))
  = Ok (false, ["cancel"; "confirm"], 1,
        Some (deleteFileHandler {| entry := 0; offset := 0 |} 1 (file "b")), []) /\
  observe (fun u => (UI.f u, names u))
    (Show env0 "remote:"
       (on24 [rootChan abc; events Key_d; events KeyArrowRight; events KeyEsc;
              events KeyEnter]))
  = Ok ([DeleteFile (file "b")], ["a"; "c"]) /\
  observe (fun u => (UI.showBox u, UI.boxMenu u, UI.boxMenuButton u))
    (Show env0 "remote:"
       (on24 [rootChan abc; events Key_d; events KeyArrowRight; events KeyEsc;
              events Key_d]))
  = Ok (true, ["cancel"; "confirm"], 1).
Proof. repeat split; vm_compute; reflexivity. Qed.

(** C3, at the failing input.  [b] is selected at rank 0 of the listing
    sorted by size; the listing is then sorted by name, which puts [a] at
    rank 0; the confirmed batch delete deletes [a]. *)
Theorem batch_delete_resolves_stale_rank :
  observe selected
    (Show env0 "remote:" (on24 [rootChan abc; events Key_v]))
  = Ok ["b"] /\
  observe (fun u => (UI.f u, names u))
    (Show env0 "remote:"
       (on24 [rootChan abc; events Key_v; events Key_n; events Key_D;
              events KeyArrowRight; events KeyEnter]))
  = Ok ([DeleteFile (file "a")], ["b"; "c"]).
Proof. split; vm_compute; reflexivity. Qed.

(** C1, at the failing input.  [b] is selected at rank 0 under the sort by
    size and [c] at rank 2 under the sort by name; the confirmed batch
    delete deletes [c] and [a], removes the children at the indices 2 and
    0, in this order, and leaves [b], a selected child, where the never
    selected child is [a]. *)
Theorem batch_delete_removes_unselected :
  observe (fun u => (names u, selected u))
    (Show env0 "remote:"
       (on24 [rootChan abc; events Key_v; events Key_n; events KeyArrowDown;
              events KeyArrowDown; events Key_v; events Key_D;
              events KeyArrowRight]))
  = Ok (["a"; "b"; "c"], ["c"; "b"]) /\
  observe (fun u => (UI.f u, names u))
    (Show env0 "remote:"
       (on24 [rootChan abc; events Key_v; events Key_n; events KeyArrowDown;
              events KeyArrowDown; events Key_v; events Key_D;
              events KeyArrowRight; events KeyEnter]))
  = Ok ([DeleteFile (file "c"); DeleteFile (file "a")], ["b"]).
Proof. split; vm_compute; reflexivity. Qed.

(** C8, at the failing input.  The delete popup is staged with the cursor
    on row 0, the cursor is moved to row 2 while the popup is shown, and
    the delete is confirmed: two children remain and the stored cursor
    index is 2; the next 'd' panics. *)
Theorem single_delete_cursor_past_end :
  observe (fun u => (names u, cursor u))
    (Show env0 "remote:"
       (on24 [rootChan abc; events Key_d; events KeyArrowDown;
              events KeyArrowDown; events KeyArrowRight; events KeyEnter]))
  = Ok (["a"; "c"], {| entry := 2; offset := 0 |}) /\
  Show env0 "remote:"
    (on24 [rootChan abc; events Key_d; events KeyArrowDown;
           events KeyArrowDown; events KeyArrowRight; events KeyEnter;
           events KeyEsc; events Key_d])
  = Panic "index out of range".
Proof. split; vm_compute; reflexivity. Qed.

(** ** The scenarios of the specification *)

(** Children a (10), b (100), c (5) sorted by size, largest first, are
    shown as b, a, c. *)
Example display_by_size :
  observe display (Show env0 "remote:" (on24 [rootChan abc]))
  = Ok ["b"; "a"; "c"].
Proof. vm_compute. reflexivity. Qed.

(** Deleting the only child: no child is left and the cursor is 0. *)
Example single_delete_last_child :
  observe (fun u => (names u, cursor u, UI.f u))
    (Show env0 "remote:"
       (on24 [rootChan oneFile; events Key_d; events KeyArrowRight;
              events KeyEnter]))
  = Ok ([], {| entry := 0; offset := 0 |}, [DeleteFile (file "a")]).
Proof. vm_compute. reflexivity. Qed.

(** Positions 2, 5, 1 are sorted to 5, 2, 1, and removing the children
    at these indices of six leaves the three others in their order. *)
Example positions_2_5_1 :
  sort_Sort [2; 5; 1] = Ok [5; 2; 1] /\
  observe names
    (removeEntries [5; 2; 1]
       (UI.set_entries (Entries sixFiles)
          (UI.set_d (Some sixFiles) (NewUI "remote:"))))
  = Ok ["a"; "d"; "e"].
Proof. split; vm_compute; reflexivity. Qed.

(** The same through the keys: the rows 1, 2 and 5 are selected, and the
    batch delete is confirmed at once. *)
Example batch_delete_fresh :
  observe (fun u => (names u, selected u))
    (Show env0 "remote:"
       (on24 [rootChan sixFiles; events KeyArrowDown; events Key_v;
              events KeyArrowDown; events Key_v; events KeyPgdn;
              events Key_v; events Key_D; events KeyArrowRight;
              events KeyEnter]))
  = Ok (["a"; "d"; "e"], []).
Proof. vm_compute. reflexivity. Qed.

(** Toggling the selection twice on the same row restores it. *)
Example toggle_twice :
  observe selected
    (Show env0 "remote:" (on24 [rootChan abc; events Key_v; events Key_v]))
  = Ok [].
Proof. vm_compute. reflexivity. Qed.

(** ** Examples for the properties of the controller *)

(** The state after the arrival of the root [abc]. *)
Lemma reachable_sortOk_witness :
  exists u, reachable env0 "remote:" u /\ names u = ["a"; "b"; "c"] /\
    UI.sortPerm u ≡ₚ iota (length (UI.entries u)).
Proof.
  assert (Hi : { u | Show env0 "remote:" (on24 [rootChan abc]) = Ok u /\
                     names u = ["a"; "b"; "c"] }).
  { eexists. split; vm_compute; reflexivity. }
  destruct Hi as (u & Hi & Hn). exists u.
  pose proof (Show_reachable _ _ _ _ Hi) as Hr.
  split; [exact Hr|]. split; [exact Hn|].
  exact (proj1 (reachable_sortOk env0 "remote:" u Hr)).
Defined.

(** The state after the arrival of the root [abc] and 'd'. *)
Lemma reachable_boxOk_witness :
  exists u, reachable env0 "remote:" u /\
    UI.boxMenu u = ["cancel"; "confirm"] /\
    (UI.boxMenuButton u = 0 \/ UI.boxMenuButton u = 1).
Proof.
  assert (Hi : { u | Show env0 "remote:" (on24 [rootChan abc; events Key_d]) = Ok u /\
                     UI.boxMenu u = ["cancel"; "confirm"] }).
  { eexists. split; vm_compute; reflexivity. }
  destruct Hi as (u & Hi & Hm). exists u.
  pose proof (Show_reachable _ _ _ _ Hi) as Hr.
  split; [exact Hr|]. split; [exact Hm|].
  exact (proj1 (reachable_boxOk env0 "remote:" u Hr)).
Defined.

(** 'd' on [abc]: the backend is not called. *)
Lemma backend_only_on_confirm_witness :
  exists u', iteration env0 24 (events Key_d) uAbc = Ok u' /\
    UI.f u' = UI.f uAbc.
Proof.
  assert (Hi : { u' | iteration env0 24 (events Key_d) uAbc = Ok u' }).
  { eexists. vm_compute. reflexivity. }
  destruct Hi as (u' & Hi). exists u'. split; [exact Hi|].
  destruct (backend_only_on_confirm env0 24 (events Key_d) uAbc u' Hi)
    as [Hf | (Hev & _)]; [exact Hf | discriminate Hev].
Defined.

(** The batch dialog on [abc], the option left on cancel. *)
Lemma handleBoxOption_cancel_witness :
  UI.boxMenuHandler (deleteSelected uAbc) = Some deleteSelectedHandler /\
  UI.boxMenuButton (deleteSelected uAbc) <> 1 /\
  observe (fun u => (UI.boxText u, UI.boxMenu u, names u))
    (handleBoxOption env0 (deleteSelected uAbc))
  = Ok (["Finished:"; "Aborted!"], [], ["a"; "b"; "c"]).
Proof.
  split; [reflexivity|]. split; [discriminate|].
  rewrite (handleBoxOption_cancel env0 deleteSelectedHandler (deleteSelected uAbc)
             eq_refl ltac:(discriminate)).
  reflexivity.
Defined.

(** A single delete on [abc] that the backend refuses. *)
Lemma handleBoxOption_error_keeps_listing_witness :
  exists u0 u', deleteSingle uAbc = Ok u0 /\
    handleBoxOption envDenied (moveBox 1 u0) = Ok u' /\
    UI.boxText u' = ["error:"; "denied"] /\
    UI.entries u' = UI.entries (moveBox 1 u0) /\ names u' = ["a"; "b"; "c"].
Proof.
  assert (Hi : { p : UI * UI | deleteSingle uAbc = Ok p.1 /\
                   handleBoxOption envDenied (moveBox 1 p.1) = Ok p.2 /\
                   UI.boxText p.2 = ["error:"; "denied"] /\
                   names p.2 = ["a"; "b"; "c"] }).
  { eexists (_, _). cbn [fst snd].
    split; [vm_compute; reflexivity|]. split; [vm_compute; reflexivity|].
    split; vm_compute; reflexivity. }
  destruct Hi as ([u0 u'] & Hd & Hh & Ht & Hn). cbn [fst snd] in *.
  exists u0, u'. split; [exact Hd|]. split; [exact Hh|]. split; [exact Ht|].
  split; [|exact Hn].
  exact (proj1 (proj2 (handleBoxOption_error_keeps_listing envDenied _ u' "denied" Hh Ht))).
Defined.

(** The two-option menu with the option on confirm: a step right stays. *)
Lemma moveBox_clamps_witness :
  UI.boxMenu (UI.set_boxMenuButton 1 (deleteSelected uAbc)) <> [] /\
  0 <= UI.boxMenuButton (moveBox 1 (UI.set_boxMenuButton 1 (deleteSelected uAbc))) < 2.
Proof.
  split; [discriminate|].
  exact (proj1 (moveBox_clamps 1 (UI.set_boxMenuButton 1 (deleteSelected uAbc))
                  ltac:(discriminate))).
Defined.

Lemma abc_photos_paths :
  JoinRootPath (UI.fsName uAbcRoot) (dPath abc) <>
  JoinRootPath (UI.fsName uAbcRoot) (dPath photos).
Proof. intros H. vm_compute in H. discriminate H. Defined.

(** From [abc] to [photos], two moves there, and back. *)
Lemma cursor_kept_elsewhere_witness :
  exists u1 u2 u3,
    setCurrentDir photos uAbcRoot = Ok u1 /\ moves [1; 1] u1 = Ok u2 /\
    setCurrentDir abc u2 = Ok u3 /\
    cursor u2 = {| entry := 1; offset := 0 |} /\
    cursor u3 = {| entry := 0; offset := 0 |}.
Proof.
  assert (Hi : { t : UI * UI * UI |
                   setCurrentDir photos uAbcRoot = Ok t.1.1 /\
                   moves [1; 1] t.1.1 = Ok t.1.2 /\
                   setCurrentDir abc t.1.2 = Ok t.2 /\
                   cursor t.1.2 = {| entry := 1; offset := 0 |} }).
  { eexists (_, _, _). cbn [fst snd].
    split; [vm_compute; reflexivity|]. split; [vm_compute; reflexivity|].
    split; vm_compute; reflexivity. }
  destruct Hi as ([[u1 u2] u3] & H1 & H2 & H3 & Hc). cbn [fst snd] in *.
  exists u1, u2, u3. split; [exact H1|]. split; [exact H2|].
  split; [exact H3|]. split; [exact Hc|].
  rewrite (cursor_kept_elsewhere [1; 1] abc photos uAbcRoot u1 u2 u3
             abc_photos_paths H1 H2 H3).
  reflexivity.
Defined.

(** Into [photos] from [top] and up again. *)
Lemma enter_up_round_trip_witness :
  exists u1 u2, enter envTree uTop = Ok u1 /\ UI.path u1 = "remote:/photos" /\
    up envTree u1 = Ok u2 /\ UI.path u2 = "remote:" /\ cursor u2 = cursor uTop.
Proof.
  destruct (enter_up_round_trip envTree uTop top 0 photos)
    as (u1 & u2 & He & _ & Hp1 & Hu & _ & _ & Hp2 & Hc & _);
    [reflexivity | reflexivity | discriminate | reflexivity | reflexivity
    | reflexivity | reflexivity |].
  exists u1, u2. split; [exact He|]. split; [exact Hp1|]. split; [exact Hu|].
  split; [exact Hp2 | exact Hc].
Defined.

(** On the first row of [abc], the entry [b]. *)
Lemma toggleSelectForCursor_twice_witness :
  exists u1, toggleSelectForCursor uAbc = Ok u1 /\
    selected u1 = ["b"] /\ toggleSelectForCursor u1 = Ok uAbc.
Proof.
  assert (Hi : { u1 | toggleSelectForCursor uAbc = Ok u1 /\ selected u1 = ["b"] }).
  { eexists. split; vm_compute; reflexivity. }
  destruct Hi as (u1 & Ht & Hs). exists u1. split; [exact Ht|]. split; [exact Hs|].
  destruct (toggleSelectForCursor_twice uAbc u1 Ht) as (pos & e & Hp & He & _ & H2).
  vm_compute in Hp. apply (inj Ok) in Hp. subst pos.
  vm_compute in He. apply (inj Ok) in He. subst e.
  exact H2.
Defined.

(** The first and the last slot of the identity on three children. *)
Lemma Swap_exchanges_witness :
  exists ds', Swap (sortData uAbc) 0 2 = Ok ds' /\
    ncduSort.sortPerm ds' = [2; 1; 0] /\ Swap ds' 0 2 = Ok (sortData uAbc).
Proof.
  assert (Hi : { ds' | Swap (sortData uAbc) 0 2 = Ok ds' /\
                       ncduSort.sortPerm ds' = [2; 1; 0] }).
  { eexists. split; vm_compute; reflexivity. }
  destruct Hi as (ds' & Hs & Hp). exists ds'. split; [exact Hs|]. split; [exact Hp|].
  exact (proj2 (proj2 (proj2 (proj2 (proj2 (proj2
           (Swap_exchanges (sortData uAbc) 0 2 ds' Hs))))))).
Defined.

Lemma uAbc_sortPerm : UI.sortPerm uAbc ≡ₚ iota (length (UI.entries uAbc)).
Proof. apply perm_swap. Defined.

(** The largest of the sizes 10, 100 and 5. *)
Lemma biggestEntry_max_witness :
  UI.d uAbc = Some abc /\ UI.entries uAbc = Entries abc /\
  biggestEntry uAbc = Ok 100.
Proof.
  split; [reflexivity|]. split; [reflexivity|].
  destruct (biggestEntry_max uAbc abc eq_refl eq_refl uAbc_sortPerm)
    as (m & Hm & _).
  rewrite Hm. vm_compute in Hm. exact (eq_sym Hm).
Defined.

(** [abc] holds files only. *)
Lemma hasEmptyDir_spec_witness :
  UI.d uAbc = Some abc /\ UI.entries uAbc = Entries abc /\
  hasEmptyDir uAbc = Ok false.
Proof.
  split; [reflexivity|]. split; [reflexivity|].
  destruct (hasEmptyDir_spec uAbc abc eq_refl eq_refl uAbc_sortPerm)
    as (b & Hb & _).
  rewrite Hb. vm_compute in Hb. exact (eq_sym Hb).
Defined.

(** [abc] on a terminal of 24 lines. *)
Lemma Draw_Ok_witness :
  consistent uAbc /\ Draw 24 uAbc = Ok (UI.set_dirListHeight 21 uAbc).
Proof.
  split; [reflexivity|].
  apply (Draw_Ok 24 uAbc); [reflexivity | exact uAbc_sortPerm |].
  intros _. vm_compute. split; discriminate.
Defined.

(** 'd' on the first row of [abc], the file [b]. *)
Lemma delete_opens_menu_witness :
  exists u', delete_ uAbc = Ok u' /\
    UI.boxMenu u' = ["cancel"; "confirm"] /\ UI.f u' = UI.f uAbc.
Proof.
  assert (Hi : { u' | delete_ uAbc = Ok u' }).
  { eexists. vm_compute. reflexivity. }
  destruct Hi as (u' & Hd). exists u'. split; [exact Hd|].
  destruct (delete_opens_menu uAbc u' Hd) as (_ & Hm & Hf & _).
  split; [|exact Hf].
  exact (proj1 (Hm ltac:(discriminate) ltac:(discriminate))).
Defined.

Lemma env0_rangeOrderOk : rangeOrderOk env0.
Proof. intros m. reflexivity. Defined.

(** 'D' and confirm on [abc] with nothing selected. *)
Lemma deleteSelected_empty_witness :
  rangeOrderOk env0 /\ UI.selectedEntries uAbc = ∅ /\
  exists u', selectedHandler env0 1 uAbc
               = Ok (u', ("Successfully deleted all items!", None)) /\
    UI.f u' = UI.f uAbc /\ UI.entries u' = UI.entries uAbc.
Proof.
  split; [exact env0_rangeOrderOk|]. split; [reflexivity|].
  destruct (deleteSelected_empty env0 uAbc env0_rangeOrderOk eq_refl eq_refl)
    as (u' & Hs & Hf & _ & He & _).
  exists u'. split; [exact Hs|]. split; [exact Hf | exact He].
Defined.

(** The default sort, by size. *)
Lemma lessAttrs_strict_weak_order_witness :
  selectedKey (NewUI "remote:") <> Some ByAverageSize /\
  forall a n, ncduSort.lessAttrs (NewUI "remote:") a a n n = false.
Proof.
  split; [discriminate|].
  exact (proj1 (lessAttrs_strict_weak_order (NewUI "remote:") ltac:(discriminate))).
Defined.

(** [abc] by size: [b] (100) is shown above [a] (10), and [a] is not less
    than [b]. *)
Lemma sortCurrentDir_sorted_witness :
  exists u', sortCurrentDir uAbc = Ok u' /\ UI.sortPerm u' = [1; 0; 2] /\
    childLess uAbc abc 0 1 = false.
Proof.
  assert (Hi : { u' | sortCurrentDir uAbc = Ok u' /\ UI.sortPerm u' = [1; 0; 2] }).
  { eexists. split; vm_compute; reflexivity. }
  destruct Hi as (u' & Hs & Hp). exists u'. split; [exact Hs|]. split; [exact Hp|].
  apply (sortCurrentDir_sorted uAbc abc u' eq_refl eq_refl ltac:(discriminate) Hs
           0%nat 1%nat 1 0); [lia | by rewrite Hp | by rewrite Hp].
Defined.

Lemma abc_names_NoDup : NoDup (Remote <$> Entries abc).
Proof.
  apply (bool_decide_unpack (NoDup (Remote <$> Entries abc))).
  vm_compute. exact I.
Defined.

(** [abc] by size: b, a, c is the only order. *)
Lemma sortCurrentDir_order_unique_witness :
  exists u', sortCurrentDir uAbc = Ok u' /\ [1; 0; 2] = UI.sortPerm u'.
Proof.
  assert (Hi : { u' | sortCurrentDir uAbc = Ok u' }).
  { eexists. vm_compute. reflexivity. }
  destruct Hi as (u' & Hs). exists u'. split; [exact Hs|].
  apply (sortCurrentDir_order_unique uAbc abc u' [1; 0; 2] eq_refl eq_refl
           ltac:(discriminate)); [| exact Hs | apply perm_swap |].
  - exact abc_names_NoDup.
  - intros k k' p q Hlt Hk Hk'.
    destruct k as [|[|[|k]]]; destruct k' as [|[|[|k']]];
      try lia; simpl in Hk, Hk'; try discriminate;
      apply (inj Some) in Hk; apply (inj Some) in Hk'; subst p q;
      vm_compute; reflexivity.
Defined.

Lemma uAbc_viewport : viewportOk 3 20 (cursor uAbc).
Proof. vm_compute. repeat split; discriminate. Defined.

(** A page down on the first of the three rows of [abc] stops on the
    last. *)
Lemma move_clamps_cursor_witness :
  UI.d uAbc <> None /\ UI.visualSelectMode uAbc = false /\
  exists u', move 20 uAbc = Ok u' /\ entry (cursor u') = 2.
Proof.
  split; [discriminate|]. split; [reflexivity|].
  destruct (move_clamps_cursor 20 uAbc) as (u' & Hm & He & _);
    [discriminate | reflexivity | vm_compute; split; reflexivity
    | reflexivity | split; discriminate | exact uAbc_viewport |].
  exists u'. split; [exact Hm | exact He].
Defined.

(** Down, a page down and up on [abc]. *)
Lemma moves_viewport_witness :
  UI.d uAbc <> None /\ UI.visualSelectMode uAbc = false /\
  exists u', moves [1; 20; -1] uAbc = Ok u' /\ viewportOk 3 20 (cursor u').
Proof.
  split; [discriminate|]. split; [reflexivity|].
  destruct (moves_viewport [1; 20; -1] uAbc) as (u' & Hm & Hv);
    [discriminate | reflexivity | vm_compute; split; reflexivity | reflexivity
    | repeat constructor; discriminate | exact uAbc_viewport |].
  exists u'. split; [exact Hm | exact Hv].
Defined.
(** 'd', right and enter on the first row of [abc]: the file [b] is
    deleted. *)
Lemma deleteSingle_confirmed_witness :
  UI.d uAbcRoot = Some abc /\ UI.entries uAbcRoot = Entries abc /\
  exists u1 u2, deleteSingle uAbcRoot = Ok u1 /\
    handleBoxOption env0 (moveBox 1 u1) = Ok u2 /\
    UI.f u2 = [DeleteFile (file "b")] /\ names u2 = ["a"; "c"].
Proof.
  split; [reflexivity|]. split; [reflexivity|].
  destruct (deleteSingle_confirmed env0 uAbcRoot abc)
    as (pos & e & u1 & u2 & Hp & He & Hd & Hh & Hf & _ & Hes & _);
    [reflexivity | reflexivity | reflexivity | exact uAbc_sortPerm
    | reflexivity | reflexivity | exact uAbc_viewport
    | split; [discriminate | reflexivity] | intros op; reflexivity |].
  exists u1, u2. split; [exact Hd|]. split; [exact Hh|].
  vm_compute in Hp. apply (inj Ok) in Hp. subst pos.
  vm_compute in He. apply (inj Ok) in He. subst e.
  split; [exact Hf|]. unfold names. rewrite Hes. reflexivity.
Defined.

Lemma abc_keys_NoDup : NoDup (String_ <$> UI.entries uAbcSelected).
Proof.
  apply (bool_decide_unpack (NoDup (String_ <$> UI.entries uAbcSelected))).
  vm_compute. exact I.
Defined.

(** 'D' and confirm on [abc] with [b] selected. *)
Lemma deleteSelected_confirmed_witness :
  UI.selectedEntries uAbcSelected <> ∅ /\ freshSelection uAbcSelected /\
  exists u', selectedHandler env0 1 uAbcSelected
               = Ok (u', ("Successfully deleted all items!", None)) /\
    names u' = ["a"; "c"] /\ UI.selectedEntries u' = ∅.
Proof.
  assert (Hne : UI.selectedEntries uAbcSelected <> ∅)
    by apply insert_non_empty.
  assert (Hfresh : freshSelection uAbcSelected).
  { intros key snap H.
    change (UI.selectedEntries uAbcSelected)
      with ({[ "b" := {| entry := 0; offset := 0 |} ]} : gmap string dirPos) in H.
    apply lookup_singleton_Some in H as [<- <-].
    exists 1, (file "b"). split; reflexivity. }
  split; [exact Hne|]. split; [exact Hfresh|].
  destruct (deleteSelected_confirmed env0 uAbcSelected abc)
    as (u1 & ps & ps' & es & u' & _ & _ & _ & Hs & _ & He & Hsel & _);
    [ exact env0_rangeOrderOk | intros log op; reflexivity | reflexivity
    | reflexivity | reflexivity
    | exact abc_keys_NoDup
    | exact Hne | exact Hfresh | reflexivity | reflexivity
    | split; discriminate | reflexivity | reflexivity |].
  exists u'. split; [exact Hs|]. split; [|exact Hsel].
  unfold names. rewrite He. reflexivity.
Defined.
(** Two steps down from the first row of [abc] in visual select mode:
    the rows of [b] and [a] are selected, the cursor is on [c]. *)
Lemma visual_sweep_selects_rows_witness :
  UI.visualSelectMode uAbcVisual = true /\ UI.selectedEntries uAbcVisual = ∅ /\
  exists u', moves (replicate 2 1) uAbcVisual = Ok u' /\
    entry (cursor u') = 2 /\
    is_Some (UI.selectedEntries u' !! "b") /\
    is_Some (UI.selectedEntries u' !! "a") /\
    ~ is_Some (UI.selectedEntries u' !! "c").
Proof.
  split; [reflexivity|]. split; [reflexivity|].
  destruct (visual_sweep_selects_rows 2 uAbcVisual abc)
    as (u' & Hm & Hc & _ & Hsel);
    [ reflexivity | reflexivity | exact uAbc_sortPerm | exact abc_keys_NoDup
    | reflexivity | reflexivity | reflexivity | reflexivity | exact uAbc_viewport
    | reflexivity |].
  exists u'. split; [exact Hm|]. split; [exact Hc|]. split; [|split].
  - apply Hsel. exists 0. split; [split; [discriminate | reflexivity] | reflexivity].
  - apply Hsel. exists 1. split; [split; [discriminate | reflexivity] | reflexivity].
  - intros H. apply Hsel in H as (i & [Hi0 Hi1] & Hk).
    change (entry (cursor uAbcVisual)) with 0 in Hi0, Hi1.
    assert (Hi : i = 0 \/ i = 1) by lia.
    destruct Hi as [-> | ->]; vm_compute in Hk; discriminate Hk.
Defined.

(** [ab] on a line of four columns, and two runes of width 2 on a line
    without room. *)
Lemma Line_cells_witness :
  cellX <$> Line (fun _ => 1) 0 5 4 ColorBlack ColorWhite 32 "ab" = [0; 1; 2; 3] /\
  cellCh <$> Line (fun _ => 1) 0 5 4 ColorBlack ColorWhite 32 "ab"
    = [97; 98; 32; 32] /\
  Line (fun _ => 2) 3 5 3 ColorBlack ColorWhite 32 "ab"
    = [SetCell 3 5 97 ColorBlack ColorWhite].
Proof.
  destruct (Line_cells (fun _ => 1) 0 5 4 ColorBlack ColorWhite 32 "ab")
    as (_ & Hfill & _);
    [ repeat constructor; discriminate | split; discriminate
    | split; discriminate |].
  destruct (Hfill eq_refl ltac:(repeat constructor)) as (Hx & Hc).
  split; [exact Hx|]. split; [exact Hc|].
  apply (Line_cells (fun _ => 2) 3 5 3 ColorBlack ColorWhite 32 "ab");
    [ repeat constructor; discriminate | split; discriminate
    | split; discriminate | discriminate ].
Defined.

(** The menu of the delete dialogs on 30 columns, confirm chosen: 4
    columns of padding on each side, and column 35 left out. *)
Lemma LineOptions_layout_witness :
  lineOptionLength ["cancel"; "confirm"] = 21 /\
  cellX <$> LineOptions 10 5 40 ColorBlack ColorWhite ["cancel"; "confirm"] 1
    = seqZ 10 4 ++ seqZ 36 4 ++ seqZ 14 21.
Proof.
  destruct (LineOptions_layout 10 5 40 ColorBlack ColorWhite ["cancel"; "confirm"] 1)
    as (Hc & Hx & _);
    [ split; discriminate | split; discriminate | reflexivity |].
  split; [exact Hc | exact Hx].
Defined.

(** The batch dialog on [abc] on a terminal of 80 columns and 24 lines. *)
Lemma Box_within_frame_witness :
  boxFrame 80 24 (deleteSelected uAbc)
    = {| frameX := 26; frameY := 11; frameXmax := 53; frameYmax := 14 |} /\
  Forall (inRect 25 10 53 14) (Box (fun _ => 1) 80 24 (deleteSelected uAbc)).
Proof.
  split; [reflexivity|].
  apply (Box_within_frame (fun _ => 1) 80 24 (deleteSelected uAbc));
    [ | split; discriminate | split; discriminate | discriminate | reflexivity ].
  apply Forall_forall. intros s _. apply Forall_forall. intros c _.
  split; discriminate.
Defined.

(** The root arrives, then the quit key: [Show] returns without error,
    whatever follows. *)
Lemma Show_returns_witness :
  Show env0 "remote:" (on24 [rootChan abc; events KeyEsc; events Key_d])
    = Stop None /\
  exists pre h ev post u,
    on24 [rootChan abc; events KeyEsc; events Key_d] = pre ++ (h, ev) :: post /\
    Show env0 "remote:" pre = Ok u /\
    ev = events KeyEsc /\ UI.showBox u = false.
Proof.
  assert (Hs : Show env0 "remote:" (on24 [rootChan abc; events KeyEsc; events Key_d])
               = Stop None) by (vm_compute; reflexivity).
  split; [exact Hs|].
  destruct (Show_returns env0 "remote:" _ None Hs)
    as (pre & h & ev & post & u & He & Hp & [(_ & Hev & Hb) | (e & _ & Hc)]);
    [|discriminate Hc].
  exists pre, h, ev, post, u. split; [exact He|]. split; [exact Hp|].
  split; [exact Hev | exact Hb].
Defined.

(** The default sort of [abc], by size: the size key twice. *)
Lemma toggleSort_twice_witness :
  consistent uAbc /\ getSort BySize uAbc <> 0 /\
  exists u1 u2, toggleSort BySize uAbc = Ok u1 /\ getSort BySize u1 = -1 /\
    toggleSort BySize u1 = Ok u2 /\ UI.sortPerm u2 = [1; 0; 2].
Proof.
  split; [reflexivity|]. split; [discriminate|].
  assert (Ho : oneActive uAbc).
  { exists BySize. split; [by left|]. by intros []. }
  assert (Hs : { u0 | sortCurrentDir uAbc = Ok u0 /\ UI.sortPerm u0 = [1; 0; 2] }).
  { eexists. split; vm_compute; reflexivity. }
  destruct Hs as (u0 & Hs & Hp).
  destruct (toggleSort_twice BySize uAbc u0 eq_refl Ho ltac:(discriminate) Hs)
    as (u1 & u2 & H1 & Hg & H2 & _ & Hp2 & _).
  exists u1, u2. split; [exact H1|]. split; [exact Hg|]. split; [exact H2|].
  rewrite Hp2. exact Hp.
Defined.

(** The help text on [abc]: the first '?' shows it, the second hides
    it. *)
Lemma togglePopupBox_toggles_witness :
  helpText env0 <> [] /\
  UI.showBox uAbc = false /\
  UI.showBox (togglePopupBox (helpText env0) uAbc) = true /\
  UI.boxText (togglePopupBox (helpText env0) uAbc) = helpText env0 /\
  UI.showBox (togglePopupBox (helpText env0)
                (togglePopupBox (helpText env0) uAbc)) = false.
Proof.
  assert (Hne : helpText env0 <> []) by discriminate.
  split; [exact Hne|]. split; [reflexivity|].
  destruct (togglePopupBox_toggles (helpText env0) uAbc Hne)
    as (H1 & H2 & H3 & _).
  split; [exact H1|]. split; [exact H2|].
  rewrite H3, H1. reflexivity.
Defined.
